(** * The information-retrieval core of the book finder ([app.py])

    A shallow embedding of [tokenize], [build_tfidf], [cosine_similarity],
    [search_with_ir] and [recommend_similar], with the properties of the
    design document stated and settled against it; and of the code around
    them: [fetch_books_from_google], which fills the library, and what the
    page does with the books found (the category and sort boxes, the grid,
    the favourites, the position of the selected book and the columns of
    similar books), with properties read off that code.

    Modelling conventions.
    - A Python [float] is a binary64 number: Rocq's primitive [float], whose
      [+], [*], [/] and [sqrt] are the IEEE 754 operations Python uses.  The
      integer [0] that the program writes into empty vector slots and returns
      from its guards is the float zero: Python converts it as soon as it
      meets a float, and [0 == 0.0].
    - The built-in [sum] adds the items from left to right, starting from 0,
      as the language reference describes it.  (CPython 3.12 and later
      carry a compensation term through a sum of floats; of the examples
      below only the one on the layout of the vectors turns on the rounding
      of a sum, the others use sums that are exact.)
    - The exact result of an operation, where a rounding error is
      bounded, is a real number; [scaled m e] is the real [m * 2 ^ e].
    - A Python exception is a value [Raise e] of the type [result].
    - A [str] is a [string] whose characters are the code points below 256.
    - A [dict] is a [gmap]; a [Counter], which is iterated in insertion
      order, is an association list; a [set] is a [gset], listed in an order
      that the implementation chooses ([set_to_list] below).
    - The web is a function from the number of a request and its address
      to a reply; the choice in a select box is a value of an inductive
      type; the session state is passed to the functions that read it. *)

From Stdlib Require Import Reals Lra.
From Stdlib Require Import ZArith Lia List Floats String Ascii Permutation Sorted.
From stdpp Require Import gmap strings list fin_maps pretty.

Local Open Scope nat_scope.

(** ** Exceptions *)

Inductive exn : Type :=
  | IndexError
  | ZeroDivisionError
  | ValueError.

Inductive result (A : Type) : Type :=
  | Ok (a : A)
  | Raise (e : exn).

Arguments Ok {A} a.
Arguments Raise {A} e.

#[global] Instance result_ret : MRet result := fun A a => Ok a.
#[global] Instance result_bind : MBind result := fun A B f m =>
  match m with
  | Ok a => f a
  | Raise e => Raise e
  end.

(** ** Strings *)

Module Str.

(** [str.lower] on the code points below 256: the ASCII capitals and the
    Latin-1 capitals (all of U+00C0..U+00DE but the multiplication sign). *)
Definition lower_char (c : ascii) : ascii :=
  let n := nat_of_ascii c in
  if ((65 <=? n) && (n <=? 90))
     || ((192 <=? n) && (n <=? 222) && negb (n =? 215))
  then ascii_of_nat (n + 32) else c.

(** The characters [str.split] treats as white space. *)
Definition isspace (c : ascii) : bool :=
  let n := nat_of_ascii c in
  ((9 <=? n) && (n <=? 13)) || ((28 <=? n) && (n <=? 32))
  || (n =? 133) || (n =? 160).

Definition isupper (c : ascii) : bool :=
  let n := nat_of_ascii c in
  ((65 <=? n) && (n <=? 90))
  || ((192 <=? n) && (n <=? 222) && negb (n =? 215)).

Definition lower (s : string) : string :=
  string_of_list_ascii (map lower_char (list_ascii_of_string s)).

(** [s.replace(old, new)] for one-character [old] and [new]. *)
Definition replace_char (old new : ascii) (c : ascii) : ascii :=
  if Ascii.eqb c old then new else c.

Definition replace (old new : ascii) (s : string) : string :=
  string_of_list_ascii
    (map (replace_char old new) (list_ascii_of_string s)).

Definition flush (cur : list ascii) : list string :=
  match cur with
  | [] => []
  | _ :: _ => [string_of_list_ascii cur]
  end.

(** [s.split()]: the maximal runs of characters that are not white space;
    [cur] is the run being read. *)
Fixpoint split_from (cur : list ascii) (l : list ascii) : list string :=
  match l with
  | [] => flush cur
  | c :: l' =>
      if isspace c then flush cur ++ split_from [] l'
      else split_from (cur ++ [c]) l'
  end.

Definition split (s : string) : list string :=
  split_from [] (list_ascii_of_string s).

End Str.

(** [tokenize(text)].  [None] is Python's [None]; it and the empty string
    are the values of [text] for which [not text] holds. *)
Definition tokenize (text : option string) : list string :=
  match text with
  | None => []
  | Some EmptyString => []
  | Some s => Str.split (Str.replace "." " " (Str.replace "," " " (Str.lower s)))
  end.

Definition tokens_of (s : string) : list string := tokenize (Some s).

(** ** Numbers *)

Module Py.
Local Open Scope float_scope.

(** [sum(xs)] on floats: the items added from left to right, starting
    from 0. *)
Definition fsum (xs : list float) : float := fold_left PrimFloat.add xs 0.

(** [sum(c for x in xs)] on the integers the program counts with. *)
Definition isum (xs : list nat) : nat := fold_left Nat.add xs 0%nat.

(** [math.sqrt]: a domain error below zero ([-0.0] is not below zero). *)
Definition math_sqrt (x : float) : result float :=
  if x <? 0 then Raise ValueError else Ok (PrimFloat.sqrt x).

(** [x / y] on floats: division by a zero of either sign raises. *)
Definition truediv (x y : float) : result float :=
  if y =? 0 then Raise ZeroDivisionError else Ok (x / y).

(** The float of a non-negative [int] below [2 ^ 63]. *)
Definition float_of_nat (n : nat) : float :=
  PrimFloat.of_uint63 (Uint63.of_Z (Z.of_nat n)).

(** [l[i]] and [l[i] = x] for [i] from [enumerate] or from an index
    table: out of range they raise. *)
Definition getitem {A : Type} (l : list A) (i : nat) : result A :=
  match l !! i with
  | Some x => Ok x
  | None => Raise IndexError
  end.

Definition setitem {A : Type} (l : list A) (i : nat) (x : A)
  : result (list A) :=
  if decide (i < length l)%nat then Ok (<[i:=x]> l) else Raise IndexError.

(** [l[:n]]: a negative [n] counts from the end. *)
Definition slice_to {A : Type} (n : Z) (l : list A) : list A :=
  if (0 <=? n)%Z then take (Z.to_nat n) l
  else take (length l - Z.to_nat (- n))%nat l.

(** A [for] loop that threads a state and may raise. *)
Fixpoint for_each {A S : Type} (body : S → A → result S) (s : S)
    (l : list A) : result S :=
  match l with
  | [] => Ok s
  | x :: l' => s' ← body s x; for_each body s' l'
  end.

(** [[f(i, x) for i, x in enumerate(l)]], counting from [i]. *)
Fixpoint collect_from {A B : Type} (f : nat → A → result (list B))
    (i : nat) (l : list A) : result (list B) :=
  match l with
  | [] => Ok []
  | x :: l' =>
      ys ← f i x;
      rest ← collect_from f (S i) l';
      Ok (ys ++ rest)
  end.

(** [Counter(tokens)]: the distinct tokens in order of first occurrence,
    each with the number of its occurrences. *)
Fixpoint counter_add (w : string) (c : list (string * nat))
  : list (string * nat) :=
  match c with
  | [] => [(w, 1%nat)]
  | (k, n) :: c' =>
      if decide (k = w) then (k, S n) :: c' else (k, n) :: counter_add w c'
  end.

Definition Counter (tokens : list string) : list (string * nat) :=
  fold_left (fun c w => counter_add w c) tokens [].

(** [l.sort(key=key, reverse=True)].  Python's sort is stable, also with
    [reverse=True], and compares keys with [<] only; this is the stable
    insertion sort with that comparison. *)
Section Sort.
Context {A : Type} (key : A → float).

Fixpoint insert_desc (x : A) (l : list A) : list A :=
  match l with
  | [] => [x]
  | y :: l' =>
      if key x <? key y then y :: insert_desc x l' else x :: y :: l'
  end.

Definition sort_desc (l : list A) : list A := foldr insert_desc [] l.
End Sort.

End Py.

(** ** Binary64 values read through their specification

    [Prim2SF x] is the sign, mantissa and exponent of a float.  The
    predicates below are what the proofs about rounding are stated with. *)

Module B64.

(** Not below zero: a NaN, a zero of either sign, or a positive number. *)
Definition sf_not_negative (x : spec_float) : bool :=
  match x with
  | S754_finite true _ _ | S754_infinity true => false
  | _ => true
  end.

Definition sf_is_zero (x : spec_float) : bool :=
  match x with S754_zero _ => true | _ => false end.

Definition sf_is_nan (x : spec_float) : bool :=
  match x with S754_nan => true | _ => false end.

(** A number of magnitude at least [2 ^ (K - 1)], or an infinity. *)
Definition sf_above (K : Z) (x : spec_float) : Prop :=
  match x with
  | S754_finite _ m e => (K <= Z.log2 (Zpos m) + 1 + e)%Z
  | S754_infinity _ => True
  | _ => False
  end.

(** What a square root can be: NaN, a zero, plus infinity, or a positive
    number that is at least [2 ^ -537]. *)
Definition sf_root (x : spec_float) : Prop :=
  match x with
  | S754_nan | S754_infinity false | S754_zero _ => True
  | S754_finite false m e => (-536 <= Z.log2 (Zpos m) + 1 + e)%Z
  | _ => False
  end.

(** An integer that orders the floats that are not NaN as [<] does. *)
Definition sf_ord (x : spec_float) : Z :=
  match x with
  | S754_zero _ | S754_nan => 0
  | S754_infinity s => cond_Zopp s (2100 * 2 ^ 53)
  | S754_finite s m e => cond_Zopp s ((e + 1075) * 2 ^ 53 + Zpos m)
  end%Z.

Definition ord (x : float) : Z := sf_ord (Prim2SF x).

(** [x == x]: [x] is not a NaN. *)
Definition comparable (x : float) : Prop := (x =? x)%float = true.

(** [not (x < 0)]. *)
Definition not_negative (x : float) : Prop := (x <? 0)%float = false.

End B64.

(** The real number [m * 2 ^ e]: the value of a finite float with the
    mantissa [m] and the exponent [e].  The bounds on the rounding errors
    are stated with it. *)
Definition scaled (m e : Z) : R := (IZR m * powerRZ 2 e)%R.

(** ** Documents *)

Record Book : Type := mkBook {
  id : string;
  title : string;
  author : string;
  category : string;
  year : Z;
  rating : float;
  description : string;
  cover : string;
  preview : string
}.

(** The text a book is indexed under:
    [f"{b['title']} {b['author']} {b['category']} {b['description']}"]. *)
Definition document (b : Book) : string :=
  (title b ++ " " ++ author b ++ " " ++ category b ++ " " ++ description b)%string.

(** ** The index *)

(** The body of the loop over [tf.items()], which occurs in [build_tfidf]
    and again in [search_with_ir]. *)
Definition weigh (vocab_index : gmap string nat) (idf : gmap string float)
    (vector : list float) (item : string * nat) : result (list float) :=
  let '(word, count) := item in
  match vocab_index !! word with
  | Some idx =>
      Py.setitem vector idx
        (Py.float_of_nat count * default 0%float (idf !! word))%float
  | None => Ok vector
  end.

Definition vectorize (vocab_index : gmap string nat) (idf : gmap string float)
    (size : nat) (tokens : list string) : result (list float) :=
  Py.for_each (weigh vocab_index idf) (replicate size 0%float)
    (Py.Counter tokens).

(** The vector that [vectorize] returns when no index is out of range. *)
Definition weigh_slot (vocab_index : gmap string nat)
    (idf : gmap string float) (vector : list float) (item : string * nat)
  : list float :=
  match vocab_index !! item.1 with
  | Some idx =>
      <[idx := (Py.float_of_nat item.2 * default 0%float (idf !! item.1))%float]>
        vector
  | None => vector
  end.

Definition weights (vocab_index : gmap string nat) (idf : gmap string float)
    (size : nat) (tokens : list string) : list float :=
  fold_left (weigh_slot vocab_index idf) (Py.Counter tokens)
    (replicate size 0%float).

(** Every slot of the table is below [n]. *)
Definition index_ok (vocab_index : gmap string nat) (n : nat) : Prop :=
  ∀ word idx, vocab_index !! word = Some idx → idx < n.

(** The weight of a term in a token sequence, in the words of the design
    document: the number of its occurrences times its idf if it occurs,
    and 0 otherwise. *)
Definition occurrences (t : string) (tokens : list string) : nat :=
  length (filter (fun w => w = t) tokens).

Definition term_weight (idf : gmap string float) (tokens : list string)
    (t : string) : float :=
  if decide (t ∈ tokens)
  then (Py.float_of_nat (occurrences t tokens) * default 0 (idf !! t))%float
  else 0%float.

(** The count a [Counter] holds for a key. *)
Fixpoint tally (t : string) (items : list (string * nat)) : option nat :=
  match items with
  | [] => None
  | (w, c) :: items' => if decide (w = t) then Some c else tally t items'
  end.

(** One step of [{word: i for i, word in enumerate(vocab)}]. *)
Definition put (m : gmap string nat) (p : nat * string) : gmap string nat :=
  let '(i, word) := p in <[word := i]> m.

(** [list(vocab)] lists every member of the set once, in some order. *)
Definition lists_sets (set_to_list : gset string → list string) : Prop :=
  ∀ X : gset string, set_to_list X ≡ₚ elements X.

Definition index : Type :=
  (list (list float) * gmap string nat * gmap string float)%type.

Section Build.
(** [math.log], and the order in which [list(vocab)] lists a set. *)
Variable log : float → float.
Variable set_to_list : gset string → list string.

Definition vocabulary (documents : list string) : gset string :=
  fold_left (fun vocab doc => vocab ∪ list_to_set (tokens_of doc))
    documents ∅.

Definition df (documents : list string) (word : string) : nat :=
  Py.isum (map (fun _ => 1%nat)
             (filter (fun doc => word ∈ tokens_of doc) documents)).

Definition idf_weight (N df : nat) : float :=
  (log (Py.float_of_nat (N + 1) / Py.float_of_nat (df + 1)) + 1)%float.

Definition vocab_index_of (vocab : list string) : gmap string nat :=
  fold_left put (imap (fun i word => (i, word)) vocab) ∅.

Definition idf_table (documents vocab : list string) : gmap string float :=
  fold_left
    (fun idf word =>
       <[word := idf_weight (length documents) (df documents word)]> idf)
    vocab ∅.

Definition build_tfidf (documents : list string) : result index :=
  let vocab := set_to_list (vocabulary documents) in
  let vocab_index := vocab_index_of vocab in
  let idf := idf_table documents vocab in
  vectors ← Py.collect_from
    (fun _ doc =>
       vector ← vectorize vocab_index idf (length vocab) (tokens_of doc);
       Ok [vector])
    0 documents;
  Ok (vectors, vocab_index, idf).
End Build.

(** ** Positions in the corpus *)

#[global] Instance book_inhabited : Inhabited Book :=
  populate (mkBook "" "" "" "" 0 0%float "" "" "").

#[global] Instance float_inhabited : Inhabited float := populate 0%float.

(** [a] is ranked before [b]: its key is greater, or the keys are equal and
    [a] comes first in the corpus. *)
Definition ranked_before {A : Type} (key : A → float) (pos : A → nat)
    (a b : A) : Prop :=
  (key b <? key a)%float = true
  ∨ ((key a =? key b)%float = true ∧ pos a < pos b).

(** [a] may stand before [b] in a descending list. *)
Definition not_below {A : Type} (key : A → float) (a b : A) : Prop :=
  (key b <=? key a)%float = true.

(** ** Scoring *)

Definition cosine_similarity (vec1 vec2 : list float) : result float :=
  match vec1, vec2 with
  | [], _ | _, [] => Ok 0%float
  | _, _ =>
      let dot := Py.fsum (zip_with PrimFloat.mul vec1 vec2) in
      norm1 ← Py.math_sqrt (Py.fsum (map (fun a => a * a)%float vec1));
      norm2 ← Py.math_sqrt (Py.fsum (map (fun b => b * b)%float vec2));
      if (norm1 =? 0)%float || (norm2 =? 0)%float then Ok 0%float
      else Py.truediv dot (norm1 * norm2)%float
  end.

(** The value [cosine_similarity] computes when nothing is raised. *)
Definition dot (a b : list float) : float :=
  Py.fsum (zip_with PrimFloat.mul a b).

Definition norm (a : list float) : float :=
  PrimFloat.sqrt (Py.fsum (map (fun x => x * x)%float a)).

Definition cosine_value (a b : list float) : float :=
  match a, b with
  | [], _ | _, [] => 0
  | _, _ =>
      if (norm a =? 0) || (norm b =? 0) then 0
      else dot a b / (norm a * norm b)
  end%float.

(** [sum(w for token in query_tokens if token in field_tokens)]. *)
Definition field_match (w : nat) (query_tokens field_tokens : list string)
  : nat :=
  Py.isum (map (fun _ => w)
             (filter (fun token => token ∈ field_tokens) query_tokens)).

Definition final_score (cos_score : float) (query_tokens : list string)
    (book : Book) : float :=
  let title_tokens := tokens_of (title book) in
  let author_tokens := tokens_of (author book) in
  let title_match := field_match 3 query_tokens title_tokens in
  let author_match := field_match 2 query_tokens author_tokens in
  (cos_score * 4 + Py.float_of_nat title_match
   + Py.float_of_nat author_match)%float.

Definition search_scores (query_tokens : list string)
    (query_vector : list float) (books : list Book)
    (doc_vectors : list (list float)) : result (list (Book * float)) :=
  Py.collect_from
    (fun i doc_vec =>
       cos_score ← cosine_similarity query_vector doc_vec;
       book ← Py.getitem books i;
       Ok [(book, final_score cos_score query_tokens book)])
    0 doc_vectors.

Definition search_with_ir (query : string) (books : list Book)
    (doc_vectors : list (list float)) (vocab_index : gmap string nat)
    (idf : gmap string float) : result (list Book) :=
  let query_tokens := tokens_of query in
  query_vector ← vectorize vocab_index idf (size vocab_index) query_tokens;
  scores ← search_scores query_tokens query_vector books doc_vectors;
  let scores := Py.sort_desc snd scores in
  Ok (map fst (filter (fun x => (0 <? snd x)%float = true) scores)).

Definition recommend_scores (book_idx : nat) (base_vec : list float)
    (books : list Book) (doc_vectors : list (list float))
  : result (list (Book * float)) :=
  Py.collect_from
    (fun i doc_vec =>
       if decide (i ≠ book_idx) then
         sim ← cosine_similarity base_vec doc_vec;
         book ← Py.getitem books i;
         Ok [(book, sim)]
       else Ok [])
    0 doc_vectors.

Definition recommend_similar (book_idx : Z) (books : list Book)
    (doc_vectors : list (list float)) (top_n : Z) : result (list Book) :=
  if decide (book_idx < 0 ∨ book_idx >= Z.of_nat (length doc_vectors))%Z then Ok []
  else
    base_vec ← Py.getitem doc_vectors (Z.to_nat book_idx);
    scores ← recommend_scores (Z.to_nat book_idx) base_vec books doc_vectors;
    let scores := Py.sort_desc snd scores in
    Ok (map fst (Py.slice_to top_n scores)).

(** The combined score in the words of the design document: the cosine
    times 4.0, plus 3 for every query token (with multiplicity) that occurs
    in the tokenized title, plus 2 for every one in the tokenized author. *)
Definition matches (query_tokens field_tokens : list string) : nat :=
  length (filter (fun token => token ∈ field_tokens) query_tokens).

Definition combined_score (query_tokens : list string)
    (query_vector : list float) (books : list Book)
    (doc_vectors : list (list float)) (j : nat) : float :=
  (cosine_value query_vector (doc_vectors !!! j) * 4
   + Py.float_of_nat
       (3 * matches query_tokens (tokens_of (title (books !!! j))))
   + Py.float_of_nat
       (2 * matches query_tokens (tokens_of (author (books !!! j)))))%float.

(** The similarity of document [j] to document [i], and the score of
    document [j] for a query, as functions of the position. *)
Definition similarity_to (doc_vectors : list (list float)) (i j : nat)
  : float :=
  cosine_value (doc_vectors !!! i) (doc_vectors !!! j).

Definition score_at (query_tokens : list string) (query_vector : list float)
    (books : list Book) (doc_vectors : list (list float)) (j : nat) : float :=
  final_score (cosine_value query_vector (doc_vectors !!! j)) query_tokens
    (books !!! j).

(** [top_n=4] when the caller gives no count. *)
Definition recommend_similar_default (book_idx : Z) (books : list Book)
    (doc_vectors : list (list float)) : result (list Book) :=
  recommend_similar book_idx books doc_vectors 4.

(** A corpus of three books for the examples. *)
Definition book (n : string) (t a : string) : Book :=
  mkBook n t a "Tech" 2020 4%float "..." "" "".

Definition shelf : list Book :=
  [ book "b1" "Python Programming Guide" "A";
    book "b2" "Guide to JavaScript" "B";
    book "b3" "Python for Data Science" "C" ].

(** A corpus of three books on which the order of the vocabulary matters,
    and a second way to list a set: the first member moved to the end. *)
Definition leaf (n t a c d : string) : Book :=
  mkBook n t a c 2020 4%float d "" "".

Definition pile : list Book :=
  [ leaf "b1" "d" "c" "b" "a"; leaf "b2" "d" "d" "d" "";
    leaf "b3" "c" "" "" "" ].

Definition turned (X : gset string) : list string :=
  drop 1 (elements X) ++ take 1 (elements X).

(** [math.log] at the quotients that corpora of three documents give rise
    to (1, 2 and 4/3), as the C library rounds it; 0 elsewhere. *)
Definition log_table (x : float) : float :=
  if (x =? 1)%float then 0%float
  else if (x =? 2)%float then 0x1.62e42fefa39efp-1%float
  else if (x =? 0x1.5555555555555p+0)%float then 0x1.269621134db91p-2%float
  else 0%float.

Definition shelf_index : index :=
  match build_tfidf log_table elements (map document shelf) with
  | Ok i => i
  | Raise _ => ([], ∅, ∅)
  end.

Definition pile_index (set_to_list : gset string → list string) : index :=
  match build_tfidf log_table set_to_list (map document pile) with
  | Ok i => i
  | Raise _ => ([], ∅, ∅)
  end.

(** ** The library: [fetch_books_from_google] *)

(** What the program reads of one item of a reply: the entries of its
    [volumeInfo] (and of the [imageLinks] in it) that [.get] looks up;
    [None] is a key that is not there. *)
Module Volume.
Record t : Type := mk {
  title : option string;
  authors : option (list string);
  categories : option (list string);
  publishedDate : option string;
  averageRating : option float;
  description : option string;
  thumbnail : option string;
  previewLink : option string
}.
End Volume.

(** What [requests.get] gives: an exception, or a response with its status
    code and with what [response.json().get('items', [])] evaluates to. *)
Inductive reply : Type :=
  | NoReply
  | Reply (status_code : Z) (items : result (list Volume.t)).

(** How the loop over the items of one reply ends: at the end of the
    items, in [return all_books], or in an exception, which leaves the
    books appended so far in the list. *)
Inductive flow : Type :=
  | Next (all_books : list Book) (book_id : nat)
  | Return (all_books : list Book)
  | Except (all_books : list Book) (book_id : nat).

(** [s.replace(old, new)] for a non-empty [old]: the occurrences are
    replaced from left to right and do not overlap; [skip] counts the
    characters of an occurrence that are still to be passed over. *)
Fixpoint replace_from (old new : string) (skip : nat) (s : string) : string :=
  match s with
  | EmptyString => EmptyString
  | String c s' =>
      match skip with
      | S skip' => replace_from old new skip' s'
      | O =>
          if String.prefix old s
          then (new ++ replace_from old new (String.length old - 1) s')%string
          else String c (replace_from old new 0 s')
      end
  end.

Definition str_replace (old new s : string) : string :=
  replace_from old new 0 s.

(** A string that is true in a condition: one that is there and not
    empty. *)
Definition truthy (s : option string) : option string :=
  match s with
  | Some (String _ _ as s) => Some s
  | _ => None
  end.

(** [info.get(key, [d])[0] if info.get(key) else d]. *)
Definition first_or (d : string) (l : option (list string)) : string :=
  match l with
  | Some (x :: _) => x
  | _ => d
  end.

Definition url (query : string) : string :=
  ("https://www.googleapis.com/books/v1/volumes?q=" ++ query
   ++ "&maxResults=10&langRestrict=en")%string.

Section Fetch.
(** The built-ins [int], on a string, and [round(x, 1)]; and the web: the
    reply to the request number [k], which asks for [url]. *)
Variable int_of_str : string → result Z.
Variable round1 : float → float.
Variable requests_get : nat → string → reply.

(** The dictionary appended for an item with a thumbnail.  Of its entries
    only the year can raise. *)
Definition make_book (book_id : nat) (info : Volume.t) (thumbnail : string)
  : result Book :=
  year ← match truthy (Volume.publishedDate info) with
         | Some date => int_of_str (substring 0 4 date)
         | None => Ok 2020%Z
         end;
  Ok (mkBook
        ("b" ++ pretty book_id)
        (default "Unknown" (Volume.title info))
        (first_or "Unknown" (Volume.authors info))
        (first_or "General" (Volume.categories info))
        year
        (round1 (default 4%float (Volume.averageRating info)))
        (match truthy (Volume.description info) with
         | Some text => substring 0 300 text ++ "..."
         | None => "No description"
         end)
        (str_replace "http:" "https:" thumbnail)
        (default "" (Volume.previewLink info)))%string.

(** The body of [for item in items]. *)
Definition add_item (all_books : list Book) (book_id : nat)
    (item : Volume.t) : flow :=
  match truthy (Volume.thumbnail item) with
  | Some thumbnail =>
      match make_book book_id item thumbnail with
      | Ok b =>
          let all_books := all_books ++ [b] in
          if decide (100 ≤ length all_books) then Return all_books
          else Next all_books (S book_id)
      | Raise _ => Except all_books book_id
      end
  | None =>
      if decide (100 ≤ length all_books) then Return all_books
      else Next all_books book_id
  end.

Fixpoint add_items (all_books : list Book) (book_id : nat)
    (items : list Volume.t) : flow :=
  match items with
  | [] => Next all_books book_id
  | item :: items' =>
      match add_item all_books book_id item with
      | Next all_books book_id => add_items all_books book_id items'
      | stop => stop
      end
  end.

(** [for query in search_queries], from the request number [k] on.  An
    exception in the body is caught and the loop goes on; [time.sleep]
    has no part in the result. *)
Fixpoint fetch_from (k : nat) (all_books : list Book) (book_id : nat)
    (search_queries : list string) : list Book :=
  match search_queries with
  | [] => all_books
  | query :: rest =>
      match requests_get k (url query) with
      | Reply status_code items =>
          if decide (status_code = 200%Z) then
            match items with
            | Ok items =>
                match add_items all_books book_id items with
                | Next all_books book_id | Except all_books book_id =>
                    fetch_from (S k) all_books book_id rest
                | Return all_books => all_books
                end
            | Raise _ => fetch_from (S k) all_books book_id rest
            end
          else fetch_from (S k) all_books book_id rest
      | NoReply => fetch_from (S k) all_books book_id rest
      end
  end.

Definition fetch_books_from_google (search_queries : list string)
  : list Book :=
  fetch_from 0 [] 1 search_queries.
End Fetch.

(** The ids the program gives out: [b1], [b2], ..., [bn]. *)
Definition numbered (n : nat) : list string :=
  map (fun k => ("b" ++ pretty k)%string) (seq 1 n).

(** A book with something to show: an address for the cover and a
    description, neither of them empty, and the description of at most
    303 characters (300 and the three dots). *)
Definition displayable (b : Book) : Prop :=
  cover b ≠ ""%string ∧ description b ≠ ""%string
  ∧ String.length (description b) ≤ 303.

(** A web for the examples.  Its first reply has four items: one that is
    complete, one without a thumbnail, one whose date is no number and one
    after that; its second request fails, its third is refused, and the
    others bring one item. *)
Definition volume (t : string) (date thumbnail : option string) : Volume.t :=
  Volume.mk (Some t) None None date None None thumbnail None.

Definition sample_web (k : nat) (address : string) : reply :=
  match k with
  | 0 => Reply 200 (Ok [ volume "Dune" (Some "1965-08-01")
                           (Some "http://books/dune");
                         volume "No cover" None None;
                         volume "Undated" (Some "n.d.") (Some "http://books/u");
                         volume "Lost" None (Some "http://books/lost") ])
  | 1 => NoReply
  | 2 => Reply 404 (Ok [volume "Refused" None (Some "http://books/r")])
  | _ => Reply 200 (Ok [volume "Emma" None (Some "https://books/emma")])
  end%string.

(** [int] on the two dates of [sample_web]. *)
Definition sample_int (s : string) : result Z :=
  if decide (s = "1965"%string) then Ok 1965%Z else Raise ValueError.


(** ** The page *)

(** [l.remove(x)]: the first occurrence of [x] goes; without one it
    raises. *)
Fixpoint list_remove (x : string) (l : list string) : result (list string) :=
  match l with
  | [] => Raise ValueError
  | y :: l' =>
      if decide (y = x) then Ok l'
      else l'' ← list_remove x l'; Ok (y :: l'')
  end.

(** The heart button of a book: [favorites.remove] if the book is a
    favourite, [favorites.append] if not. *)
Definition toggle_favorite (book_id : string) (favorites : list string)
  : result (list string) :=
  if decide (book_id ∈ favorites) then list_remove book_id favorites
  else Ok (favorites ++ [book_id]).

(** The heart buttons pressed one after the other. *)
Definition toggle_all (clicks : list string) (favorites : list string)
  : result (list string) :=
  Py.for_each (fun favorites book_id => toggle_favorite book_id favorites)
    favorites clicks.

(** [[b for b in books if b['id'] in favorites]]. *)
Definition favorite_books (books : list Book) (favorites : list string)
  : list Book :=
  filter (fun b => id b ∈ favorites) books.

(** [next((i for i, b in enumerate(books) if b['id'] == book_id), -1)],
    counting from [i]. *)
Fixpoint next_index_from (i : nat) (book_id : string) (books : list Book)
  : Z :=
  match books with
  | [] => -1
  | b :: books' =>
      if decide (id b = book_id) then Z.of_nat i
      else next_index_from (S i) book_id books'
  end.

Definition book_index (book_id : string) (books : list Book) : Z :=
  next_index_from 0 book_id books.

(** [l.sort(key=key, reverse=True)] for a key that is an [int]. *)
Section SortInt.
Context {A : Type} (key : A → Z).

Fixpoint insert_desc_int (x : A) (l : list A) : list A :=
  match l with
  | [] => [x]
  | y :: l' =>
      if (key x <? key y)%Z then y :: insert_desc_int x l'
      else x :: y :: l'
  end.

Definition sort_desc_int (l : list A) : list A := foldr insert_desc_int [] l.
End SortInt.

(** The two select boxes: the first entry of the category box stands for
    every category, the others are the categories of the library; the
    sort box has three entries. *)
Inductive category_choice : Type :=
  | AllCategories
  | Category (name : string).

Inductive sort_choice : Type :=
  | ByScore
  | ByRating
  | ByYear.

(** What is done to the books found before they are displayed. *)
Definition refine (chosen : category_choice) (sort_by : sort_choice)
    (filtered : list Book) : list Book :=
  let filtered :=
    match chosen with
    | AllCategories => filtered
    | Category name => filter (fun b => category b = name) filtered
    end in
  match sort_by with
  | ByScore => filtered
  | ByRating => Py.sort_desc rating filtered
  | ByYear => sort_desc_int year filtered
  end.

(** The grid of covers: [range(0, n, cols_per_row)] and, in each row, the
    positions [i + j] that are below [n]. *)
Definition cols_per_row : nat := 5.

Definition range_step (n step : nat) : list nat :=
  map (fun k => k * step) (seq 0 ((n + step - 1) / step)).

Definition grid_row (n i : nat) : list nat :=
  filter (fun p => p < n) (map (fun j => i + j) (seq 0 cols_per_row)).

Definition grid (n : nat) : list (list nat) :=
  map (grid_row n) (range_step n cols_per_row).

(** The books similar to the selected one, each in the column of its
    rank; there are four columns. *)
Definition similar_view (selected_idx : Z) (books : list Book)
    (doc_vectors : list (list float)) : result (list (nat * Book)) :=
  if decide (0 <= selected_idx)%Z then
    similar_books ← recommend_similar_default selected_idx books doc_vectors;
    Py.collect_from
      (fun idx similar => col ← Py.getitem (seq 0 4) idx; Ok [(col, similar)])
      0 similar_books
  else Ok [].

(** The library fetched from [sample_web] with five queries, and its
    index. *)
Definition sample_library : list Book :=
  fetch_books_from_google sample_int (fun x => x) sample_web
    ["a"; "b"; "c"; "d"; "e"]%string.

Definition sample_index : index :=
  match build_tfidf log_table elements (map document sample_library) with
  | Ok i => i
  | Raise _ => ([], ∅, ∅)
  end.

(** Three found books with different ratings and years, for the
    examples. *)
Definition novel (n t c : string) (y : Z) (r : float) : Book :=
  mkBook n t "" c y r "" "" "".

Definition novels : list Book :=
  [ novel "b1" "Emma" "Fiction" 1815 4%float;
    novel "b2" "Dune" "Fiction" 1965 4.5%float;
    novel "b3" "Cosmos" "Science" 1980 4.5%float;
    novel "b4" "Ulysses" "Fiction" 1922 4%float ].


(* ================================================================== *)
(** * Properties *)

(** ** The program on the example corpus *)

Example tokenize_punctuation :
  tokenize (Some "  Rust, C.and  Go "%string)
  = ["rust"; "c"; "and"; "go"]%string.
Proof. vm_compute. reflexivity. Qed.

Example shelf_index_sizes :
  length shelf_index.1.1 = 3 ∧ size shelf_index.1.2 = 12
  ∧ size shelf_index.2 = 12.
Proof. vm_compute. done. Qed.

Example shelf_idf_guide :
  shelf_index.2 !! "guide"%string = Some 0x1.49a58844d36e4p+0%float.
Proof. vm_compute. reflexivity. Qed.

(** The query [Python] finds the two books with that word in the title;
    the third scores 0 and is left out. *)
Example search_python :
  search_with_ir "Python" shelf shelf_index.1.1 shelf_index.1.2 shelf_index.2
  = Ok [shelf !!! 0; shelf !!! 2].
Proof. vm_compute. reflexivity. Qed.

Example search_nothing :
  search_with_ir "" shelf shelf_index.1.1 shelf_index.1.2 shelf_index.2
  = Ok [].
Proof. vm_compute. reflexivity. Qed.

Example recommend_for_first :
  recommend_similar_default 0 shelf shelf_index.1.1
  = Ok [shelf !!! 1; shelf !!! 2].
Proof. vm_compute. reflexivity. Qed.

(** ** The tokenizer *)

Section Tokenizer.
Import Str.

Lemma lower_char_not_upper c : isupper (lower_char c) = false.
Proof.
  destruct c as [[] [] [] [] [] [] [] []]; vm_compute; reflexivity.
Qed.

Lemma chars_of_list l : list_ascii_of_string (string_of_list_ascii l) = l.
Proof. apply list_ascii_of_string_of_list_ascii. Qed.

Lemma flush_spec cur t :
  t ∈ flush cur → cur ≠ [] ∧ list_ascii_of_string t = cur.
Proof.
  destruct cur as [|c cur]; simpl; [by intros ?%elem_of_nil|].
  intros ->%list_elem_of_singleton. split; [done|].
  apply (chars_of_list (c :: cur)).
Qed.

Lemma split_from_spec l : ∀ cur t,
  Forall (fun c => isspace c = false) cur →
  t ∈ split_from cur l →
  list_ascii_of_string t ≠ [] ∧
  Forall (fun c => isspace c = false ∧ c ∈ cur ++ l)
    (list_ascii_of_string t).
Proof.
  induction l as [|c l IH]; intros cur t Hcur; simpl.
  - intros [Hne ->]%flush_spec. split; [done|].
    rewrite app_nil_r. apply Forall_forall. intros x Hx. split; [|done].
    by eapply Forall_forall in Hcur.
  - destruct (isspace c) eqn:Hc.
    + intros [Ht|Ht]%elem_of_app.
      * apply flush_spec in Ht as [Hne ->]. split; [done|].
        apply Forall_forall. intros x Hx. split.
        -- by eapply Forall_forall in Hcur.
        -- apply elem_of_app. by left.
      * apply IH in Ht as [Hne Hall]; [|constructor]. split; [done|].
        eapply Forall_impl; [exact Hall|]. simpl. intros x [? Hx].
        split; [done|]. apply elem_of_app. right. by right.
    + intros Ht. apply IH in Ht as [Hne Hall].
      * split; [done|]. eapply Forall_impl; [exact Hall|]. simpl.
        intros x [? Hx]. split; [done|]. by rewrite <- app_assoc in Hx.
      * apply Forall_app. split; [done|]. by constructor.
Qed.

Lemma pipeline_chars s t :
  t ∈ split (replace "." " " (replace "," " " (lower s))) →
  list_ascii_of_string t ≠ [] ∧
  Forall (fun c => isspace c = false ∧
                   ∃ c0, c0 ∈ list_ascii_of_string s ∧
                         c = replace_char "." " " (replace_char "," " " (lower_char c0)))
    (list_ascii_of_string t).
Proof.
  unfold split. intros Ht.
  apply split_from_spec in Ht as [Hne Hall]; [|constructor].
  split; [done|]. eapply Forall_impl; [exact Hall|]. simpl.
  intros c [Hsp Hin]. split; [done|].
  unfold replace, lower in Hin. rewrite !chars_of_list in Hin.
  apply (list_elem_of_fmap (replace_char "." " ")) in Hin as (c1 & -> & Hin).
  apply (list_elem_of_fmap (replace_char "," " ")) in Hin as (c2 & -> & Hin).
  apply (list_elem_of_fmap lower_char) in Hin as (c0 & -> & Hin).
  by exists c0.
Qed.

Lemma tokenize_unfold s :
  tokenize (Some s) = split (replace "." " " (replace "," " " (lower s))).
Proof. destruct s; [by vm_compute|done]. Qed.

Lemma normalised_char c0 :
  let c := replace_char "." " " (replace_char "," " " (lower_char c0)) in
  c ≠ ","%char ∧ c ≠ "."%char ∧ isupper c = false.
Proof.
  destruct c0 as [[] [] [] [] [] [] [] []]; vm_compute;
    (split; [|split]); (reflexivity || discriminate).
Qed.
End Tokenizer.

(** C9.  [tokenize] lowercases its input, replaces commas and periods with
    spaces and splits on white space: on ["Hello, World."] it gives
    [["hello"; "world"]]; on the empty text and on absent text it gives the
    empty sequence (it is a total function, so nothing is raised); and no
    token is empty or holds white space, a comma, a period or a capital. *)
Theorem tokenize_normalises :
  tokenize (Some "Hello, World."%string) = ["hello"%string; "world"%string] ∧
  tokenize (Some ""%string) = [] ∧
  tokenize None = [] ∧
  (∀ s : string,
     tokenize (Some s) =
       Str.split (Str.replace "." " " (Str.replace "," " " (Str.lower s)))) ∧
  (∀ (text : option string) (t : string),
     t ∈ tokenize text →
     t ≠ ""%string ∧
     Forall (fun c => Str.isspace c = false ∧ c ≠ ","%char ∧ c ≠ "."%char ∧
                      Str.isupper c = false)
       (list_ascii_of_string t)).
Proof.
  split; [by vm_compute|]. split; [done|]. split; [done|]. split.
  - apply tokenize_unfold.
  - intros [s|] t Ht; [|by apply elem_of_nil in Ht].
    rewrite tokenize_unfold in Ht.
    apply pipeline_chars in Ht as [Hne Hall]. split.
    + intros ->. by apply Hne.
    + eapply Forall_impl; [exact Hall|]. simpl.
      intros c [Hsp (c0 & _ & ->)]. split; [done|]. apply normalised_char.
Qed.

(** ** Binary64 arithmetic *)

Section Binary64Facts.
Import B64.
Local Open Scope float_scope.


(** *** Multiplication commutes *)

Lemma SFmul_comm x y : SFmul prec emax x y = SFmul prec emax y x.
Proof.
  destruct x as [sx|sx| |sx mx ex], y as [sy|sy| |sy my ey]; simpl;
    rewrite ?(xorb_comm sx sy), ?(Pos.mul_comm mx my), ?(Z.add_comm ex ey);
    reflexivity.
Qed.

Lemma float_mul_comm (x y : float) : x * y = y * x.
Proof. apply Prim2SF_inj. rewrite !mul_spec. apply SFmul_comm. Qed.

(** *** Signs: what the operations do to numbers that are not negative *)

Lemma Prim2SF_zero : Prim2SF 0 = S754_zero false.
Proof. reflexivity. Qed.

Lemma not_negative_sf x : not_negative x <-> sf_not_negative (Prim2SF x) = true.
Proof.
  unfold not_negative. rewrite ltb_spec, Prim2SF_zero.
  destruct (Prim2SF x) as [s|s| |s m e]; try destruct s; cbv; split; congruence.
Qed.

Lemma round_aux_sign s m e l :
  match binary_round_aux prec emax s m e l with
  | S754_finite s' _ _ | S754_infinity s' | S754_zero s' => s' = s
  | S754_nan => True
  end.
Proof.
  unfold binary_round_aux.
  destruct (shr_fexp prec emax m e l) as [mrs' e'].
  destruct (shr_fexp prec emax _ e' loc_Exact) as [mrs'' e''].
  destruct (shr_m mrs''); [reflexivity| |exact I].
  destruct (Z.leb _ _); reflexivity.
Qed.

Lemma round_aux_nn m e l : sf_not_negative (binary_round_aux prec emax false m e l) = true.
Proof.
  pose proof (round_aux_sign false m e l) as H.
  destruct (binary_round_aux prec emax false m e l); simpl in *; subst; reflexivity.
Qed.

Lemma SFmul_nn x y : sf_not_negative x = true -> sf_not_negative y = true ->
  sf_not_negative (SFmul prec emax x y) = true.
Proof.
  destruct x as [sx|sx| |sx mx ex], y as [sy|sy| |sy my ey]; simpl; try reflexivity;
   try (destruct sx; try discriminate); try (destruct sy; try discriminate); simpl; try reflexivity;
   intros _ _; try apply round_aux_nn.
Qed.

Lemma SFmul_self_nn x : sf_not_negative (SFmul prec emax x x) = true.
Proof.
  destruct x as [sx|sx| |sx mx ex]; simpl; try reflexivity; destruct sx; simpl; try reflexivity; apply round_aux_nn.
Qed.

Lemma SFadd_nn x y : sf_not_negative x = true -> sf_not_negative y = true ->
  sf_not_negative (SFadd prec emax x y) = true.
Proof.
  destruct x as [sx|sx| |sx mx ex], y as [sy|sy| |sy my ey]; simpl; try reflexivity;
   try (destruct sx; try discriminate); try (destruct sy; try discriminate); simpl; try reflexivity.
  intros _ _. unfold binary_normalize, binary_round.
  destruct (shl_align mx ex _) as [a b]; destruct (shl_align my ey _) as [c d]; simpl.
  destruct (shl_align _ _ _). apply round_aux_nn.
Qed.

Lemma SFsqrt_nn x : sf_not_negative (SFsqrt prec emax x) = true.
Proof.
  destruct x as [sx|sx| |sx mx ex]; simpl; try reflexivity; destruct sx; simpl; try reflexivity.
  destruct (SFsqrt_core_binary _ _ _ _) as [[mz ez] lz]. apply round_aux_nn.
Qed.

Lemma SFdiv_nn x y : sf_not_negative x = true -> sf_not_negative y = true ->
  sf_is_zero y = false ->
  sf_not_negative (SFdiv prec emax x y) = true.
Proof.
  destruct x as [[]|[]| |[] mx ex], y as [[]|[]| |[] my ey];
    try discriminate; try reflexivity.
  intros _ _ _. unfold SFdiv. cbn [xorb].
  destruct (SFdiv_core_binary _ _ _ _ _ _) as [[mz ez] lz]. apply round_aux_nn.
Qed.

Lemma eqb_zero_sf x : (x =? 0) = sf_is_zero (Prim2SF x).
Proof.
  rewrite FloatAxioms.eqb_spec, Prim2SF_zero.
  destruct (Prim2SF x) as [s|s| |s m e]; try destruct s; reflexivity.
Qed.
Local Open Scope Z_scope.

(** *** Rounding keeps a number that is large enough away from zero

    [binary_round_aux] shifts a mantissa to 53 bits and rounds it.  A
    mantissa [m] at exponent [e] with [K <= log2 m + 1 + e] and
    [K > -1074] comes out finite with the same bound, or infinite. *)

Lemma digits2_size p : digits2_pos p = Pos.size p.
Proof. induction p; simpl; congruence. Qed.

Lemma Zdigits2_log2 m : 0 < m -> Zdigits2 m = Z.log2 m + 1.
Proof.
  destruct m as [|p|p]; try lia. intros _. simpl. rewrite digits2_size.
  destruct p; simpl; lia.
Qed.

Lemma shr_1_m mrs : 0 <= shr_m mrs -> shr_m (shr_1 mrs) = shr_m mrs / 2.
Proof.
  destruct mrs as [m r s]. simpl. intros Hm. rewrite <- Z.div2_div.
  destruct m as [|[p|p|]|p]; try lia; reflexivity.
Qed.

Lemma iter_shr_1_m p : forall mrs, 0 <= shr_m mrs ->
  shr_m (SpecFloat.iter_pos shr_1 p mrs) = shr_m mrs / 2 ^ Zpos p.
Proof.
  induction p as [p IH|p IH|]; intros mrs Hm; simpl SpecFloat.iter_pos.
  - assert (H1 : 0 <= shr_m (shr_1 mrs)) by (rewrite shr_1_m by lia; apply Z.div_pos; lia).
    assert (H2 : 0 <= shr_m (SpecFloat.iter_pos shr_1 p (shr_1 mrs))) by (rewrite IH by lia; apply Z.div_pos; lia).
    rewrite IH, IH, shr_1_m by lia.
    rewrite !Z.div_div by lia. f_equal.
    rewrite Pos2Z.inj_xI. replace (2 * Z.pos p + 1) with (1 + Zpos p + Zpos p) by lia.
    rewrite !Z.pow_add_r by lia. rewrite Z.pow_1_r. ring.
  - assert (H2 : 0 <= shr_m (SpecFloat.iter_pos shr_1 p mrs)) by (rewrite IH by lia; apply Z.div_pos; lia).
    rewrite IH, IH by lia. rewrite Z.div_div by lia. f_equal.
    rewrite Pos2Z.inj_xO. rewrite <- Z.pow_add_r by lia. f_equal. lia.
  - rewrite shr_1_m by lia. reflexivity.
Qed.

Lemma shr_record_of_loc_m m l : shr_m (shr_record_of_loc m l) = m.
Proof. destruct l as [|[]]; reflexivity. Qed.

Lemma fexp64 x : fexp prec emax x = Z.max (x - 53) (-1074).
Proof. reflexivity. Qed.

Lemma shr_fexp_lower K m e l :
  -1074 < K -> 0 < m -> K <= Z.log2 m + 1 + e ->
  0 < shr_m (fst (shr_fexp prec emax m e l)) /\
  K <= Z.log2 (shr_m (fst (shr_fexp prec emax m e l))) + 1
       + snd (shr_fexp prec emax m e l).
Proof.
  intros HK Hm Hlow. unfold shr_fexp, shr.
  rewrite Zdigits2_log2, fexp64 by assumption.
  destruct (Z.max (Z.log2 m + 1 + e - 53) (-1074) - e) as [|p|p] eqn:En;
    cbn [fst snd]; rewrite ?shr_record_of_loc_m; try (split; assumption).
  rewrite iter_shr_1_m by (rewrite shr_record_of_loc_m; lia).
  rewrite shr_record_of_loc_m.
  assert (Hn : Zpos p <= Z.log2 m) by lia.
  rewrite <- Z.shiftr_div_pow2 by lia.
  rewrite Z.log2_shiftr by assumption.
  split; [|lia].
  rewrite Z.shiftr_div_pow2 by lia.
  apply Z.div_str_pos. split; [apply Z.pow_pos_nonneg; lia|].
  etransitivity; [|apply Z.log2_spec; assumption].
  apply Z.pow_le_mono_r; lia.
Qed.

Lemma round_nearest_even_ge m l : m <= round_nearest_even m l <= m + 1.
Proof. destruct l as [|[]]; simpl; try lia. destruct (Z.even m); lia. Qed.

Lemma round_aux_lower K s m e l :
  -1074 < K -> 0 < m -> K <= Z.log2 m + 1 + e ->
  sf_above K (binary_round_aux prec emax s m e l).
Proof.
  intros HK Hm Hlow. unfold binary_round_aux.
  pose proof (shr_fexp_lower K m e l HK Hm Hlow) as [H1 H2].
  destruct (shr_fexp prec emax m e l) as [mrs' e']. cbn [fst snd] in *.
  pose proof (round_nearest_even_ge (shr_m mrs') (loc_of_shr_record mrs')) as Hr.
  set (m2 := round_nearest_even _ _) in *.
  assert (Hm2 : 0 < m2) by lia.
  assert (Hl2 : K <= Z.log2 m2 + 1 + e').
  { pose proof (Z.log2_le_mono (shr_m mrs') m2). lia. }
  pose proof (shr_fexp_lower K m2 e' loc_Exact HK Hm2 Hl2) as [H3 H4].
  destruct (shr_fexp prec emax m2 e' loc_Exact) as [mrs'' e'']. cbn [fst snd] in *.
  destruct (shr_m mrs'') as [|q|q]; try lia.
  destruct (Z.leb _ _); simpl; [assumption|exact I].
Qed.

(** *** A product of two square roots is zero only if one of them is

    A square root that is not zero is at least [2 ^ -537], so the product
    of two is at least [2 ^ -1074], the least positive float: the division
    in [cosine_similarity] never has a zero divisor behind its guard. *)

Lemma valid_exponent s m e :
  valid_binary (S754_finite s m e) = true -> -1074 <= e.
Proof.
  unfold SpecFloat.valid_binary, bounded, canonical_mantissa. rewrite fexp64.
  intros [H _]%andb_prop. apply Z.eqb_eq in H. lia.
Qed.

Lemma sqrt_core_lower m e :
  -1074 <= e ->
  let '(q, e', _) := SFsqrt_core_binary prec emax (Zpos m) e in
  0 < q /\ -536 <= Z.log2 q + 1 + e'.
Proof.
  intros He. unfold SFsqrt_core_binary.
  set (e' := Z.min _ _).
  assert (He' : 2 * e' <= e).
  { assert (e' <= Z.div2 e) by (subst e'; apply Z.le_min_r).
    rewrite Z.div2_div in *. pose proof (Z.mul_div_le e 2). lia. }
  set (m' := match e - 2 * e' with Zpos _ => Z.shiftl (Zpos m) (e - 2 * e') | Z0 => Zpos m | Zneg _ => 0 end).
  assert (Hm' : m' = Zpos m * 2 ^ (e - 2 * e')).
  { subst m'. destruct (e - 2 * e') eqn:E; try lia.
    rewrite Z.shiftl_mul_pow2 by lia. reflexivity. }
  clearbody m'.
  pose proof (Z.sqrtrem_sqrt m') as Hs.
  destruct (Z.sqrtrem m') as [q r]. cbn [fst] in Hs. subst q.
  assert (Hpow : 0 < 2 ^ (e - 2 * e')) by (apply Z.pow_pos_nonneg; lia).
  assert (Hm1 : 2 ^ (e - 2 * e') <= m') by nia.
  assert (Hq : 0 < Z.sqrt m') by (apply Z.sqrt_pos; lia).
  split; [assumption|].
  destruct (Z_le_gt_dec (-537) e') as [Hc|Hc].
  - pose proof (Z.log2_nonneg (Z.sqrt m')). lia.
  - set (j := -537 - e').
    assert (Hj : 2 ^ j <= Z.sqrt m').
    { apply Z.sqrt_le_square; [lia|apply Z.pow_nonneg; lia|].
      rewrite <- Z.pow_add_r by lia.
      etransitivity; [|exact Hm1]. apply Z.pow_le_mono_r; lia. }
    assert (j <= Z.log2 (Z.sqrt m')).
    { apply Z.log2_le_pow2; [lia|assumption]. }
    lia.
Qed.



Lemma SFsqrt_root x : valid_binary x = true -> sf_root (SFsqrt prec emax x).
Proof.
  destruct x as [s|[]| |[] m e]; try exact (fun _ => I).
  intros He%valid_exponent. unfold SFsqrt.
  pose proof (sqrt_core_lower m e He) as H.
  destruct (SFsqrt_core_binary prec emax (Zpos m) e) as [[q e'] l].
  destruct H as [Hq Hlow].
  pose proof (round_aux_lower (-536) false q e' l ltac:(lia) Hq Hlow) as Hr.
  pose proof (round_aux_sign false q e' l) as Hs.
  destruct (binary_round_aux prec emax false q e' l) as [?|?| |? ? ?];
    simpl in *; subst; try exact I; try contradiction. assumption.
Qed.

Lemma SFmul_root_nonzero x y :
  sf_root x -> sf_root y -> sf_is_zero x = false -> sf_is_zero y = false ->
  sf_is_zero (SFmul prec emax x y) = false.
Proof.
  destruct x as [sx|[]| |[] mx ex], y as [sy|[]| |[] my ey];
    try discriminate; try contradiction; try reflexivity.
  intros Hx Hy _ _. unfold SFmul. cbn [xorb]. cbn [sf_root] in Hx, Hy.
  assert (Hr : sf_above (-1073)
            (binary_round_aux prec emax false (Zpos (mx * my)) (ex + ey) loc_Exact)).
  { apply round_aux_lower; try lia.
    pose proof (Z.log2_mul_below (Zpos mx) (Zpos my) ltac:(lia) ltac:(lia)).
    rewrite Pos2Z.inj_mul. lia. }
  destruct (binary_round_aux _ _ _ _ _ _); simpl in *; try reflexivity; contradiction.
Qed.

Local Open Scope float_scope.
Lemma sqrt_mul_nonzero s t :
  (sqrt s =? 0) = false -> (sqrt t =? 0) = false ->
  (sqrt s * sqrt t =? 0) = false.
Proof.
  rewrite !eqb_zero_sf, mul_spec, !sqrt_spec. intros Hs Ht.
  apply SFmul_root_nonzero; try assumption; apply SFsqrt_root, Prim2SF_valid.
Qed.

Local Open Scope Z_scope.


(** *** The order of the floats that are not NaN

    [sf_ord] reads the exponent and the mantissa of a float as one integer,
    as the bit pattern does; comparisons of floats are comparisons of
    these integers. *)

Lemma valid_bounds s m e :
  valid_binary (S754_finite s m e) = true ->
  -1074 <= e <= 971 /\ 0 < Zpos m < 2 ^ 53.
Proof.
  unfold SpecFloat.valid_binary, bounded, canonical_mantissa.
  change (fexp prec emax ?x) with (Z.max (x - 53) (-1074)).
  change (emax - prec) with 971.
  intros [H1 H2]%andb_prop. apply Z.eqb_eq in H1. apply Z.leb_le in H2.
  rewrite digits2_size in H1.
  split; [lia|]. split; [lia|].
  assert (Hs : Zpos (Pos.size m) <= 53) by lia.
  pose proof (Pos.size_gt m) as Hg.
  assert (Zpos m < 2 ^ Zpos (Pos.size m)).
  { rewrite <- Pos2Z.inj_pow. lia. }
  eapply Z.lt_le_trans; [eassumption|]. apply Z.pow_le_mono_r; lia.
Qed.

Lemma SFcompare_ord x y :
  valid_binary x = true -> valid_binary y = true ->
  sf_is_nan x = false -> sf_is_nan y = false ->
  SFcompare x y = Some (sf_ord x ?= sf_ord y).
Proof.
  assert (P : 2 ^ 53 = 9007199254740992) by reflexivity.
  destruct x as [sx|sx| |sx mx ex], y as [sy|sy| |sy my ey]; try discriminate;
    intros Hx Hy _ _;
    try (apply valid_bounds in Hx); try (apply valid_bounds in Hy);
    unfold SFcompare, sf_ord; f_equal; symmetry;
    try destruct sx; try destruct sy; cbn [cond_Zopp];
    rewrite ?P in *;
    try (apply Z.compare_eq_iff; lia); try (apply Z.compare_lt_iff; lia);
    try (apply Z.compare_gt_iff; lia).
  - destruct (Z.compare_spec ex ey) as [->|H|H].
    + change (Pos.compare_cont Eq mx my) with (Pos.compare mx my).
      destruct (Pos.compare_spec mx my) as [E|E|E]; simpl;
        [apply Z.compare_eq_iff|apply Z.compare_gt_iff|apply Z.compare_lt_iff]; lia.
    + apply Z.compare_gt_iff; nia.
    + apply Z.compare_lt_iff; nia.
  - destruct (Z.compare_spec ex ey) as [->|H|H].
    + change (Pos.compare_cont Eq mx my) with (Pos.compare mx my).
      destruct (Pos.compare_spec mx my) as [E|E|E]; simpl;
        [apply Z.compare_eq_iff|apply Z.compare_lt_iff|apply Z.compare_gt_iff]; lia.
    + apply Z.compare_lt_iff; nia.
    + apply Z.compare_gt_iff; nia.
Qed.

Lemma comparable_sf x : comparable x <-> sf_is_nan (Prim2SF x) = false.
Proof.
  unfold comparable. rewrite FloatAxioms.eqb_spec. unfold SFeqb.
  destruct (sf_is_nan (Prim2SF x)) eqn:E.
  - destruct (Prim2SF x); try discriminate. simpl. split; discriminate.
  - rewrite SFcompare_ord by (apply Prim2SF_valid || assumption).
    rewrite Z.compare_refl. split; reflexivity.
Qed.

Lemma compare_ord x y :
  comparable x -> comparable y ->
  SFcompare (Prim2SF x) (Prim2SF y) = Some (ord x ?= ord y).
Proof.
  intros Hx%comparable_sf Hy%comparable_sf.
  apply SFcompare_ord; (apply Prim2SF_valid || assumption).
Qed.

Lemma ltb_ord x y :
  comparable x -> comparable y -> (x <? y)%float = (ord x <? ord y).
Proof.
  intros Hx Hy. rewrite ltb_spec. unfold SFltb.
  rewrite compare_ord by assumption. reflexivity.
Qed.

Lemma leb_ord x y :
  comparable x -> comparable y -> (x <=? y)%float = (ord x <=? ord y).
Proof.
  intros Hx Hy. rewrite leb_spec. unfold SFleb.
  rewrite compare_ord by assumption. unfold Z.leb.
  destruct (ord x ?= ord y); reflexivity.
Qed.

Lemma eqb_ord x y :
  comparable x -> comparable y -> (x =? y)%float = (ord x =? ord y).
Proof.
  intros Hx Hy. rewrite FloatAxioms.eqb_spec. unfold SFeqb.
  rewrite compare_ord by assumption. rewrite Z.eqb_compare. reflexivity.
Qed.

Lemma leb_true_comparable x y :
  (x <=? y)%float = true -> comparable x /\ comparable y.
Proof.
  rewrite leb_spec, !comparable_sf. unfold SFleb, SFcompare.
  destruct (Prim2SF x), (Prim2SF y); try discriminate; split; reflexivity.
Qed.

Lemma ltb_true_comparable x y :
  (x <? y)%float = true -> comparable x /\ comparable y.
Proof.
  rewrite ltb_spec, !comparable_sf. unfold SFltb, SFcompare.
  destruct (Prim2SF x), (Prim2SF y); try discriminate; split; reflexivity.
Qed.

(** *** Signs, on floats *)

Lemma not_negative_of_leb x : (0 <=? x)%float = true -> not_negative x.
Proof.
  intros H. destruct (leb_true_comparable _ _ H) as [H0 Hx].
  unfold not_negative. rewrite leb_ord in H by assumption.
  rewrite ltb_ord by assumption. lia.
Qed.

Lemma not_negative_zero : not_negative 0%float.
Proof. reflexivity. Qed.

Lemma mul_not_negative x y :
  not_negative x -> not_negative y -> not_negative (x * y)%float.
Proof.
  rewrite !not_negative_sf, mul_spec. apply SFmul_nn.
Qed.

Lemma square_not_negative x : not_negative (x * x)%float.
Proof. rewrite not_negative_sf, mul_spec. apply SFmul_self_nn. Qed.

Lemma add_not_negative x y :
  not_negative x -> not_negative y -> not_negative (x + y)%float.
Proof. rewrite !not_negative_sf, add_spec. apply SFadd_nn. Qed.

Lemma sqrt_not_negative x : not_negative (PrimFloat.sqrt x).
Proof. rewrite not_negative_sf, sqrt_spec. apply SFsqrt_nn. Qed.

Lemma div_not_negative x y :
  not_negative x -> not_negative y -> (y =? 0)%float = false ->
  not_negative (x / y)%float.
Proof.
  rewrite !not_negative_sf, div_spec, eqb_zero_sf. apply SFdiv_nn.
Qed.

Lemma fold_add_not_negative xs : forall acc,
  not_negative acc -> Forall not_negative xs ->
  not_negative (fold_left PrimFloat.add xs acc).
Proof.
  induction xs as [|x xs IH]; intros acc Hacc Hxs; simpl; [assumption|].
  inversion Hxs; subst. apply IH; [|assumption].
  apply add_not_negative; assumption.
Qed.

Lemma fsum_not_negative xs :
  Forall not_negative xs -> not_negative (Py.fsum xs).
Proof. apply fold_add_not_negative, not_negative_zero. Qed.

Lemma fsum_squares_not_negative (v : list float) :
  not_negative (Py.fsum (map (fun x => x * x)%float v)).
Proof.
  apply fsum_not_negative, Forall_forall. intros y Hy.
  apply (list_elem_of_fmap (fun x => x * x)%float) in Hy as (x & -> & _).
  apply square_not_negative.
Qed.

(** *** A finite number divided by itself is 1 *)

Lemma SFdiv_self m e :
  SFdiv prec emax (S754_finite false m e) (S754_finite false m e)
  = Prim2SF 1.
Proof.
  unfold SFdiv, SFdiv_core_binary. cbn [xorb].
  replace (Zdigits2 (Zpos m) + e - (Zdigits2 (Zpos m) + e))%Z with 0%Z by lia.
  replace (e - e)%Z with 0%Z by lia.
  change (Z.min (fexp prec emax 0) 0) with (-53)%Z.
  change (0 - -53)%Z with 53%Z. cbv iota.
  assert (Hd : Z.div_eucl (Z.shiftl (Zpos m) 53) (Zpos m) = (2 ^ 53, 0)%Z).
  { rewrite Z.shiftl_mul_pow2 by lia.
    pose proof (Z.div_eucl_eq (Zpos m * 2 ^ 53) (Zpos m) ltac:(lia)) as Heq.
    pose proof (Z.mod_pos_bound (Zpos m * 2 ^ 53) (Zpos m) ltac:(lia)) as Hb.
    unfold Z.modulo in Hb.
    destruct (Z.div_eucl (Zpos m * 2 ^ 53) (Zpos m)) as [q r].
    generalize dependent (2 ^ 53)%Z. intros P Heq.
    assert (q = P) as -> by nia. f_equal. lia. }
  rewrite Hd.
  assert (Hl : new_location (Zpos m) 0 = loc_Exact).
  { unfold new_location, new_location_even, new_location_odd.
    destruct (Z.even (Zpos m)); reflexivity. }
  rewrite Hl. reflexivity.
Qed.

Lemma div_self (x : float) :
  (0 <? x)%float = true -> (x <? infinity)%float = true -> (x / x)%float = 1%float.
Proof.
  rewrite !ltb_spec. intros H0 Hinf. apply Prim2SF_inj. rewrite div_spec.
  change (Prim2SF 0) with (S754_zero false) in H0.
  change (Prim2SF infinity) with (S754_infinity false) in Hinf.
  destruct (Prim2SF x) as [?|[]| |[] m e]; try discriminate.
  apply SFdiv_self.
Qed.

Lemma sqrt_zero_square (d : float) :
  (PrimFloat.sqrt d =? 0)%float = true ->
  (PrimFloat.sqrt d * PrimFloat.sqrt d =? 0)%float = true.
Proof.
  rewrite !eqb_zero_sf, mul_spec.
  destruct (Prim2SF (PrimFloat.sqrt d)); try discriminate. reflexivity.
Qed.


(** *** Integers as floats, and their quotients *)

Lemma pos_iter_xO p n : Zpos (Pos.iter xO p n) = Zpos p * 2 ^ Zpos n.
Proof.
  apply (Pos.iter_ind _ xO p (fun n q => Zpos q = Zpos p * 2 ^ Zpos n)).
  - rewrite Z.pow_1_r. lia.
  - intros k q Hq. rewrite Pos2Z.inj_xO, Hq, Pos2Z.inj_succ, Z.pow_succ_r by lia.
    lia.
Qed.

Lemma round_aux_exact s m e :
  Z.max (Z.log2 (Zpos m) + 1 + e - 53) (-1074) = e -> e <= 971 ->
  binary_round_aux prec emax s (Zpos m) e loc_Exact = S754_finite s m e.
Proof.
  intros Hc He. unfold binary_round_aux, shr_fexp.
  rewrite Zdigits2_log2, fexp64, Hc, Z.sub_diag by lia.
  cbn [shr shr_record_of_loc shr_m loc_of_shr_record round_nearest_even].
  rewrite Zdigits2_log2, fexp64, Hc, Z.sub_diag by lia.
  cbn [shr shr_record_of_loc shr_m].
  change (emax - prec) with 971.
  destruct (Z.leb_spec e 971); [reflexivity|lia].
Qed.

(** The float of a positive integer below [2 ^ 53] is that integer, its
    mantissa shifted to 53 bits. *)
Lemma normalize_small p :
  Zpos p < 2 ^ 53 ->
  exists m,
    binary_normalize prec emax (Zpos p) 0 false
      = S754_finite false m (Z.log2 (Zpos p) - 52) /\
    Zpos m = Zpos p * 2 ^ (52 - Z.log2 (Zpos p)).
Proof.
  intros Hp.
  assert (Hl : 0 <= Z.log2 (Zpos p) <= 52).
  { split; [apply Z.log2_nonneg|].
    assert (Z.log2 (Zpos p) < 53); [|lia].
    apply Z.log2_lt_pow2; lia. }
  unfold binary_normalize, binary_round.
  change (Zpos (digits2_pos p)) with (Zdigits2 (Zpos p)).
  rewrite Zdigits2_log2, fexp64 by lia.
  replace (Z.max (Z.log2 (Z.pos p) + 1 + 0 - 53) (-1074))
    with (Z.log2 (Zpos p) - 52) by lia.
  unfold shl_align.
  destruct (Z.log2 (Zpos p) - 52 - 0) as [|q|q] eqn:E; try lia.
  - exists p. assert (H52 : Z.log2 (Zpos p) = 52) by lia.
    rewrite H52. split; [|simpl; lia].
    apply round_aux_exact; lia.
  - exists (Pos.iter xO p q).
    assert (Hm : Zpos (Pos.iter xO p q) = Zpos p * 2 ^ (52 - Z.log2 (Zpos p))).
    { rewrite pos_iter_xO. do 2 f_equal. lia. }
    split; [|exact Hm].
    apply round_aux_exact; [|lia].
    rewrite Hm, Z.log2_mul_pow2 by lia. lia.
Qed.

Lemma float_of_nat_sf (a : nat) :
  (0 < a)%nat -> Z.of_nat a < 2 ^ 53 ->
  exists m,
    Prim2SF (Py.float_of_nat a)
      = S754_finite false m (Z.log2 (Z.of_nat a) - 52) /\
    Zpos m = Z.of_nat a * 2 ^ (52 - Z.log2 (Z.of_nat a)).
Proof.
  intros Ha Hb. unfold Py.float_of_nat. rewrite of_uint63_spec.
  rewrite Uint63.of_Z_spec, Z.mod_small.
  - destruct (Z.of_nat a) as [|p|p] eqn:E; try lia. by apply normalize_small.
  - split; [lia|]. eapply Z.lt_trans; [exact Hb|]. reflexivity.
Qed.

Lemma SFdiv_above_one mx ex my ey :
  ey <= ex -> Zpos my <= Zpos mx * 2 ^ (ex - ey) ->
  sf_above 1 (SFdiv prec emax (S754_finite false mx ex)
                (S754_finite false my ey)).
Proof.
  intros He Hv. unfold SFdiv, SFdiv_core_binary. cbn [xorb].
  rewrite !Zdigits2_log2, fexp64 by lia.
  set (e' := Z.min _ (ex - ey)).
  assert (He' : e' <= ex - ey) by apply Z.le_min_r.
  set (m' := match ex - ey - e' with
             | 0 => Zpos mx | Zpos _ => Z.shiftl (Zpos mx) (ex - ey - e')
             | Zneg _ => 0 end).
  assert (Hm' : m' = Zpos mx * 2 ^ (ex - ey - e')).
  { subst m'. destruct (ex - ey - e') eqn:E; try lia.
    rewrite Z.shiftl_mul_pow2 by lia. reflexivity. }
  clearbody m'.
  pose proof (Z.log2_spec (Zpos mx) ltac:(lia)) as Hlx.
  pose proof (Z.log2_spec (Zpos my) ltac:(lia)) as Hly.
  pose proof (Z.log2_nonneg (Zpos mx)) as Hnx.
  pose proof (Z.log2_nonneg (Zpos my)) as Hny.
  assert (Hq : 0 < m' / Zpos my /\ 1 <= Z.log2 (m' / Zpos my) + 1 + e').
  { destruct (Z_le_gt_dec e' 0) as [Hc|Hc].
    - assert (Hlow : 2 ^ (- e') <= m' / Zpos my).
      { apply Z.div_le_lower_bound; [lia|].
        rewrite Hm'. replace (ex - ey - e') with ((ex - ey) + - e') by lia.
        rewrite Z.pow_add_r by lia.
        assert (0 < 2 ^ (- e')) by (apply Z.pow_pos_nonneg; lia). nia. }
      assert (H2 : 0 < 2 ^ (- e')) by (apply Z.pow_pos_nonneg; lia).
      split; [lia|].
      assert (- e' <= Z.log2 (m' / Zpos my)) by (apply Z.log2_le_pow2; lia).
      lia.
    - assert (Hs : Z.log2 (Zpos my) - Z.log2 (Zpos mx) + 53 <= ex - ey - e').
      { subst e'. lia. }
      assert (Hlow : 1 <= m' / Zpos my).
      { apply Z.div_le_lower_bound; [lia|]. rewrite Hm'.
        assert (Hp : 2 ^ (Z.log2 (Zpos my) + 53)
                     <= 2 ^ Z.log2 (Zpos mx) * 2 ^ (ex - ey - e')).
        { rewrite <- Z.pow_add_r by lia. apply Z.pow_le_mono_r; lia. }
        assert (Hq : 2 ^ Z.succ (Z.log2 (Zpos my)) <= 2 ^ (Z.log2 (Zpos my) + 53))
          by (apply Z.pow_le_mono_r; lia).
        assert (0 < 2 ^ (ex - ey - e')) by (apply Z.pow_pos_nonneg; lia).
        nia. }
      split; [lia|].
      pose proof (Z.log2_nonneg (m' / Zpos my)). lia. }
  pose proof (Z.div_eucl_eq m' (Zpos my) ltac:(lia)) as Heq.
  unfold Z.div in Hq.
  destruct (Z.div_eucl m' (Zpos my)) as [q r]. cbn [fst] in Hq.
  destruct Hq as [Hq1 Hq2].
  apply round_aux_lower; lia.
Qed.

Lemma valid_canonical s m e :
  valid_binary (S754_finite s m e) = true ->
  Z.max (Z.log2 (Zpos m) + 1 + e - 53) (-1074) = e.
Proof.
  unfold SpecFloat.valid_binary, bounded, canonical_mantissa.
  change (Zpos (digits2_pos m)) with (Zdigits2 (Zpos m)).
  rewrite Zdigits2_log2, fexp64 by lia.
  intros [H _]%andb_prop. by apply Z.eqb_eq in H.
Qed.

Lemma above_one_leb (r : float) :
  sf_above 1 (Prim2SF r) -> sf_not_negative (Prim2SF r) = true ->
  (1 <=? r)%float = true.
Proof.
  intros Ha Hn.
  assert (Hc : comparable r).
  { apply comparable_sf. destruct (Prim2SF r); try done. }
  rewrite leb_ord by (done || reflexivity).
  apply Z.leb_le. unfold ord.
  pose proof (Prim2SF_valid r) as Hv.
  change (sf_ord (Prim2SF 1)) with (1023 * 2 ^ 53 + 2 ^ 52).
  destruct (Prim2SF r) as [?|[]| |[] m e]; try done.
  pose proof (valid_canonical _ _ _ Hv) as Hcan.
  apply valid_bounds in Hv. cbn [sf_above] in Ha. cbn [sf_ord cond_Zopp].
  assert (Hl : Z.log2 (Zpos m) < 53) by (apply Z.log2_lt_pow2; lia).
  assert (Hl52 : Z.log2 (Zpos m) = 52) by lia.
  pose proof (Z.log2_spec (Zpos m) ltac:(lia)) as Hs. rewrite Hl52 in Hs.
  assert (P : 2 ^ 53 = 2 * 2 ^ 52) by reflexivity.
  assert (0 < 2 ^ 52) by reflexivity. nia.
Qed.

Lemma float_of_nat_quotient (N d : nat) :
  (d <= N)%nat -> Z.of_nat N + 1 < 2 ^ 53 ->
  (1 <=? Py.float_of_nat (N + 1) / Py.float_of_nat (d + 1))%float = true.
Proof.
  intros Hd HN.
  destruct (float_of_nat_sf (N + 1)) as (mx & Hx & Hmx); [lia|lia|].
  destruct (float_of_nat_sf (d + 1)) as (my & Hy & Hmy); [lia|lia|].
  assert (Hlog : Z.log2 (Z.of_nat (d + 1)) <= Z.log2 (Z.of_nat (N + 1)))
    by (apply Z.log2_le_mono; lia).
  pose proof (Z.log2_nonneg (Z.of_nat (d + 1))) as H0.
  assert (Hl : Z.log2 (Z.of_nat (N + 1)) < 53)
    by (apply Z.log2_lt_pow2; lia).
  apply above_one_leb; rewrite div_spec, Hx, Hy.
  - apply SFdiv_above_one; [lia|]. rewrite Hmx, Hmy.
    rewrite <- Z.mul_assoc, <- Z.pow_add_r by lia.
    replace (52 - Z.log2 (Z.of_nat (N + 1))
             + (Z.log2 (Z.of_nat (N + 1)) - 52
                - (Z.log2 (Z.of_nat (d + 1)) - 52)))
      with (52 - Z.log2 (Z.of_nat (d + 1))) by lia.
    apply Z.mul_le_mono_nonneg_r; [apply Z.pow_nonneg|]; lia.
  - apply SFdiv_nn; done.
Qed.

(** *** Adding 1 to a number that is not negative *)

Lemma shl_align_exponent m e e' : Z.min e e' <= snd (shl_align m e e').
Proof. unfold shl_align. destruct (e' - e) eqn:E; simpl; lia. Qed.

Lemma SFadd_one_positive m e :
  -1074 <= e ->
  match SFadd prec emax (S754_finite false m e) (Prim2SF 1) with
  | S754_finite false _ _ | S754_infinity false => True
  | _ => False
  end.
Proof.
  intros He. change (Prim2SF 1) with (S754_finite false 4503599627370496 (-52)).
  unfold SFadd. cbn [cond_Zopp]. set (ez := Z.min e (-52)).
  set (a := fst (shl_align m e ez)).
  set (b := fst (shl_align 4503599627370496 (-52) ez)).
  change (Zpos a + Zpos b) with (Zpos (a + b)).
  unfold binary_normalize, binary_round.
  pose proof (shl_align_exponent (a + b) ez
                (fexp prec emax (Zpos (digits2_pos (a + b)) + ez))) as Hz.
  rewrite fexp64 in Hz.
  destruct (shl_align (a + b) ez _) as [mz ez']. cbn [snd] in Hz.
  pose proof (round_aux_lower (-1073) false (Zpos mz) ez' loc_Exact
                ltac:(lia) ltac:(lia)) as Hr.
  pose proof (round_aux_sign false (Zpos mz) ez' loc_Exact) as Hs.
  pose proof (Z.log2_nonneg (Zpos mz)).
  destruct (binary_round_aux prec emax false (Zpos mz) ez' loc_Exact)
    as [?|[]| |[] ? ?]; simpl in Hs; try discriminate; try exact I;
    apply Hr; subst ez; lia.
Qed.

Lemma add_one_positive (z : float) :
  (0 <=? z)%float = true -> (0 <? z + 1)%float = true.
Proof.
  rewrite leb_spec, ltb_spec, add_spec. unfold SF64add.
  change (Prim2SF 0) with (S754_zero false).
  pose proof (Prim2SF_valid z) as Hv.
  destruct (Prim2SF z) as [s|[]| |[] m e]; try discriminate; intros _.
  - reflexivity.
  - reflexivity.
  - apply valid_exponent in Hv.
    pose proof (SFadd_one_positive m e Hv) as H.
    destruct (SFadd prec emax (S754_finite false m e) (Prim2SF 1))
      as [?|[]| |[] ? ?]; try contradiction; reflexivity.
Qed.

End Binary64Facts.

(** ** Rounding errors

    What an operation returns is the exact result rounded; in the normal
    range the rounded number is within one unit in its last place of the
    exact one, which is at most [2 ^ -52] of it.  The exact results are
    real numbers, [scaled m e] for a float. *)

Section RoundingError.
Import B64.
Local Open Scope Z_scope.

Lemma shr_fexp_spec m e l :
  0 < m ->
  let k := Z.max 0 (Z.max (Z.log2 m + 1 + e - 53) (-1074) - e) in
  snd (shr_fexp prec emax m e l) = e + k /\
  shr_m (fst (shr_fexp prec emax m e l)) = m / 2 ^ k.
Proof.
  intros Hm k. unfold shr_fexp, shr.
  rewrite Zdigits2_log2, fexp64 by assumption. subst k.
  destruct (Z.max (Z.log2 m + 1 + e - 53) (-1074) - e) as [|p|p] eqn:En;
    cbn [fst snd]; rewrite ?shr_record_of_loc_m.
  - rewrite Z.max_l by lia. rewrite Z.div_1_r. lia.
  - rewrite iter_shr_1_m by (rewrite shr_record_of_loc_m; lia).
    rewrite shr_record_of_loc_m, Z.max_r by lia. split; reflexivity.
  - rewrite Z.max_l by lia. rewrite Z.div_1_r. lia.
Qed.

(** Rounding [m * 2 ^ e], or a number between it and [(m + 1) * 2 ^ e],
    when the result is a normal number: the result is within one unit in
    its last place. *)
Lemma round_aux_near m e l :
  0 < m -> -1074 <= Z.log2 m + e - 52 ->
  Z.max e (Z.log2 m + e - 52) + 1 <= 971 ->
  exists m' e',
    binary_round_aux prec emax false m e l = S754_finite false m' e' /\
    Z.max e (Z.log2 m + e - 52) <= e' <= Z.max e (Z.log2 m + e - 52) + 1 /\
    Zpos m' * 2 ^ (e' - e) <= m + 2 ^ (e' - e) /\
    m + 1 <= (Zpos m' + 1) * 2 ^ (e' - e).
Proof.
  intros Hm Hlow Hup. unfold binary_round_aux.
  pose proof (shr_fexp_spec m e l Hm) as [He1 Hm1].
  pose proof (shr_fexp_lower (-1073) m e l ltac:(lia) Hm ltac:(lia)) as [Hp1 _].
  destruct (shr_fexp prec emax m e l) as [mrs1 e1]. cbn [fst snd] in *.
  set (k := Z.max 0 (Z.max (Z.log2 m + 1 + e - 53) (-1074) - e)) in *.
  assert (Hk : 0 <= k) by (subst k; lia).
  assert (Hk' : e + k = Z.max e (Z.log2 m + e - 52)) by (subst k; lia).
  assert (H2k : 0 < 2 ^ k) by (apply Z.pow_pos_nonneg; lia).
  pose proof (Z.log2_spec m Hm) as Hlm.
  pose proof (Z.log2_nonneg m) as Hl0.
  set (m1 := shr_m mrs1) in *.
  assert (Hm1a : m1 * 2 ^ k <= m < (m1 + 1) * 2 ^ k).
  { rewrite Hm1. pose proof (Z.div_mod m (2 ^ k) ltac:(lia)).
    pose proof (Z.mod_pos_bound m (2 ^ k) H2k). nia. }
  assert (Hm1b : m1 < 2 ^ 53).
  { destruct (Z_le_gt_dec (Z.log2 m) 52) as [Hc|Hc].
    - assert (m < 2 ^ 53).
      { eapply Z.lt_le_trans; [apply Hlm|]. apply Z.pow_le_mono_r; lia. }
      nia.
    - assert (Hkk : Z.log2 m - 52 <= k) by (subst k; lia).
      assert (Hpw : 2 ^ Z.succ (Z.log2 m) <= 2 ^ 53 * 2 ^ k).
      { rewrite <- Z.pow_add_r by lia. apply Z.pow_le_mono_r; lia. }
      nia. }
  pose proof (round_nearest_even_ge m1 (loc_of_shr_record mrs1)) as Hr.
  set (m2 := round_nearest_even _ _) in *.
  assert (Hm2 : 0 < m2) by lia.
  pose proof (shr_fexp_spec m2 e1 loc_Exact Hm2) as [He3 Hm3].
  pose proof (shr_fexp_lower (-1073) m2 e1 loc_Exact ltac:(lia) Hm2) as Hp3.
  destruct (shr_fexp prec emax m2 e1 loc_Exact) as [mrs3 e3].
  cbn [fst snd] in *.
  set (k2 := Z.max 0 (Z.max (Z.log2 m2 + 1 + e1 - 53) (-1074) - e1)) in *.
  assert (Hl2 : Z.log2 m2 <= 53).
  { assert (Z.log2 m2 < 54); [|lia]. apply Z.log2_lt_pow2; [lia|].
    change (2 ^ 54) with (2 * 2 ^ 53). lia. }
  assert (Hk2 : 0 <= k2 <= 1) by (subst k2; lia).
  assert (H2k2 : 0 < 2 ^ k2) by (apply Z.pow_pos_nonneg; lia).
  set (m3 := shr_m mrs3) in *.
  assert (Hm3a : m3 * 2 ^ k2 <= m2 < (m3 + 1) * 2 ^ k2).
  { rewrite Hm3. pose proof (Z.div_mod m2 (2 ^ k2) ltac:(lia)).
    pose proof (Z.mod_pos_bound m2 (2 ^ k2) H2k2). nia. }
  assert (Hlog1 : -1073 <= Z.log2 m2 + 1 + e1).
  { assert (Z.log2 m1 <= Z.log2 m2) by (apply Z.log2_le_mono; lia).
    assert (Hq : Z.log2 m - k <= Z.log2 m1).
    { destruct (Z_le_gt_dec k (Z.log2 m)) as [Hc|Hc].
      - rewrite Hm1, <- Z.shiftr_div_pow2 by lia.
        rewrite Z.log2_shiftr by assumption. lia.
      - pose proof (Z.log2_nonneg m1). lia. }
    lia. }
  destruct (Hp3 Hlog1) as [Hp3' _]. fold m3 in Hp3'.
  destruct m3 as [|m'|m'] eqn:Em3; try lia.
  assert (He3' : e3 <= 971) by lia.
  apply Z.leb_le in He3'. change (emax - prec) with 971. rewrite He3'.
  exists m', e3. split; [reflexivity|].
  assert (Hee : e3 - e = k + k2) by lia.
  rewrite Hee, Z.pow_add_r by lia.
  split; [lia|]. split; nia.
Qed.

End RoundingError.

(** *** The value of a float as a real number *)

Section RealValues.
Import B64.
Local Open Scope Z_scope.

Lemma pow2_pos (e : Z) : (0 < powerRZ 2 e)%R.
Proof. apply powerRZ_lt. lra. Qed.

Lemma pow2_add (a b : Z) : (powerRZ 2 (a + b) = powerRZ 2 a * powerRZ 2 b)%R.
Proof. apply powerRZ_add. lra. Qed.

Lemma IZR_pow2 (k : Z) : 0 <= k -> IZR (2 ^ k) = powerRZ 2 k.
Proof.
  intros Hk. rewrite <- (Z2Nat.id k Hk) at 1.
  rewrite <- pow_IZR, pow_powerRZ. by rewrite Z2Nat.id.
Qed.

Lemma scaled_shift (a e k : Z) :
  0 <= k -> scaled (a * 2 ^ k) e = scaled a (e + k).
Proof.
  intros Hk. unfold scaled. rewrite mult_IZR, IZR_pow2, pow2_add by done.
  ring.
Qed.

Lemma scaled_le (a b e : Z) : a <= b -> (scaled a e <= scaled b e)%R.
Proof.
  intros H. unfold scaled. apply Rmult_le_compat_r.
  - apply Rlt_le, pow2_pos.
  - by apply IZR_le.
Qed.

Lemma scaled_add (a b e : Z) :
  (scaled (a + b) e = scaled a e + scaled b e)%R.
Proof. unfold scaled. rewrite plus_IZR. ring. Qed.

Lemma scaled_one (e : Z) : scaled 1 e = powerRZ 2 e.
Proof. unfold scaled. ring. Qed.

Lemma scaled_mul (a b e1 e2 : Z) :
  (scaled (a * b) (e1 + e2) = scaled a e1 * scaled b e2)%R.
Proof. unfold scaled. rewrite mult_IZR, pow2_add. ring. Qed.

Lemma scaled_pos (a e : Z) : 0 < a -> (0 < scaled a e)%R.
Proof.
  intros H. unfold scaled. apply Rmult_lt_0_compat; [|apply pow2_pos].
  by apply IZR_lt.
Qed.

Lemma pow2_le (a b : Z) : a <= b -> (powerRZ 2 a <= powerRZ 2 b)%R.
Proof.
  intros H. replace b with (a + (b - a)) by lia. rewrite pow2_add.
  rewrite <- (Rmult_1_r (powerRZ 2 a)) at 1.
  apply Rmult_le_compat_l; [apply Rlt_le, pow2_pos|].
  rewrite <- IZR_pow2 by lia. apply IZR_le.
  assert (0 < 2 ^ (b - a)) by (apply Z.pow_pos_nonneg; lia). lia.
Qed.

(** The unit in the last place of a normal number is at most [2 ^ -52]
    of it. *)
Lemma ulp_le (m e : Z) :
  2 ^ 52 <= m -> (powerRZ 2 e <= scaled m e * powerRZ 2 (-52))%R.
Proof.
  intros Hm. unfold scaled.
  assert (H1 : (1 <= IZR m * powerRZ 2 (-52))%R).
  { replace 1%R with (powerRZ 2 52 * powerRZ 2 (-52))%R
      by (rewrite <- pow2_add; reflexivity).
    apply Rmult_le_compat_r; [apply Rlt_le, pow2_pos|].
    rewrite <- IZR_pow2 by lia. by apply IZR_le. }
  pose proof (pow2_pos e). nra.
Qed.

Lemma round_aux_real m e l :
  0 < m -> -1074 <= Z.log2 m + e - 52 ->
  Z.max e (Z.log2 m + e - 52) + 1 <= 971 ->
  exists m' e',
    binary_round_aux prec emax false m e l = S754_finite false m' e' /\
    Z.max e (Z.log2 m + e - 52) <= e' <= Z.max e (Z.log2 m + e - 52) + 1 /\
    (scaled (Zpos m') e' <= scaled m e + powerRZ 2 e')%R /\
    (scaled (m + 1) e <= scaled (Zpos m') e' + powerRZ 2 e')%R.
Proof.
  intros Hm Hlow Hup.
  destruct (round_aux_near m e l Hm Hlow Hup) as (m' & e' & Hr & He & H1 & H2).
  exists m', e'. split; [done|]. split; [done|].
  assert (Hk : 0 <= e' - e) by lia.
  assert (Hu : scaled (2 ^ (e' - e)) e = powerRZ 2 e').
  { rewrite <- (Z.mul_1_l (2 ^ _)), scaled_shift, scaled_one by done.
    f_equal. lia. }
  assert (Hs : ∀ a, scaled (a * 2 ^ (e' - e)) e = scaled a e').
  { intros a. rewrite scaled_shift by done. f_equal. lia. }
  apply (scaled_le _ _ e) in H1, H2.
  rewrite scaled_add, Hs, Hu in H1. rewrite Hs in H2.
  rewrite !scaled_add, !scaled_one in *. lra.
Qed.

(** *** The three operations *)

Lemma log2_of_bounds (m k : Z) : 2 ^ k <= m < 2 ^ (k + 1) -> 0 <= k ->
  Z.log2 m = k.
Proof.
  intros [H1 H2] Hk. apply Z.log2_unique; [done|].
  by rewrite <- Z.add_1_r.
Qed.

Lemma SFmul_real mx ex my ey :
  2 ^ 52 <= Zpos mx < 2 ^ 53 -> 2 ^ 52 <= Zpos my < 2 ^ 53 ->
  -1126 <= ex + ey <= 917 ->
  exists mz ez,
    SFmul prec emax (S754_finite false mx ex) (S754_finite false my ey)
      = S754_finite false mz ez /\
    ex + ey + 52 <= ez /\
    (scaled (Zpos mx) ex * scaled (Zpos my) ey - powerRZ 2 ez
     <= scaled (Zpos mz) ez
     <= scaled (Zpos mx) ex * scaled (Zpos my) ey + powerRZ 2 ez)%R.
Proof.
  intros Hx Hy He. unfold SFmul. cbn [xorb].
  change (Zpos (mx * my)) with (Zpos mx * Zpos my).
  set (m := Zpos mx * Zpos my).
  assert (Hm : 2 ^ 104 <= m < 2 ^ 106).
  { change (2 ^ 104) with (2 ^ 52 * 2 ^ 52).
    change (2 ^ 106) with (2 ^ 53 * 2 ^ 53). subst m. nia. }
  assert (Hl : 104 <= Z.log2 m <= 105).
  { split; [apply Z.log2_le_pow2; lia|].
    assert (Z.log2 m < 106); [|lia]. apply Z.log2_lt_pow2; lia. }
  destruct (round_aux_real m (ex + ey) loc_Exact ltac:(lia) ltac:(lia)
              ltac:(lia)) as (mz & ez & -> & Hez & H1 & H2).
  exists mz, ez. split; [done|]. split; [lia|].
  rewrite <- scaled_mul. fold m.
  rewrite scaled_add, scaled_one in H2.
  pose proof (pow2_pos (ex + ey)). lra.
Qed.

Lemma SFsqrt_real md ed :
  2 ^ 52 <= Zpos md < 2 ^ 53 -> -1074 <= ed <= 971 ->
  exists mn en,
    SFsqrt prec emax (S754_finite false md ed) = S754_finite false mn en /\
    Z.div2 ed - 26 <= en <= Z.div2 ed - 25 /\
    (0 <= scaled (Zpos mn) en - powerRZ 2 en)%R /\
    ((scaled (Zpos mn) en - powerRZ 2 en)
       * (scaled (Zpos mn) en - powerRZ 2 en)
     <= scaled (Zpos md) ed
     <= (scaled (Zpos mn) en + powerRZ 2 en)
         * (scaled (Zpos mn) en + powerRZ 2 en))%R.
Proof.
  intros Hd He. unfold SFsqrt, SFsqrt_core_binary.
  rewrite Zdigits2_log2, fexp64 by lia.
  rewrite (log2_of_bounds (Zpos md) 52) by (done || lia).
  pose proof (Z.div2_odd ed) as Hodd.
  assert (Hb : 0 <= Z.b2z (Z.odd ed) <= 1) by (destruct (Z.odd ed); simpl; lia).
  assert (Hd2 : Z.div2 (52 + 1 + ed + 1) = Z.div2 ed + 27).
  { rewrite !Z.div2_div. replace (52 + 1 + ed + 1) with (ed + 27 * 2) by lia.
    by rewrite Z.div_add. }
  rewrite Hd2.
  set (e' := Z.min _ _).
  assert (He' : e' = Z.div2 ed - 26) by (subst e'; lia).
  clearbody e'. subst e'.
  set (e' := Z.div2 ed - 26) in *.
  set (s := ed - 2 * e').
  assert (Hs : 52 <= s <= 53) by (subst s e'; lia).
  set (m' := match s with Zpos _ => Z.shiftl (Zpos md) s | Z0 => Zpos md
             | Zneg _ => 0 end).
  assert (Hm' : m' = Zpos md * 2 ^ s).
  { subst m'. destruct s eqn:E; try lia.
    rewrite Z.shiftl_mul_pow2 by lia. reflexivity. }
  clearbody m'.
  assert (Hm'' : 2 ^ 104 <= m' < 2 ^ 106).
  { rewrite Hm'. assert (2 ^ 52 <= 2 ^ s <= 2 ^ 53)
      by (split; apply Z.pow_le_mono_r; lia).
    change (2 ^ 104) with (2 ^ 52 * 2 ^ 52).
    change (2 ^ 106) with (2 ^ 53 * 2 ^ 53). nia. }
  pose proof (Z.sqrtrem_sqrt m') as Hsq.
  pose proof (Z.sqrt_spec m' ltac:(lia)) as Hspec.
  destruct (Z.sqrtrem m') as [q r]. cbn [fst] in Hsq. subst q.
  set (q := Z.sqrt m') in *.
  assert (Hs1 : q * q <= m') by apply Hspec.
  assert (Hs2 : m' < (q + 1) * (q + 1)) by apply Hspec.
  assert (Hq0 : 0 <= q) by apply Z.sqrt_nonneg.
  clearbody q. clear Hspec.
  assert (Hq : 2 ^ 52 <= q < 2 ^ 53).
  { change (2 ^ 104) with (2 ^ 52 * 2 ^ 52) in Hm''.
    change (2 ^ 106) with (2 ^ 53 * 2 ^ 53) in Hm''. nia. }
  pose proof (log2_of_bounds q 52 Hq ltac:(lia)) as Hlq.
  set (l := if r =? 0 then loc_Exact else _).
  destruct (round_aux_real q e' l ltac:(lia) ltac:(lia) ltac:(lia))
    as (mn & en & -> & Hen & H1 & H2).
  exists mn, en. split; [done|]. split; [lia|].
  rewrite scaled_add, scaled_one in H2.
  assert (HD : scaled (Zpos md) ed = scaled m' (e' + e')).
  { rewrite Hm', scaled_shift by lia. f_equal. subst s. lia. }
  assert (HF1 : (scaled q e' * scaled q e' <= scaled (Zpos md) ed)%R).
  { rewrite HD, <- scaled_mul. apply scaled_le. lia. }
  assert (HF2 : (scaled (Zpos md) ed
                 <= (scaled q e' + powerRZ 2 e')
                    * (scaled q e' + powerRZ 2 e'))%R).
  { rewrite HD, <- scaled_one, <- scaled_add, <- scaled_mul.
    apply scaled_le. lia. }
  pose proof (pow2_pos e'). pose proof (pow2_pos en).
  pose proof (scaled_pos q e' ltac:(lia)).
  assert (Hn1 : (powerRZ 2 en <= scaled (Zpos mn) en)%R).
  { rewrite <- scaled_one. apply scaled_le. lia. }
  split; [lra|]. split; nra.
Qed.

Lemma SFdiv_real md ed mp ep :
  2 ^ 52 <= Zpos md < 2 ^ 53 -> 2 ^ 52 <= Zpos mp < 2 ^ 53 ->
  -1 <= ed - ep <= 1 ->
  exists mr er,
    SFdiv prec emax (S754_finite false md ed) (S754_finite false mp ep)
      = S754_finite false mr er /\
    -54 <= er /\
    ((scaled (Zpos mr) er - powerRZ 2 er) * scaled (Zpos mp) ep
     <= scaled (Zpos md) ed
     <= (scaled (Zpos mr) er + powerRZ 2 er) * scaled (Zpos mp) ep)%R.
Proof.
  intros Hd Hp He. unfold SFdiv, SFdiv_core_binary. cbn [xorb].
  rewrite !Zdigits2_log2, fexp64 by lia.
  rewrite (log2_of_bounds (Zpos md) 52), (log2_of_bounds (Zpos mp) 52)
    by (done || lia).
  set (e' := Z.min _ _).
  assert (He' : e' = ed - ep - 53) by (subst e'; lia).
  clearbody e'. subst e'.
  replace (ed - ep - (ed - ep - 53)) with 53 by lia.
  cbv iota. rewrite Z.shiftl_mul_pow2 by lia.
  set (m' := Zpos md * 2 ^ 53).
  pose proof (Z.div_eucl_eq m' (Zpos mp) ltac:(lia)) as Heq.
  pose proof (Z.mod_pos_bound m' (Zpos mp) ltac:(lia)) as Hmod.
  unfold Z.modulo in Hmod.
  destruct (Z.div_eucl m' (Zpos mp)) as [q r].
  assert (Hq : 2 ^ 52 <= q < 2 ^ 54).
  { change (2 ^ 54) with (2 * 2 ^ 53). subst m'.
    assert (0 < 2 ^ 53) by reflexivity.
    change (2 ^ 53) with (2 * 2 ^ 52) in *. nia. }
  assert (Hlq : 52 <= Z.log2 q <= 53).
  { split; [apply Z.log2_le_pow2; lia|].
    assert (Z.log2 q < 54); [|lia]. apply Z.log2_lt_pow2; lia. }
  set (l := new_location _ _).
  destruct (round_aux_real q (ed - ep - 53) l ltac:(lia) ltac:(lia)
              ltac:(lia)) as (mr & er & -> & Her & H1 & H2).
  exists mr, er. split; [done|]. split; [lia|].
  rewrite scaled_add, scaled_one in H2.
  set (e' := ed - ep - 53) in *.
  assert (HD : scaled (Zpos md) ed = scaled m' (e' + ep)).
  { subst m'. rewrite scaled_shift by lia. f_equal. subst e'. lia. }
  assert (HF1 : (scaled q e' * scaled (Zpos mp) ep <= scaled (Zpos md) ed)%R).
  { rewrite HD, <- scaled_mul. apply scaled_le. lia. }
  assert (HF2 : (scaled (Zpos md) ed
                 <= (scaled q e' + powerRZ 2 e') * scaled (Zpos mp) ep)%R).
  { rewrite HD, <- scaled_one, <- scaled_add, <- scaled_mul.
    apply scaled_le. lia. }
  pose proof (scaled_pos (Zpos mp) ep ltac:(lia)).
  split; nra.
Qed.

End RealValues.

(** *** A number divided by the square of its square root *)

Section SelfSimilarity.
Import B64.
Local Open Scope Z_scope.

Lemma normal_mantissa s m e :
  valid_binary (S754_finite s m e) = true -> -1074 < e ->
  2 ^ 52 <= Zpos m < 2 ^ 53.
Proof.
  intros Hv He. pose proof (valid_canonical _ _ _ Hv) as Hc.
  apply valid_bounds in Hv as [_ [_ Hm]].
  assert (Hl : Z.log2 (Zpos m) = 52) by lia.
  pose proof (Z.log2_spec (Zpos m) ltac:(lia)) as Hs. rewrite Hl in Hs.
  split; [apply Hs|done].
Qed.

(** A float between [2 ^ -1000] and [2 ^ 1000] is a normal number. *)
Lemma in_range_sf (d : float) :
  (0x1p-1000 <=? d)%float = true -> (d <=? 0x1p+1000)%float = true ->
  exists md ed,
    Prim2SF d = S754_finite false md ed /\
    2 ^ 52 <= Zpos md < 2 ^ 53 /\ -1052 <= ed <= 948.
Proof.
  intros H1 H2.
  destruct (leb_true_comparable _ _ H1) as [Hc1 Hcd].
  destruct (leb_true_comparable _ _ H2) as [_ Hc2].
  rewrite leb_ord in H1, H2 by done.
  apply Z.leb_le in H1, H2. unfold ord in H1, H2.
  change (sf_ord (Prim2SF 0x1p-1000)) with (23 * 2 ^ 53 + 2 ^ 52) in H1.
  change (sf_ord (Prim2SF 0x1p+1000)) with (2023 * 2 ^ 53 + 2 ^ 52) in H2.
  pose proof (Prim2SF_valid d) as Hv.
  assert (P53 : 2 ^ 53 = 2 * 2 ^ 52) by reflexivity.
  assert (P52 : 0 < 2 ^ 52) by reflexivity.
  destruct (Prim2SF d) as [s|s| |s m e] eqn:E; cbn [sf_ord] in H1, H2.
  - lia.
  - destruct s; cbn [cond_Zopp] in *; lia.
  - lia.
  - pose proof (valid_bounds _ _ _ Hv) as [He Hm].
    destruct s; cbn [cond_Zopp] in *; [nia|].
    assert (Her : -1052 <= e <= 948) by nia.
    exists m, e. split; [done|]. split; [|done].
    eapply normal_mantissa; [exact Hv|lia].
Qed.

(** Two normal numbers of which one is at most twice the other have
    exponents that differ by at most one. *)
Lemma exponent_close m1 e1 m2 e2 :
  2 ^ 52 <= m1 -> m2 < 2 ^ 53 ->
  (scaled m1 e1 <= 2 * scaled m2 e2)%R -> e1 <= e2 + 1.
Proof.
  intros H1 H2 Hle. destruct (Z_le_gt_dec e1 (e2 + 1)) as [|Hgt]; [done|].
  exfalso.
  assert (Ha : (scaled (2 ^ 52) (e2 + 2) <= scaled m1 e1)%R).
  { etransitivity; [|apply scaled_le, H1]. unfold scaled.
    apply Rmult_le_compat_l; [apply IZR_le; lia|]. apply pow2_le. lia. }
  assert (Hb : (scaled m2 e2 < scaled (2 ^ 53) e2)%R).
  { unfold scaled. apply Rmult_lt_compat_r; [apply pow2_pos|].
    by apply IZR_lt. }
  assert (Hc : scaled (2 ^ 52) (e2 + 2) = (2 * scaled (2 ^ 53) e2)%R).
  { unfold scaled. rewrite pow2_add.
    change (powerRZ 2 2) with (2 * (2 * 1))%R.
    change (2 ^ 53) with (2 * 2 ^ 52). rewrite mult_IZR. ring. }
  lra.
Qed.

Lemma pow2_m52 : (powerRZ 2 (-52) * IZR (2 ^ 52) = 1)%R.
Proof. rewrite IZR_pow2 by lia. rewrite <- pow2_add. reflexivity. Qed.

(** The arithmetic of the three roundings: the square of the rounded
    root against the number, and the rounded quotient against 1. *)
Lemma root_square_ratio (D N P un up u : R) :
  (0 < u <= 1 / 8)%R -> (0 < N)%R -> (0 < P)%R ->
  (0 <= un <= N * u)%R -> (0 <= up <= P * u)%R ->
  ((N - un) * (N - un) <= D <= (N + un) * (N + un))%R ->
  (N * N - up <= P <= N * N + up)%R ->
  (P * ((1 - u) * (1 - u) * (1 - u)) <= D)%R /\
  (D <= P * ((1 + u) * (1 + u) * (1 + u)))%R.
Proof.
  intros Hu HN HP Hun Hup HS HM.
  assert (H1 : (D <= N * N * ((1 + u) * (1 + u)))%R).
  { assert (0 <= N + un <= N * (1 + u))%R by lra.
    assert ((N + un) * (N + un) <= (N * (1 + u)) * (N * (1 + u)))%R
      by (apply Rmult_le_compat; lra).
    lra. }
  assert (H2 : (N * N * ((1 - u) * (1 - u)) <= D)%R).
  { assert (0 <= N * (1 - u) <= N - un)%R by nra.
    assert ((N * (1 - u)) * (N * (1 - u)) <= (N - un) * (N - un))%R
      by (apply Rmult_le_compat; lra).
    lra. }
  assert (H3 : (P * (1 - u) <= N * N <= P * (1 + u))%R) by lra.
  split.
  - assert (0 <= (1 - u) * (1 - u))%R by nra.
    assert (P * (1 - u) * ((1 - u) * (1 - u))
            <= N * N * ((1 - u) * (1 - u)))%R
      by (apply Rmult_le_compat_r; lra).
    lra.
  - assert (0 <= (1 + u) * (1 + u))%R by nra.
    assert (N * N * ((1 + u) * (1 + u))
            <= P * (1 + u) * ((1 + u) * (1 + u)))%R
      by (apply Rmult_le_compat_r; lra).
    lra.
Qed.

Lemma self_ratio (D P R ur u : R) :
  (0 < u <= 1 / 8)%R -> (0 < P)%R -> (0 < R)%R ->
  (0 <= ur <= R * u)%R ->
  (P * ((1 - u) * (1 - u) * (1 - u)) <= D)%R /\
  (D <= P * ((1 + u) * (1 + u) * (1 + u)))%R ->
  ((R - ur) * P <= D <= (R + ur) * P)%R ->
  (1 - 8 * u <= R <= 1 + 8 * u)%R.
Proof.
  intros Hu HP HR Hur [Hlo Hhi] HQ.
  assert (H4 : (R * (1 - u) * P <= P * ((1 + u) * (1 + u) * (1 + u)))%R).
  { assert (R * (1 - u) <= R - ur)%R by lra.
    assert (R * (1 - u) * P <= (R - ur) * P)%R
      by (apply Rmult_le_compat_r; lra).
    lra. }
  assert (H5 : (P * ((1 - u) * (1 - u) * (1 - u)) <= R * (1 + u) * P)%R).
  { assert (R + ur <= R * (1 + u))%R by lra.
    assert ((R + ur) * P <= R * (1 + u) * P)%R
      by (apply Rmult_le_compat_r; lra).
    lra. }
  assert (H6 : (R * (1 - u) <= (1 + u) * (1 + u) * (1 + u))%R).
  { apply (Rmult_le_reg_r P); [done|]. lra. }
  assert (H7 : ((1 - u) * (1 - u) * (1 - u) <= R * (1 + u))%R).
  { apply (Rmult_le_reg_r P); [done|]. lra. }
  assert (H8 : ((1 + u) * (1 + u) * (1 + u) <= (1 + 8 * u) * (1 - u))%R)
    by nra.
  assert (H9 : ((1 - 8 * u) * (1 + u) <= (1 - u) * (1 - u) * (1 - u))%R)
    by nra.
  split.
  - apply (Rmult_le_reg_r (1 + u)); lra.
  - apply (Rmult_le_reg_r (1 - u)); lra.
Qed.

Lemma near_one_ord (mr : positive) (er : Z) :
  2 ^ 52 <= Zpos mr < 2 ^ 53 -> -54 <= er ->
  (1 - 8 * powerRZ 2 (-52) <= scaled (Zpos mr) er
   <= 1 + 8 * powerRZ 2 (-52))%R ->
  1022 * 2 ^ 53 + (2 ^ 53 - 16) <= (er + 1075) * 2 ^ 53 + Zpos mr
  <= 1023 * 2 ^ 53 + (2 ^ 52 + 8).
Proof.
  intros Hm He [Hlo Hhi].
  pose proof pow2_m52 as Hu. pose proof (pow2_pos (-52)) as Hu0.
  set (u := powerRZ 2 (-52)) in *.
  assert (HC : IZR (2 ^ 52) = 4503599627370496%R) by reflexivity.
  rewrite HC in Hu.
  assert (Hm1 : (4503599627370496 <= IZR (Zpos mr))%R).
  { rewrite <- HC. apply IZR_le. lia. }
  assert (Hm2 : (IZR (Zpos mr) < 2 * 4503599627370496)%R).
  { rewrite <- HC, <- mult_IZR. apply IZR_lt.
    change (2 * 2 ^ 52) with (2 ^ 53). lia. }
  assert (Hh : powerRZ 2 (-1) = (/ 2)%R).
  { change (powerRZ 2 (-1)) with (/ (2 * 1))%R. by rewrite Rmult_1_r. }
  assert (P53 : 2 ^ 53 = 2 * 2 ^ 52) by reflexivity.
  assert (P52 : 2 ^ 52 = 4503599627370496) by reflexivity.
  unfold scaled in Hlo, Hhi.
  destruct (Z_le_gt_dec er (-54)) as [Hc|Hc].
  { exfalso. assert (er = -54) by lia. subst er.
    replace (-54) with (-52 + (-1 + -1)) in Hlo by lia.
    rewrite !pow2_add, Hh in Hlo. fold u in Hlo. nra. }
  destruct (Z_le_gt_dec (-51) er) as [Hd|Hd].
  { exfalso. pose proof (pow2_le (-51) er Hd) as Hp.
    replace (-51) with (-52 + 1) in Hp by lia.
    rewrite pow2_add in Hp. fold u in Hp.
    change (powerRZ 2 1) with (2 * 1)%R in Hp. nra. }
  assert (Her : er = -53 \/ er = -52) by lia.
  destruct Her as [-> | ->].
  - replace (-53) with (-52 + -1) in Hlo by lia.
    rewrite pow2_add, Hh in Hlo. fold u in Hlo.
    assert (Hz : (IZR (2 ^ 53 - 16) <= IZR (Zpos mr))%R).
    { change (2 ^ 53 - 16) with 9007199254740976. nra. }
    apply le_IZR in Hz. lia.
  - fold u in Hhi.
    assert (Hz : (IZR (Zpos mr) <= IZR (2 ^ 52 + 8))%R).
    { change (2 ^ 52 + 8) with 4503599627370504. nra. }
    apply le_IZR in Hz. lia.
Qed.

(** The quotient of a number in the normal range by the square of its
    square root is within [2 ^ -49] of 1. *)
Lemma root_square_quotient (d : float) :
  (0x1p-1000 <=? d)%float = true -> (d <=? 0x1p+1000)%float = true ->
  let n := PrimFloat.sqrt d in
  (n =? 0)%float = false /\
  (0x1.ffffffffffff0p-1 <=? d / (n * n))%float = true /\
  (d / (n * n) <=? 0x1.0000000000008p+0)%float = true.
Proof.
  intros H1 H2 n.
  destruct (in_range_sf d H1 H2) as (md & ed & Ed & Hmd & Hed).
  (* the square root *)
  pose proof (sqrt_spec d) as En. fold n in En. rewrite Ed in En.
  destruct (SFsqrt_real md ed Hmd ltac:(lia))
    as (mn & en & Hn & Hen & Hn0 & HS).
  unfold SF64sqrt in En. rewrite Hn in En.
  assert (Hd2 : -526 <= Z.div2 ed <= 474).
  { rewrite Z.div2_div. split.
    - apply Z.div_le_lower_bound; lia.
    - apply Z.div_le_upper_bound; lia. }
  pose proof (Prim2SF_valid n) as Hvn. rewrite En in Hvn.
  pose proof (normal_mantissa _ _ _ Hvn ltac:(lia)) as Hmn.
  (* its square *)
  pose proof (mul_spec n n) as Ep. rewrite En in Ep.
  destruct (SFmul_real mn en mn en Hmn Hmn ltac:(lia))
    as (mp & ep & Hp & Hep & HM).
  unfold SF64mul in Ep. rewrite Hp in Ep.
  pose proof (Prim2SF_valid (n * n)%float) as Hvp. rewrite Ep in Hvp.
  pose proof (normal_mantissa _ _ _ Hvp ltac:(lia)) as Hmp.
  (* the real numbers *)
  set (D := scaled (Zpos md) ed) in *.
  set (N := scaled (Zpos mn) en) in *.
  set (P := scaled (Zpos mp) ep) in *.
  set (u := powerRZ 2 (-52)).
  assert (Hu : (0 < u <= 1 / 8)%R).
  { split; [apply pow2_pos|]. pose proof pow2_m52 as Hm. fold u in Hm.
    assert (HC : IZR (2 ^ 52) = 4503599627370496%R) by reflexivity.
    rewrite HC in Hm. pose proof (pow2_pos (-52)) as H0. fold u in H0. nra. }
  assert (HN : (0 < N)%R) by (apply scaled_pos; lia).
  assert (HP : (0 < P)%R) by (apply scaled_pos; lia).
  assert (Hun : (0 <= powerRZ 2 en <= N * u)%R).
  { split; [apply Rlt_le, pow2_pos|]. apply ulp_le. lia. }
  assert (Hup : (0 <= powerRZ 2 ep <= P * u)%R).
  { split; [apply Rlt_le, pow2_pos|]. apply ulp_le. lia. }
  destruct (root_square_ratio D N P _ _ u Hu HN HP Hun Hup HS ltac:(lra))
    as [Hlo Hhi].
  (* the exponents of [d] and of the square are close *)
  assert (He1 : ed <= ep + 1).
  { apply (exponent_close (Zpos md) ed (Zpos mp) ep); [lia|lia|].
    fold D P. nra. }
  assert (He2 : ep <= ed + 1).
  { apply (exponent_close (Zpos mp) ep (Zpos md) ed); [lia|lia|].
    fold D P. nra. }
  (* the quotient *)
  pose proof (div_spec d (n * n)%float) as Er. rewrite Ed, Ep in Er.
  destruct (SFdiv_real md ed mp ep Hmd Hmp ltac:(lia))
    as (mr & er & Hr & Her & HQ).
  unfold SF64div in Er. rewrite Hr in Er.
  pose proof (Prim2SF_valid (d / (n * n))%float) as Hvr. rewrite Er in Hvr.
  pose proof (normal_mantissa _ _ _ Hvr ltac:(lia)) as Hmr.
  set (R := scaled (Zpos mr) er) in *.
  assert (HR : (0 < R)%R) by (apply scaled_pos; lia).
  assert (Hur : (0 <= powerRZ 2 er <= R * u)%R).
  { split; [apply Rlt_le, pow2_pos|]. apply ulp_le. lia. }
  pose proof (self_ratio D P R _ u Hu HP HR Hur (conj Hlo Hhi) HQ) as HRb.
  pose proof (near_one_ord mr er Hmr Her HRb) as Hord.
  assert (Hcr : comparable (d / (n * n))%float).
  { apply comparable_sf. by rewrite Er. }
  split; [|split].
  - by rewrite eqb_zero_sf, En.
  - rewrite leb_ord by done. apply Z.leb_le. unfold ord. rewrite Er.
    change (sf_ord (Prim2SF 0x1.ffffffffffff0p-1))
      with (1022 * 2 ^ 53 + (2 ^ 53 - 16)).
    cbn [sf_ord cond_Zopp]. lia.
  - rewrite leb_ord by done. apply Z.leb_le. unfold ord. rewrite Er.
    change (sf_ord (Prim2SF 0x1.0000000000008p+0))
      with (1023 * 2 ^ 53 + (2 ^ 52 + 8)).
    cbn [sf_ord cond_Zopp]. lia.
Qed.

End SelfSimilarity.

(** ** The similarity scorer *)

Section Scorer.
Import B64.

Lemma math_sqrt_squares (v : list float) :
  Py.math_sqrt (Py.fsum (map (fun x => x * x)%float v)) = Ok (norm v).
Proof.
  unfold Py.math_sqrt. rewrite (fsum_squares_not_negative v). reflexivity.
Qed.

(** [cosine_similarity] raises nothing, whatever the two vectors are. *)
Lemma cosine_similarity_value (vec1 vec2 : list float) :
  cosine_similarity vec1 vec2 = Ok (cosine_value vec1 vec2).
Proof.
  unfold cosine_similarity, cosine_value.
  destruct vec1 as [|a vec1]; [reflexivity|].
  destruct vec2 as [|b vec2]; [reflexivity|].
  rewrite !math_sqrt_squares. cbn [mbind result_bind].
  fold (dot (a :: vec1) (b :: vec2)).
  destruct (norm (a :: vec1) =? 0)%float eqn:E1; [reflexivity|].
  destruct (norm (b :: vec2) =? 0)%float eqn:E2; [reflexivity|].
  cbn [orb]. unfold Py.truediv.
  unfold norm in *. rewrite sqrt_mul_nonzero by assumption. reflexivity.
Qed.

Lemma dot_comm (a b : list float) : dot a b = dot b a.
Proof.
  unfold dot. f_equal. revert b.
  induction a as [|x a IH]; intros [|y b]; simpl; try reflexivity.
  rewrite float_mul_comm. f_equal. apply IH.
Qed.

Lemma cosine_value_comm (a b : list float) :
  cosine_value a b = cosine_value b a.
Proof.
  unfold cosine_value. destruct a as [|x a], b as [|y b]; try reflexivity.
  rewrite (dot_comm (x :: a)), (float_mul_comm (norm (x :: a))).
  rewrite (orb_comm (norm (x :: a) =? 0)%float). reflexivity.
Qed.

Lemma dot_take (a b : list float) :
  dot a b = dot (take (min (length a) (length b)) a)
                (take (min (length a) (length b)) b).
Proof.
  unfold dot. f_equal. revert b.
  induction a as [|x a IH]; intros [|y b]; simpl; try reflexivity.
  f_equal. apply IH.
Qed.

Lemma cosine_value_not_negative (a b : list float) :
  Forall not_negative a -> Forall not_negative b ->
  not_negative (cosine_value a b).
Proof.
  intros Ha Hb. unfold cosine_value.
  destruct a as [|x a]; [reflexivity|]. destruct b as [|y b]; [reflexivity|].
  destruct (norm (x :: a) =? 0)%float eqn:E1; [reflexivity|].
  destruct (norm (y :: b) =? 0)%float eqn:E2; [reflexivity|].
  cbn [orb]. apply div_not_negative.
  - apply fsum_not_negative. revert Ha Hb. generalize (x :: a), (y :: b).
    intros l1. induction l1 as [|u l1 IH]; intros [|w l2] H1 H2;
      simpl; try constructor.
    + inversion H1; inversion H2; subst. apply mul_not_negative; assumption.
    + inversion H1; inversion H2; subst. apply IH; assumption.
  - apply mul_not_negative; apply sqrt_not_negative.
  - apply sqrt_mul_nonzero; assumption.
Qed.

End Scorer.

Lemma norm_of_dot (v : list float) : norm v = PrimFloat.sqrt (dot v v).
Proof.
  unfold norm, dot. do 2 f_equal.
  induction v as [|x v IH]; simpl; [done|]. by rewrite IH.
Qed.

(** C1 does not hold as stated.  Two vectors of different lengths on which
    [cosine_similarity] returns a value: [zip] stops at the shorter one. *)
Lemma cosine_mismatch_returns :
  length [1%float] ≠ length [1%float; 0%float] ∧
  cosine_similarity [1%float] [1%float; 0%float] = Ok 1%float.
Proof. split; [simpl; lia|vm_compute; reflexivity]. Qed.

(** C1, amended.  For vectors of different lengths [cosine_similarity] has
    no check and raises nothing: it returns [cosine_value], whose dot
    product runs over the first [min (length a) (length b)] positions and
    whose norms are those of the whole vectors. *)
Theorem cosine_mismatch_value (a b : list float) :
  length a ≠ length b →
  cosine_similarity a b = Ok (cosine_value a b) ∧
  dot a b = dot (take (min (length a) (length b)) a)
                (take (min (length a) (length b)) b).
Proof.
  intros _. split; [apply cosine_similarity_value|apply dot_take].
Qed.

Lemma cosine_mismatch_value_witness :
  cosine_similarity [1%float] [1%float; 0%float]
    = Ok (cosine_value [1%float] [1%float; 0%float]) ∧
  dot [1%float] [1%float; 0%float]
    = dot (take 1 [1%float]) (take 1 [1%float; 0%float]).
Proof.
  apply (cosine_mismatch_value [1%float] [1%float; 0%float]). simpl. lia.
Defined.

(** C7 does not hold as stated.  The vector [[1; 1]] is not zero, and its
    similarity with itself is [0.9999999999999998]: the norm is the rounded
    square root of 2, and its square is above 2. *)
Lemma cosine_self_not_one :
  cosine_similarity [1%float; 1%float] [1%float; 1%float]
    = Ok 0x1.ffffffffffffep-1%float ∧
  (0x1.ffffffffffffep-1 =? 1)%float = false.
Proof. split; vm_compute; reflexivity. Qed.

(** [[1e200]] is not zero either, and its similarity with itself is a NaN:
    the sum of the squares overflows, and so does the square of the norm. *)
Example cosine_self_overflow :
  ∃ r : float,
    cosine_similarity [0x1.4e718d7d7625ap+664%float]
      [0x1.4e718d7d7625ap+664%float] = Ok r ∧
    (r =? r)%float = false.
Proof. eexists. split; vm_compute; reflexivity. Qed.

(** C7, amended.  [cosine_similarity] is symmetric, for vectors of any
    lengths.  For a vector [v] whose norm is not zero, the similarity of [v]
    with itself is [d / (n * n)] where [d] is the sum of the squares and [n]
    its rounded square root.  That is [1.0] whenever [n * n] is [d] again;
    and whenever [d] is between [2 ^ -1000] and [2 ^ 1000], it is between
    [1 - 2 ^ -49] and [1 + 2 ^ -49]. *)
Theorem cosine_symmetric_self :
  (∀ a b : list float, cosine_similarity a b = cosine_similarity b a) ∧
  (∀ v : list float,
     (norm v =? 0)%float = false →
     cosine_similarity v v = Ok (dot v v / (norm v * norm v))%float) ∧
  (∀ v : list float,
     (0 <? dot v v)%float = true → (dot v v <? infinity)%float = true →
     (norm v * norm v)%float = dot v v →
     cosine_similarity v v = Ok 1%float) ∧
  (∀ v : list float,
     (0x1p-1000 <=? dot v v)%float = true →
     (dot v v <=? 0x1p+1000)%float = true →
     ∃ r : float,
       cosine_similarity v v = Ok r ∧
       (0x1.ffffffffffff0p-1 <=? r)%float = true ∧
       (r <=? 0x1.0000000000008p+0)%float = true).
Proof.
  assert (Hself : ∀ v : list float,
     (norm v =? 0)%float = false →
     cosine_similarity v v = Ok (dot v v / (norm v * norm v))%float).
  { intros v Hn. rewrite cosine_similarity_value. unfold cosine_value.
    destruct v as [|x v]; [discriminate Hn|]. rewrite Hn. reflexivity. }
  split; [|split; [|split]].
  - intros a b. rewrite !cosine_similarity_value. f_equal.
    apply cosine_value_comm.
  - exact Hself.
  - intros v H0 Hinf Hsq.
    assert (Hn : (norm v =? 0)%float = false).
    { destruct (norm v =? 0)%float eqn:E; [|reflexivity]. exfalso.
      unfold norm in E, Hsq. apply sqrt_zero_square in E.
      rewrite Hsq in E.
      destruct (ltb_true_comparable _ _ H0) as [Hc0 Hcd].
      rewrite eqb_ord in E by assumption.
      rewrite ltb_ord in H0 by assumption. lia. }
    rewrite Hself by assumption. rewrite Hsq. f_equal.
    apply div_self; assumption.
  - intros v H1 H2.
    destruct (root_square_quotient (dot v v) H1 H2) as (Hn & Hlo & Hhi).
    rewrite <- norm_of_dot in Hn, Hlo, Hhi.
    exists (dot v v / (norm v * norm v))%float.
    split; [by apply Hself|]. by split.
Qed.

Lemma cosine_symmetric_self_witness :
  cosine_similarity [3%float] [3%float] = Ok 1%float ∧
  ∃ r : float,
    cosine_similarity [1%float; 1%float] [1%float; 1%float] = Ok r ∧
    (0x1.ffffffffffff0p-1 <=? r)%float = true ∧
    (r <=? 0x1.0000000000008p+0)%float = true.
Proof.
  split.
  - apply (proj1 (proj2 (proj2 cosine_symmetric_self)) [3%float]);
      vm_compute; reflexivity.
  - apply (proj2 (proj2 (proj2 cosine_symmetric_self)) [1%float; 1%float]);
      vm_compute; reflexivity.
Defined.

(** C8 does not hold as stated.  The entries of [[1; 1; 1]] are not negative, yet
    its similarity with itself is [1.0000000000000002], above 1. *)
Lemma cosine_above_one :
  Forall (fun x => (0 <=? x)%float = true) [1%float; 1%float; 1%float] ∧
  cosine_similarity [1%float; 1%float; 1%float] [1%float; 1%float; 1%float]
    = Ok 0x1.0000000000001p+0%float ∧
  (0x1.0000000000001p+0 <=? 1)%float = false.
Proof.
  split; [repeat constructor|]. split; vm_compute; reflexivity.
Qed.

(** Nor is the value above 1 by a rounding error only: when a square
    underflows, the norm is too small, and here the similarity is 1.2. *)
Example cosine_underflow_above_one :
  cosine_similarity [0x1.3333333333333p-537%float]
    [0x1.3333333333333p+63%float] = Ok 0x1.3333333333333p+0%float.
Proof. vm_compute. reflexivity. Qed.

(** C8, amended.  [cosine_similarity] returns 0, and raises nothing, when
    either vector is empty or has a zero norm.  When no entry of either
    vector is negative, it raises nothing and returns a value that is not
    negative: zero or above unless it is a NaN (an overflow gives
    inf / inf).  No bound from above is stated: the two examples before
    this are above 1. *)
Theorem cosine_guard_and_sign :
  (∀ a b : list float,
     a = [] ∨ b = [] ∨ (norm a =? 0)%float = true
       ∨ (norm b =? 0)%float = true →
     cosine_similarity a b = Ok 0%float) ∧
  (∀ a b : list float,
     Forall (fun x => (0 <=? x)%float = true) a →
     Forall (fun x => (0 <=? x)%float = true) b →
     ∃ r : float,
       cosine_similarity a b = Ok r ∧ (r <? 0)%float = false ∧
       (B64.comparable r → (0 <=? r)%float = true)).
Proof.
  split.
  - intros a b H. rewrite cosine_similarity_value. f_equal.
    unfold cosine_value.
    destruct a as [|x a]; [reflexivity|]. destruct b as [|y b]; [reflexivity|].
    destruct H as [H|[H|[H|H]]]; try discriminate; rewrite H; [reflexivity|].
    rewrite orb_true_r. reflexivity.
  - intros a b Ha Hb. exists (cosine_value a b).
    assert (Hnn : B64.not_negative (cosine_value a b)).
    { apply cosine_value_not_negative;
        (eapply Forall_impl; [eassumption|]); intros x Hx;
        apply not_negative_of_leb, Hx. }
    split; [apply cosine_similarity_value|]. split; [exact Hnn|].
    intros Hc. unfold B64.not_negative in Hnn.
    rewrite ltb_ord in Hnn by (assumption || reflexivity).
    rewrite leb_ord by (assumption || reflexivity). lia.
Qed.

Lemma cosine_guard_and_sign_witness :
  cosine_similarity [] [1%float] = Ok 0%float ∧
  ∃ r : float,
    cosine_similarity [1%float; 2%float] [3%float; 0%float] = Ok r ∧
    (r <? 0)%float = false ∧ (B64.comparable r → (0 <=? r)%float = true).
Proof.
  split.
  - apply (proj1 cosine_guard_and_sign [] [1%float]). left. reflexivity.
  - apply (proj2 cosine_guard_and_sign [1%float; 2%float] [3%float; 0%float]);
      repeat constructor.
Defined.

(** ** Loops and sorting *)

Lemma getitem_lookup_total {A : Type} `{Inhabited A} (l : list A) (i : nat) :
  i < length l → Py.getitem l i = Ok (l !!! i).
Proof.
  intros Hi. unfold Py.getitem.
  destruct (lookup_lt_is_Some_2 l i Hi) as [x Hx].
  rewrite Hx. by rewrite (list_lookup_total_correct l i x).
Qed.

Section Loops.
Context {A B : Type}.

Lemma collect_from_seq (f : nat → A → result (list B)) (h : nat → list B)
    (l : list A) : ∀ i,
  (∀ k x, l !! k = Some x → f (i + k) x = Ok (h (i + k))) →
  Py.collect_from f i l = Ok (concat (map h (seq i (length l)))).
Proof.
  induction l as [|x l IH]; intros i Hf; [reflexivity|].
  simpl. rewrite <- (Nat.add_0_r i) at 1. rewrite (Hf 0 x eq_refl).
  rewrite Nat.add_0_r. cbn [mbind result_bind].
  rewrite (IH (S i)); [reflexivity|].
  intros k y Hk. replace (S i + k) with (i + S k) by lia. by apply Hf.
Qed.

Lemma concat_singletons (g : nat → B) (l : list nat) :
  concat (map (fun j => [g j]) l) = map g l.
Proof. induction l as [|j l IH]; simpl; [done|]. by rewrite IH. Qed.

Lemma concat_skip (g : nat → B) (i0 : nat) (l : list nat) :
  concat (map (fun j => if decide (j ≠ i0) then [g j] else []) l)
  = map g (filter (fun j => j ≠ i0) l).
Proof.
  induction l as [|j l IH]; simpl; [done|].
  rewrite filter_cons. destruct (decide (j ≠ i0)); simpl; by rewrite IH.
Qed.
End Loops.

Section Sorting.
Import B64.
Context {A : Type} (key : A → float).

Lemma insert_desc_perm (x : A) (l : list A) :
  Py.insert_desc key x l ≡ₚ x :: l.
Proof.
  induction l as [|y l IH]; simpl; [done|].
  destruct (key x <? key y)%float; [|done].
  rewrite IH. apply Permutation_swap.
Qed.

Lemma sort_desc_perm (l : list A) : Py.sort_desc key l ≡ₚ l.
Proof.
  induction l as [|x l IH]; simpl; [done|].
  rewrite insert_desc_perm. by rewrite IH.
Qed.

Lemma sort_desc_length (l : list A) :
  length (Py.sort_desc key l) = length l.
Proof. apply Permutation_length, sort_desc_perm. Qed.

Section Ranked.
Context (pos : A → nat).

Lemma insert_desc_ranked (x : A) (l : list A) :
  comparable (key x) → Forall (fun y => comparable (key y)) l →
  Forall (fun y => pos x < pos y) l →
  StronglySorted (ranked_before key pos) l →
  StronglySorted (ranked_before key pos) (Py.insert_desc key x l).
Proof.
  intros Hx Hl Hpos Hs.
  induction l as [|y l IH]; simpl; [repeat constructor|].
  apply Forall_cons in Hl as [Hy Hl]. apply Forall_cons in Hpos as [Hxy Hpos].
  apply StronglySorted_inv in Hs as [Hs Hyl].
  destruct (key x <? key y)%float eqn:E.
  - constructor; [by apply IH|].
    rewrite insert_desc_perm. constructor; [by left|done].
  - constructor; [by constructor|].
    assert (Hxy' : ranked_before key pos x y).
    { unfold ranked_before. rewrite ltb_ord, eqb_ord by assumption.
      rewrite ltb_ord in E by assumption. lia. }
    constructor; [done|].
    rewrite Forall_forall in Hyl, Hl, Hpos. apply Forall_forall.
    intros z Hz. pose proof (Hyl z Hz) as Hyz.
    pose proof (Hl z Hz) as Hcz. pose proof (Hpos z Hz) as Hpz.
    unfold ranked_before in *.
    rewrite !ltb_ord, !eqb_ord in * by assumption. lia.
Qed.

Lemma sort_desc_ranked (l : list A) :
  Forall (fun y => comparable (key y)) l →
  StronglySorted (fun a b => pos a < pos b) l →
  StronglySorted (ranked_before key pos) (Py.sort_desc key l).
Proof.
  intros Hl Hs. induction l as [|x l IH]; simpl; [constructor|].
  apply Forall_cons in Hl as [Hx Hl].
  apply StronglySorted_inv in Hs as [Hs Hxl].
  apply insert_desc_ranked; [done| | |by apply IH].
  - by rewrite sort_desc_perm.
  - by rewrite sort_desc_perm.
Qed.

Lemma ranked_not_below (a b : A) :
  comparable (key a) → comparable (key b) →
  ranked_before key pos a b → not_below key a b.
Proof.
  unfold ranked_before, not_below. intros Ha Hb.
  rewrite ltb_ord, eqb_ord, leb_ord by assumption. lia.
Qed.
End Ranked.

Lemma StronglySorted_weaken (R1 R2 : A → A → Prop) (P : A → Prop)
    (l : list A) :
  (∀ a b, P a → P b → R1 a b → R2 a b) →
  Forall P l → StronglySorted R1 l → StronglySorted R2 l.
Proof.
  intros HR HP Hs. induction Hs as [|a l Hs IH Ha]; [constructor|].
  apply Forall_cons in HP as [HPa HPl].
  constructor; [by apply IH|].
  rewrite Forall_forall in Ha, HPl. apply Forall_forall.
  intros b Hb. apply HR; auto.
Qed.

Lemma StronglySorted_take (R : A → A → Prop) (n : nat) (l : list A) :
  StronglySorted R l → StronglySorted R (take n l).
Proof.
  intros Hs. revert n. induction Hs as [|a l Hs IH Ha]; intros [|n];
    simpl; try constructor; [apply IH|by apply Forall_take].
Qed.

Lemma StronglySorted_filter (R : A → A → Prop) (P : A → Prop)
    `{∀ x, Decision (P x)} (l : list A) :
  StronglySorted R l → StronglySorted R (filter P l).
Proof.
  intros Hs. induction Hs as [|a l Hs IH Ha]; [constructor|].
  rewrite filter_cons. destruct (decide (P a)); [|done].
  constructor; [done|].
  rewrite Forall_forall in Ha. apply Forall_forall.
  intros b [_ Hb]%list_elem_of_filter. by apply Ha.
Qed.
End Sorting.

Lemma sort_desc_map {A B : Type} (key : B → float) (f : A → B) (l : list A) :
  Py.sort_desc key (map f l) = map f (Py.sort_desc (key ∘ f) l).
Proof.
  induction l as [|x l IH]; simpl; [done|]. rewrite IH.
  generalize (Py.sort_desc (key ∘ f) l). intros s.
  induction s as [|y s IHs]; simpl; [done|].
  destruct (key (f x) <? key (f y))%float; simpl; [by rewrite IHs|done].
Qed.

Lemma insert_desc_ext {A : Type} (key key' : A → float) (x : A)
    (s : list A) :
  (∀ y, y ∈ x :: s → key y = key' y) →
  Py.insert_desc key x s = Py.insert_desc key' x s.
Proof.
  induction s as [|y s IHs]; intros Hk; simpl; [done|].
  rewrite (Hk x) by left. rewrite (Hk y) by (right; left).
  destruct (key' x <? key' y)%float; [|done].
  f_equal. apply IHs. intros z Hz. apply Hk.
  apply elem_of_cons in Hz as [->|Hz]; [left|do 2 right]; done.
Qed.

Lemma sort_desc_ext {A : Type} (key key' : A → float) (l : list A) :
  (∀ x, x ∈ l → key x = key' x) →
  Py.sort_desc key l = Py.sort_desc key' l.
Proof.
  induction l as [|x l IH]; intros Hk; simpl; [done|].
  rewrite IH by (intros y Hy; apply Hk; by right).
  apply insert_desc_ext. intros y Hy. apply Hk.
  apply elem_of_cons in Hy as [->|Hy]; [by left|right].
  by rewrite <- (sort_desc_perm key' l).
Qed.

Lemma filter_map {A B : Type} (P : B → Prop) `{∀ y, Decision (P y)}
    (f : A → B) (l : list A) :
  filter P (map f l) = map f (filter (fun x => P (f x)) l).
Proof.
  induction l as [|x l IH]; simpl; [done|].
  rewrite !filter_cons. destruct (decide (P (f x))); simpl; by rewrite IH.
Qed.

Lemma filter_ext_in {A : Type} (P Q : A → Prop) `{∀ x, Decision (P x)}
    `{∀ x, Decision (Q x)} (l : list A) :
  (∀ x, x ∈ l → P x ↔ Q x) → filter P l = filter Q l.
Proof.
  induction l as [|x l IH]; intros HPQ; [done|].
  rewrite !filter_cons, IH by (intros y Hy; apply HPQ; by right).
  destruct (decide (P x)) as [HP|HP], (decide (Q x)) as [HQ|HQ];
    try done; exfalso; apply (HPQ x) in HP || apply (HPQ x) in HQ;
    done || left.
Qed.

Lemma seq_strongly_sorted (i n : nat) :
  StronglySorted (fun a b : nat => a < b) (seq i n).
Proof.
  revert i. induction n as [|n IH]; intros i; simpl; constructor; [apply IH|].
  apply Forall_forall. intros j Hj%list_elem_of_In%in_seq. lia.
Qed.

(** ** The index *)

Section IndexFacts.

Lemma weigh_slot_length vi idf (v : list float) item :
  length (weigh_slot vi idf v item) = length v.
Proof.
  unfold weigh_slot. destruct (vi !! item.1); [|done].
  by rewrite length_insert.
Qed.

Lemma weigh_value vi idf (v : list float) item :
  index_ok vi (length v) →
  weigh vi idf v item = Ok (weigh_slot vi idf v item).
Proof.
  intros Hok. destruct item as [word count]. unfold weigh, weigh_slot.
  simpl. destruct (vi !! word) as [idx|] eqn:E; [|done].
  unfold Py.setitem. case_decide as Hd; [done|].
  exfalso. apply Hd. by eapply Hok.
Qed.

Lemma for_each_weigh vi idf items : ∀ v : list float,
  index_ok vi (length v) →
  Py.for_each (weigh vi idf) v items
  = Ok (fold_left (weigh_slot vi idf) items v).
Proof.
  induction items as [|item items IH]; intros v Hok; simpl; [done|].
  rewrite weigh_value by done. cbn [mbind result_bind].
  apply IH. by rewrite weigh_slot_length.
Qed.

Lemma vectorize_weights vi idf n tokens :
  index_ok vi n →
  vectorize vi idf n tokens = Ok (weights vi idf n tokens).
Proof.
  intros Hok. unfold vectorize, weights. apply for_each_weigh.
  by rewrite length_replicate.
Qed.

(** *** The slot table *)

Lemma fold_put_lookup ps : ∀ (m : gmap string nat) w i,
  fold_left put ps m !! w = Some i → (i, w) ∈ ps ∨ m !! w = Some i.
Proof.
  induction ps as [|[i' w'] ps IH]; intros m w i H; simpl in *; [by right|].
  apply IH in H as [H|H]; [left; by right|].
  destruct (decide (w' = w)) as [->|Hne].
  - rewrite lookup_insert_eq in H. injection H as ->. left. by left.
  - rewrite lookup_insert_ne in H by done. by right.
Qed.

Lemma fold_put_lookup_notin ps : ∀ (m : gmap string nat) w,
  w ∉ ps.*2 → fold_left put ps m !! w = m !! w.
Proof.
  induction ps as [|[i' w'] ps IH]; intros m w Hw; simpl in *; [done|].
  apply not_elem_of_cons in Hw as [Hne Hw].
  rewrite IH by done. by rewrite lookup_insert_ne.
Qed.

Lemma fold_put_lookup_in ps : ∀ (m : gmap string nat) w i,
  NoDup ps.*2 → (i, w) ∈ ps → fold_left put ps m !! w = Some i.
Proof.
  induction ps as [|[i' w'] ps IH]; intros m w i Hnd Hin; simpl in *.
  - by apply elem_of_nil in Hin.
  - apply NoDup_cons in Hnd as [Hw' Hnd].
    apply elem_of_cons in Hin as [Heq|Hin].
    + injection Heq as -> ->.
      rewrite fold_put_lookup_notin by done. apply lookup_insert_eq.
    + by apply IH.
Qed.

Lemma fold_put_size ps : ∀ m : gmap string nat,
  NoDup ps.*2 → (∀ w, w ∈ ps.*2 → m !! w = None) →
  size (fold_left put ps m) = size m + length ps.
Proof.
  induction ps as [|[i' w'] ps IH]; intros m Hnd Hm; simpl in *; [lia|].
  apply NoDup_cons in Hnd as [Hw' Hnd].
  rewrite IH; [|done|].
  - rewrite map_size_insert_None by (apply Hm; left). lia.
  - intros w Hw. rewrite lookup_insert_ne; [apply Hm; by right|].
    intros ->. done.
Qed.

Lemma enumerate_keys (vocab : list string) :
  (imap (fun i word => (i, word)) vocab).*2 = vocab.
Proof.
  rewrite fmap_imap. unfold compose. simpl.
  rewrite (imap_const (fun x : string => x)). apply list_fmap_id.
Qed.

Lemma vocab_index_of_lookup vocab w i :
  vocab_index_of vocab !! w = Some i → vocab !! i = Some w.
Proof.
  unfold vocab_index_of. intros [H|H]%fold_put_lookup; [|done].
  apply elem_of_lookup_imap_1 in H as (k & y & Heq & Hk).
  by injection Heq as -> ->.
Qed.

Lemma vocab_index_of_ok vocab : index_ok (vocab_index_of vocab) (length vocab).
Proof.
  intros w i H%vocab_index_of_lookup. by eapply lookup_lt_Some.
Qed.

Lemma vocab_index_of_slot vocab w i :
  NoDup vocab → vocab !! i = Some w → vocab_index_of vocab !! w = Some i.
Proof.
  intros Hnd Hi. unfold vocab_index_of. apply fold_put_lookup_in.
  - by rewrite enumerate_keys.
  - by apply (elem_of_lookup_imap_2 (fun i word => (i, word))).
Qed.

Lemma vocab_index_of_size vocab :
  NoDup vocab → size (vocab_index_of vocab) = length vocab.
Proof.
  intros Hnd. unfold vocab_index_of. rewrite fold_put_size.
  - by rewrite map_size_empty, length_imap.
  - by rewrite enumerate_keys.
  - intros w _. apply lookup_empty.
Qed.

Lemma vocab_index_of_dom vocab w :
  NoDup vocab → w ∈ vocab ↔ is_Some (vocab_index_of vocab !! w).
Proof.
  intros Hnd. split.
  - intros (i & Hi)%list_elem_of_lookup_1. exists i.
    by apply vocab_index_of_slot.
  - intros [i Hi]. apply vocab_index_of_lookup in Hi.
    by eapply list_elem_of_lookup_2.
Qed.

(** *** The idf table and the vocabulary *)

Lemma fold_insert_lookup {V : Type} (f : string → V) (l : list string) :
  ∀ (m : gmap string V) w,
  fold_left (fun m word => <[word := f word]> m) l m !! w
  = if decide (w ∈ l) then Some (f w) else m !! w.
Proof.
  induction l as [|x l IH]; intros m w; cbn [fold_left].
  - case_decide as H; [by apply elem_of_nil in H|done].
  - rewrite IH. destruct (decide (x = w)) as [->|Hne].
    + rewrite (decide_True (P := w ∈ w :: l)) by left.
      case_decide; [done|apply lookup_insert_eq].
    + rewrite lookup_insert_ne by done.
      case_decide as H1; case_decide as H2; try done.
      * exfalso. apply H2. by right.
      * exfalso. apply elem_of_cons in H2 as [?|?]; congruence.
Qed.

Lemma idf_table_lookup log documents vocab w :
  idf_table log documents vocab !! w
  = if decide (w ∈ vocab)
    then Some (idf_weight log (length documents) (df documents w))
    else None.
Proof.
  unfold idf_table.
  rewrite (fold_insert_lookup
    (fun word => idf_weight log (length documents) (df documents word))).
  case_decide; [done|apply lookup_empty].
Qed.

Lemma fold_union_elem (documents : list string) : ∀ (X : gset string) w,
  w ∈ fold_left (fun vocab doc => vocab ∪ list_to_set (tokens_of doc))
        documents X
  ↔ w ∈ X ∨ ∃ doc, doc ∈ documents ∧ w ∈ tokens_of doc.
Proof.
  induction documents as [|d ds IH]; intros X w; simpl.
  - split; [by left|]. intros [?|(doc & H & _)]; [done|].
    by apply elem_of_nil in H.
  - rewrite IH, elem_of_union, elem_of_list_to_set. split.
    + intros [[?|?]|(doc & ? & ?)]; [by left|right; exists d|right; exists doc].
      * split; [left|done].
      * split; [by right|done].
    + intros [?|(doc & [->|?]%elem_of_cons & ?)];
        [by do 2 left|left; by right|right; by exists doc].
Qed.

Lemma vocabulary_elem documents w :
  w ∈ vocabulary documents ↔ ∃ doc, doc ∈ documents ∧ w ∈ tokens_of doc.
Proof.
  unfold vocabulary. rewrite fold_union_elem. split; [|by right].
  intros [H|H]; [|done]. by apply not_elem_of_empty in H.
Qed.

Lemma isum_const_from (w : nat) {A : Type} (l : list A) : ∀ acc,
  fold_left Nat.add (map (fun _ => w) l) acc = acc + w * length l.
Proof.
  induction l as [|x l IH]; intros acc; simpl; [lia|]. rewrite IH. lia.
Qed.

Lemma isum_const (w : nat) {A : Type} (l : list A) :
  Py.isum (map (fun _ => w) l) = w * length l.
Proof. unfold Py.isum. by rewrite isum_const_from. Qed.

Lemma df_count documents w :
  df documents w
  = length (filter (fun doc => w ∈ tokens_of doc) documents).
Proof. unfold df. rewrite isum_const. lia. Qed.

(** *** What [build_tfidf] returns *)

Lemma collect_from_map {A B : Type} (f : nat → A → result (list B))
    (g : A → B) (l : list A) : ∀ i,
  (∀ k x, f k x = Ok [g x]) →
  Py.collect_from f i l = Ok (map g l).
Proof.
  induction l as [|x l IH]; intros i Hf; simpl; [done|].
  rewrite Hf. cbn [mbind result_bind]. by rewrite IH.
Qed.

Lemma build_tfidf_value log set_to_list documents :
  let vocab := set_to_list (vocabulary documents) in
  build_tfidf log set_to_list documents
  = Ok (map (fun doc =>
               weights (vocab_index_of vocab)
                 (idf_table log documents vocab) (length vocab)
                 (tokens_of doc)) documents,
        vocab_index_of vocab, idf_table log documents vocab).
Proof.
  intros vocab. unfold build_tfidf. fold vocab.
  rewrite (collect_from_map _
    (fun doc => weights (vocab_index_of vocab)
                  (idf_table log documents vocab) (length vocab)
                  (tokens_of doc))); [done|].
  intros _ doc. by rewrite vectorize_weights by apply vocab_index_of_ok.
Qed.

Lemma built_index_shape log set_to_list documents vectors vi idf :
  lists_sets set_to_list →
  build_tfidf log set_to_list documents = Ok (vectors, vi, idf) →
  length vectors = length documents ∧ index_ok vi (size vi).
Proof.
  intros Hset. rewrite build_tfidf_value. intros [= <- <- <-].
  assert (Hnd : NoDup (set_to_list (vocabulary documents))).
  { rewrite (Hset _). apply NoDup_elements. }
  split; [by rewrite length_map|].
  rewrite vocab_index_of_size by done. apply vocab_index_of_ok.
Qed.

Lemma shelf_index_built :
  build_tfidf log_table elements (map document shelf)
  = Ok (shelf_index.1.1, shelf_index.1.2, shelf_index.2).
Proof. unfold shelf_index. by rewrite build_tfidf_value. Qed.

Lemma elements_lists_sets : lists_sets elements.
Proof. by intros X. Qed.

End IndexFacts.

(** *** The idf weights *)

Lemma log_table_not_negative (x : float) :
  (1 <=? x)%float = true → (0 <=? log_table x)%float = true.
Proof.
  intros _. unfold log_table.
  repeat (destruct (_ =? _)%float; [vm_compute; reflexivity|]).
  vm_compute; reflexivity.
Qed.

(** C6.  In the index built from a corpus, every term [t] of the vocabulary
    has a slot and the weight [log ((N + 1) / (d + 1)) + 1], where [N] is the
    number of documents and [d] the number of documents whose tokens hold
    [t]; the weight is above zero.  [log] is [math.log], of which only this
    is used: it is not negative from 1 on.  The corpus has fewer than
    [2 ^ 53] documents, so that [N + 1] and [d + 1] are floats. *)
Theorem idf_weights_positive (log : float → float)
    (set_to_list : gset string → list string) (documents : list string)
    (vectors : list (list float)) (vi : gmap string nat)
    (idf : gmap string float) :
  lists_sets set_to_list →
  (∀ x, (1 <=? x)%float = true → (0 <=? log x)%float = true) →
  (Z.of_nat (length documents) + 1 < 2 ^ 53)%Z →
  build_tfidf log set_to_list documents = Ok (vectors, vi, idf) →
  ∀ t : string, t ∈ vocabulary documents →
    let N := length documents in
    let d := length (filter (fun doc => t ∈ tokens_of doc) documents) in
    let w := (log (Py.float_of_nat (N + 1) / Py.float_of_nat (d + 1)) + 1)%float in
    is_Some (vi !! t) ∧ idf !! t = Some w ∧ (0 <? w)%float = true.
Proof.
  intros Hset Hlog HN. rewrite build_tfidf_value. intros [= <- <- <-] t Ht.
  assert (Hnd : NoDup (set_to_list (vocabulary documents))).
  { rewrite (Hset _). apply NoDup_elements. }
  assert (Hin : t ∈ set_to_list (vocabulary documents)).
  { rewrite (Hset _). by apply elem_of_elements. }
  split; [by apply vocab_index_of_dom|]. split.
  - rewrite idf_table_lookup, decide_True by done.
    unfold idf_weight. by rewrite df_count.
  - apply add_one_positive, Hlog, float_of_nat_quotient; [|done].
    apply length_filter.
Qed.

Lemma idf_weights_positive_witness :
  let N := length (map document shelf) in
  let d := length (filter (fun doc => "python"%string ∈ tokens_of doc)
                     (map document shelf)) in
  let w := (log_table (Py.float_of_nat (N + 1) / Py.float_of_nat (d + 1))
            + 1)%float in
  is_Some (shelf_index.1.2 !! "python"%string) ∧
  shelf_index.2 !! "python"%string = Some w ∧
  (0 <? w)%float = true.
Proof.
  apply (idf_weights_positive log_table elements (map document shelf)
           shelf_index.1.1 shelf_index.1.2 shelf_index.2).
  - exact elements_lists_sets.
  - exact log_table_not_negative.
  - vm_compute. reflexivity.
  - exact shelf_index_built.
  - apply vocabulary_elem. exists (document (shelf !!! 0)).
    split; [left|]. apply (bool_decide_unpack _). vm_compute. exact I.
Defined.

(** ** The search ranker *)

Section Ranker.
Import B64.

Lemma final_score_combined query_tokens query_vector books doc_vectors j :
  score_at query_tokens query_vector books doc_vectors j
  = combined_score query_tokens query_vector books doc_vectors j.
Proof.
  unfold score_at, combined_score, final_score, field_match, matches.
  by rewrite !isum_const.
Qed.

Lemma search_scores_value query_tokens query_vector books doc_vectors :
  length doc_vectors ≤ length books →
  search_scores query_tokens query_vector books doc_vectors
  = Ok (map (fun j => (books !!! j,
                       score_at query_tokens query_vector books doc_vectors j))
          (seq 0 (length doc_vectors))).
Proof.
  intros Hlen. unfold search_scores.
  rewrite (collect_from_seq _
    (fun j => [(books !!! j,
                score_at query_tokens query_vector books doc_vectors j)])).
  - by rewrite concat_singletons.
  - intros k x Hk. simpl. rewrite cosine_similarity_value.
    cbn [mbind result_bind].
    rewrite getitem_lookup_total by (apply lookup_lt_Some in Hk; lia).
    cbn [mbind result_bind]. unfold score_at.
    by rewrite (list_lookup_total_correct doc_vectors k x).
Qed.

Lemma search_with_ir_value query books doc_vectors vi idf :
  index_ok vi (size vi) →
  length doc_vectors ≤ length books →
  let query_vector := weights vi idf (size vi) (tokens_of query) in
  let score := score_at (tokens_of query) query_vector books doc_vectors in
  search_with_ir query books doc_vectors vi idf
  = Ok (map (fun j => books !!! j)
          (filter (fun j => (0 <? score j)%float = true)
             (Py.sort_desc score (seq 0 (length doc_vectors))))).
Proof.
  intros Hok Hlen query_vector score. unfold search_with_ir.
  rewrite vectorize_weights by done. cbn [mbind result_bind].
  fold query_vector. rewrite search_scores_value by done.
  cbn [mbind result_bind]. f_equal.
  rewrite (sort_desc_map snd).
  rewrite filter_map.
  rewrite <- list_fmap_compose. apply list_fmap_ext.
  - done.
Qed.

(** C2.  For a corpus with the index built from it, [search_with_ir]
    returns the books at positions [js], where [js] holds every position of
    the corpus whose combined score is above zero, once, and nothing else.
    The combined score is the cosine of the query vector and the document
    vector times 4.0, plus 3 per query token found in the title and 2 per
    query token found in the author. *)
Theorem search_returns_positive (log : float → float)
    (set_to_list : gset string → list string) (query : string)
    (books : list Book) (vectors : list (list float))
    (vi : gmap string nat) (idf : gmap string float) :
  lists_sets set_to_list →
  build_tfidf log set_to_list (map document books) = Ok (vectors, vi, idf) →
  ∃ (query_vector : list float) (js : list nat),
    vectorize vi idf (size vi) (tokens_of query) = Ok query_vector ∧
    search_with_ir query books vectors vi idf
      = Ok (map (fun j => books !!! j) js) ∧
    NoDup js ∧
    ∀ j, j ∈ js ↔
         j < length books ∧
         (0 <? combined_score (tokens_of query) query_vector books vectors j)%float
           = true.
Proof.
  intros Hset Hbuild.
  destruct (built_index_shape _ _ _ _ _ _ Hset Hbuild) as [Hlen Hok].
  rewrite length_map in Hlen.
  exists (weights vi idf (size vi) (tokens_of query)).
  eexists. split; [by apply vectorize_weights|].
  split; [apply search_with_ir_value; [done|lia]|].
  split.
  - apply NoDup_filter. rewrite sort_desc_perm. apply NoDup_seq.
  - intros j. rewrite list_elem_of_filter, sort_desc_perm.
    rewrite final_score_combined, list_elem_of_In, in_seq, Hlen.
    split; intros [? ?]; split; (done || lia).
Qed.

Lemma search_returns_positive_witness :
  ∃ (query_vector : list float) (js : list nat),
    vectorize shelf_index.1.2 shelf_index.2 (size shelf_index.1.2)
      (tokens_of "Python") = Ok query_vector ∧
    search_with_ir "Python" shelf shelf_index.1.1 shelf_index.1.2
      shelf_index.2 = Ok (map (fun j => shelf !!! j) js) ∧
    NoDup js ∧
    ∀ j, j ∈ js ↔
         j < length shelf ∧
         (0 <? combined_score (tokens_of "Python") query_vector shelf
                 shelf_index.1.1 j)%float = true.
Proof.
  apply (search_returns_positive log_table elements "Python" shelf
           shelf_index.1.1 shelf_index.1.2 shelf_index.2).
  - exact elements_lists_sets.
  - exact shelf_index_built.
Defined.

(** C3.  For a corpus with the index built from it, the positions [js] of
    the books that [search_with_ir] returns are in ranking order: of two
    returned books the one that comes first has the greater combined score,
    or the same score and the earlier position in the corpus.  The scores
    are assumed not to be NaN, which is what an overflow would make them. *)
Theorem search_order_stable (log : float → float)
    (set_to_list : gset string → list string) (query : string)
    (books : list Book) (vectors : list (list float))
    (vi : gmap string nat) (idf : gmap string float)
    (query_vector : list float) :
  lists_sets set_to_list →
  build_tfidf log set_to_list (map document books) = Ok (vectors, vi, idf) →
  vectorize vi idf (size vi) (tokens_of query) = Ok query_vector →
  (∀ j, j < length books →
        B64.comparable
          (combined_score (tokens_of query) query_vector books vectors j)) →
  ∃ js : list nat,
    search_with_ir query books vectors vi idf
      = Ok (map (fun j => books !!! j) js) ∧
    NoDup js ∧
    Forall (fun j => j < length books) js ∧
    StronglySorted
      (ranked_before
         (combined_score (tokens_of query) query_vector books vectors)
         (fun j => j))
      js.
Proof.
  intros Hset Hbuild Hq Hcmp.
  destruct (built_index_shape _ _ _ _ _ _ Hset Hbuild) as [Hlen Hok].
  rewrite length_map in Hlen.
  rewrite vectorize_weights in Hq by done. injection Hq as <-.
  eexists. split; [apply search_with_ir_value; [done|lia]|].
  rewrite (sort_desc_ext _
    (combined_score (tokens_of query)
       (weights vi idf (size vi) (tokens_of query)) books vectors))
    by (intros; apply final_score_combined).
  split; [|split].
  - apply NoDup_filter. rewrite sort_desc_perm. apply NoDup_seq.
  - apply Forall_forall. intros j [_ Hj]%list_elem_of_filter.
    rewrite sort_desc_perm in Hj. apply list_elem_of_In in Hj.
    apply in_seq in Hj. lia.
  - apply StronglySorted_filter.
    apply sort_desc_ranked; [|apply seq_strongly_sorted].
    apply Forall_forall. intros j Hj. apply Hcmp.
    apply list_elem_of_In in Hj. apply in_seq in Hj. lia.
Qed.

Lemma search_order_stable_witness :
  ∃ js : list nat,
    search_with_ir "guide tech" shelf shelf_index.1.1 shelf_index.1.2
      shelf_index.2 = Ok (map (fun j => shelf !!! j) js) ∧
    NoDup js ∧
    Forall (fun j => j < length shelf) js ∧
    StronglySorted
      (ranked_before
         (combined_score (tokens_of "guide tech")
            (weights shelf_index.1.2 shelf_index.2 (size shelf_index.1.2)
               (tokens_of "guide tech"))
            shelf shelf_index.1.1)
         (fun j => j))
      js.
Proof.
  apply (search_order_stable log_table elements "guide tech" shelf
           shelf_index.1.1 shelf_index.1.2 shelf_index.2).
  - exact elements_lists_sets.
  - exact shelf_index_built.
  - vm_compute. reflexivity.
  - intros [|[|[|j]]] Hj; [vm_compute; reflexivity ..|simpl in Hj; lia].
Defined.

End Ranker.

(** ** The recommender *)

Section Recommender.
Import B64.

Lemma filter_ne_seq_length (i0 n : nat) : ∀ s,
  length (filter (fun j => j ≠ i0) (seq s n))
  = n - (if decide (s ≤ i0 < s + n) then 1 else 0).
Proof.
  induction n as [|n IH]; intros s; simpl.
  - by destruct (decide _).
  - rewrite filter_cons. destruct (decide (s ≠ i0)) as [Hne|Heq]; simpl.
    + rewrite IH. repeat case_decide; lia.
    + rewrite IH. repeat case_decide; lia.
Qed.

Lemma recommend_scores_value (i0 : nat) (books : list Book)
    (doc_vectors : list (list float)) :
  length doc_vectors ≤ length books →
  recommend_scores i0 (doc_vectors !!! i0) books doc_vectors
  = Ok (map (fun j => (books !!! j, similarity_to doc_vectors i0 j))
          (filter (fun j => j ≠ i0) (seq 0 (length doc_vectors)))).
Proof.
  intros Hlen. unfold recommend_scores.
  rewrite (collect_from_seq _
    (fun j => if decide (j ≠ i0)
              then [(books !!! j, similarity_to doc_vectors i0 j)] else [])).
  - by rewrite concat_skip.
  - intros k x Hk. simpl. destruct (decide (k ≠ i0)); [|done].
    rewrite cosine_similarity_value. cbn [mbind result_bind].
    rewrite getitem_lookup_total
      by (apply lookup_lt_Some in Hk; lia).
    cbn [mbind result_bind]. unfold similarity_to.
    by rewrite (list_lookup_total_correct doc_vectors k x).
Qed.

Lemma slice_to_map {A B : Type} (f : A → B) (n : Z) (l : list A) :
  Py.slice_to n (map f l) = map f (Py.slice_to n l).
Proof.
  unfold Py.slice_to. rewrite length_map.
  destruct (0 <=? n)%Z; symmetry; apply fmap_take.
Qed.

Lemma recommend_similar_value (book_idx top_n : Z) (books : list Book)
    (doc_vectors : list (list float)) :
  length doc_vectors ≤ length books →
  (0 <= book_idx < Z.of_nat (length doc_vectors))%Z →
  recommend_similar book_idx books doc_vectors top_n
  = Ok (map (fun j => books !!! j)
          (Py.slice_to top_n
             (Py.sort_desc (similarity_to doc_vectors (Z.to_nat book_idx))
                (filter (fun j => j ≠ Z.to_nat book_idx)
                   (seq 0 (length doc_vectors)))))).
Proof.
  intros Hlen Hidx. unfold recommend_similar.
  case_decide as Hd; [lia|].
  rewrite getitem_lookup_total by lia. cbn [mbind result_bind].
  rewrite recommend_scores_value by done. cbn [mbind result_bind].
  f_equal. rewrite (sort_desc_map snd), slice_to_map.
  rewrite <- list_fmap_compose. apply list_fmap_ext.
  - done.
Qed.

(** C4.  For a corpus with its parallel vector list, a source position
    [book_idx] in range and a count [top_n] that is not negative,
    [recommend_similar] returns the books at positions [js], where [js] has
    exactly [min top_n (N - 1)] members, all distinct and in range, does not
    hold [book_idx], and is in descending order of the similarity to the
    source vector.  The similarities are assumed not to be NaN, which is
    what an overflow would make them. *)
Theorem recommend_ranked (book_idx top_n : Z) (books : list Book)
    (doc_vectors : list (list float)) :
  length books = length doc_vectors →
  (0 <= book_idx < Z.of_nat (length doc_vectors))%Z →
  (0 <= top_n)%Z →
  (∀ j, j < length doc_vectors →
        B64.comparable (similarity_to doc_vectors (Z.to_nat book_idx) j)) →
  ∃ js : list nat,
    recommend_similar book_idx books doc_vectors top_n
      = Ok (map (fun j => books !!! j) js) ∧
    Z.of_nat (length js)
      = Z.min top_n (Z.of_nat (length doc_vectors) - 1) ∧
    (Z.to_nat book_idx ∉ js) ∧
    NoDup js ∧
    Forall (fun j => j < length doc_vectors) js ∧
    StronglySorted
      (not_below (similarity_to doc_vectors (Z.to_nat book_idx))) js.
Proof.
  intros Hlen Hidx Hn Hcmp.
  set (i0 := Z.to_nat book_idx) in *.
  set (sim := similarity_to doc_vectors i0) in *.
  set (others := filter (fun j => j ≠ i0) (seq 0 (length doc_vectors))).
  assert (Hin : ∀ j, j ∈ Py.sort_desc sim others →
                     j ≠ i0 ∧ j < length doc_vectors).
  { intros j Hj. rewrite sort_desc_perm in Hj.
    apply list_elem_of_filter in Hj as [Hne Hj].
    apply list_elem_of_In, in_seq in Hj. split; [done|lia]. }
  exists (take (Z.to_nat top_n) (Py.sort_desc sim others)).
  split; [|split; [|split; [|split; [|split]]]].
  - rewrite recommend_similar_value by (done || lia).
    unfold Py.slice_to. by destruct (Z.leb_spec 0 top_n) as [_|?]; [|lia].
  - rewrite length_take, sort_desc_length. unfold others.
    rewrite filter_ne_seq_length. case_decide; lia.
  - intros Hj. apply elem_of_take in Hj as (k & Hk & _).
    apply list_elem_of_lookup_2 in Hk. apply Hin in Hk. tauto.
  - eapply sublist_NoDup; [|apply sublist_take]. rewrite sort_desc_perm.
    apply NoDup_filter, NoDup_seq.
  - apply Forall_take, Forall_forall. intros j Hj. by apply Hin.
  - apply StronglySorted_take.
    apply (StronglySorted_weaken (ranked_before sim (fun j => j)) _
             (fun j => B64.comparable (sim j))).
    + intros a b Ha Hb. by apply ranked_not_below.
    + apply Forall_forall. intros j Hj. apply Hcmp. by apply Hin.
    + apply sort_desc_ranked.
      * apply Forall_forall. intros j Hj. apply Hcmp.
        apply list_elem_of_filter in Hj as [_ Hj].
        apply list_elem_of_In, in_seq in Hj. lia.
      * apply StronglySorted_filter, seq_strongly_sorted.
Qed.

Lemma recommend_ranked_witness :
  ∃ js : list nat,
    recommend_similar_default 0 shelf [[1; 0]; [1; 1]; [0; 1]]%float
      = Ok (map (fun j => shelf !!! j) js) ∧
    Z.of_nat (length js) = Z.min 4 (Z.of_nat 3 - 1) ∧
    (Z.to_nat 0 ∉ js) ∧
    NoDup js ∧
    Forall (fun j => j < 3) js ∧
    StronglySorted
      (not_below (similarity_to [[1; 0]; [1; 1]; [0; 1]]%float (Z.to_nat 0)))
      js.
Proof.
  apply (recommend_ranked 0 4 shelf [[1; 0]; [1; 1]; [0; 1]]%float).
  - reflexivity.
  - simpl. lia.
  - lia.
  - intros [|[|[|j]]] Hj; [vm_compute; reflexivity ..|simpl in Hj; lia].
Defined.
End Recommender.

(** ** The recommender outside its range *)

(** C5.  For a source position below zero or not below the number of
    document vectors, [recommend_similar] returns the empty list and raises
    nothing. *)
Theorem recommend_out_of_range (book_idx : Z) (books : list Book)
    (doc_vectors : list (list float)) (top_n : Z) :
  (book_idx < 0 ∨ Z.of_nat (length doc_vectors) <= book_idx)%Z →
  recommend_similar book_idx books doc_vectors top_n = Ok [].
Proof.
  intros H. unfold recommend_similar. case_decide as Hd; [done|].
  exfalso. apply Hd. lia.
Qed.

Lemma recommend_out_of_range_witness :
  recommend_similar 3 shelf [[1; 0]; [1; 1]; [0; 1]]%float 4 = Ok [] ∧
  recommend_similar (-1) shelf [[1; 0]; [1; 1]; [0; 1]]%float 4 = Ok [].
Proof.
  split.
  - apply (recommend_out_of_range 3 shelf). right. simpl. lia.
  - apply (recommend_out_of_range (-1) shelf). left. lia.
Defined.

(** ** The layout of the vectors *)

Section Layout.

Lemma tally_None t items : t ∉ items.*1 → tally t items = None.
Proof.
  induction items as [|[w c] items IH]; simpl; [done|].
  intros [Hne Hnin]%not_elem_of_cons. by rewrite decide_False, IH.
Qed.

Lemma counter_add_keys w c :
  (Py.counter_add w c).*1 = if decide (w ∈ c.*1) then c.*1 else c.*1 ++ [w].
Proof.
  induction c as [|[k n] c IH].
  - rewrite decide_False; [done|apply not_elem_of_nil].
  - cbn [Py.counter_add]. rewrite fmap_cons. cbn [fst].
    destruct (decide (k = w)) as [->|Hne].
    + rewrite decide_True by left. by rewrite fmap_cons.
    + rewrite fmap_cons, IH. cbn [fst].
      destruct (decide (w ∈ c.*1)) as [Hin|Hnin].
      * by rewrite decide_True by (by right).
      * rewrite decide_False; [done|].
        intros [?|?]%elem_of_cons; congruence.
Qed.

Lemma counter_add_NoDup w c :
  NoDup c.*1 → NoDup (Py.counter_add w c).*1.
Proof.
  intros Hnd. rewrite counter_add_keys. case_decide as Hin; [done|].
  apply NoDup_app. split; [done|]. split; [|apply NoDup_singleton].
  intros x Hx ->%list_elem_of_singleton. done.
Qed.

Lemma Counter_NoDup tokens : NoDup (Py.Counter tokens).*1.
Proof.
  unfold Py.Counter.
  assert (H : ∀ c, NoDup c.*1 →
    NoDup (fold_left (fun c w => Py.counter_add w c) tokens c).*1).
  { induction tokens as [|w tokens IH]; intros c Hc; simpl; [done|].
    apply IH. by apply counter_add_NoDup. }
  apply H. constructor.
Qed.

Lemma tally_counter_add t w c :
  tally t (Py.counter_add w c)
  = if decide (w = t) then Some (S (default 0 (tally t c))) else tally t c.
Proof.
  induction c as [|[k n] c IH]; simpl.
  - destruct (decide (w = t)); done.
  - destruct (decide (k = w)) as [->|Hkw]; simpl.
    + destruct (decide (w = t)); done.
    + rewrite IH. destruct (decide (k = t)) as [->|Hkt]; [|done].
      by rewrite decide_False.
Qed.

Lemma occurrences_cons t w tokens :
  occurrences t (w :: tokens)
  = (if decide (w = t) then 1 else 0) + occurrences t tokens.
Proof.
  unfold occurrences. rewrite filter_cons. by destruct (decide (w = t)).
Qed.

Lemma tally_fold t tokens : ∀ c,
  tally t (fold_left (fun c w => Py.counter_add w c) tokens c)
  = match tally t c with
    | Some n => Some (n + occurrences t tokens)
    | None => if decide (t ∈ tokens) then Some (occurrences t tokens)
              else None
    end.
Proof.
  induction tokens as [|w tokens IH]; intros c; cbn [fold_left].
  - change (occurrences t []) with 0. destruct (tally t c) as [n|].
    + f_equal. lia.
    + rewrite decide_False; [done|apply not_elem_of_nil].
  - rewrite IH, tally_counter_add, occurrences_cons.
    destruct (decide (w = t)) as [->|Hne].
    + rewrite (decide_True (P := t ∈ t :: tokens)) by left.
      destruct (tally t c); simpl; f_equal; lia.
    + destruct (tally t c); [done|].
      destruct (decide (t ∈ tokens)) as [Hin|Hnin].
      * by rewrite decide_True by (by right).
      * rewrite decide_False; [done|].
        intros [?|?]%elem_of_cons; congruence.
Qed.

Lemma tally_Counter t tokens :
  tally t (Py.Counter tokens)
  = if decide (t ∈ tokens) then Some (occurrences t tokens) else None.
Proof. unfold Py.Counter. by rewrite tally_fold. Qed.

(** The slot of a term holds its count times its idf once the loop over
    the counter is done, whatever slot the table gives the term. *)
Lemma fold_weigh_slot_lookup vi idf t i items : ∀ v : list float,
  (∀ w w' k, vi !! w = Some k → vi !! w' = Some k → w = w') →
  vi !! t = Some i → i < length v → NoDup items.*1 →
  fold_left (weigh_slot vi idf) items v !! i
  = match tally t items with
    | Some c => Some (Py.float_of_nat c * default 0%float (idf !! t))%float
    | None => v !! i
    end.
Proof.
  intros v Hinj Ht. revert v.
  induction items as [|[w c] items IH]; intros v Hi Hnd; simpl; [done|].
  apply NoDup_cons in Hnd as [Hw Hnd].
  rewrite IH by (rewrite ?weigh_slot_length; done).
  destruct (decide (w = t)) as [->|Hne].
  - rewrite tally_None by done. unfold weigh_slot. simpl. rewrite Ht.
    by apply list_lookup_insert_eq.
  - destruct (tally t items); [done|].
    unfold weigh_slot. simpl. destruct (vi !! w) as [k|] eqn:Ek; [|done].
    apply list_lookup_insert_ne. intros ->. apply Hne. by eapply Hinj.
Qed.

Lemma weights_lookup vi idf n tokens t i :
  (∀ w w' k, vi !! w = Some k → vi !! w' = Some k → w = w') →
  vi !! t = Some i → i < n →
  weights vi idf n tokens !! i = Some (term_weight idf tokens t).
Proof.
  intros Hinj Ht Hi. unfold weights.
  rewrite (fold_weigh_slot_lookup vi idf t i);
    [|done|done|by rewrite length_replicate|apply Counter_NoDup].
  rewrite tally_Counter. unfold term_weight.
  case_decide; [done|]. by apply lookup_replicate_2.
Qed.

Lemma vocab_index_of_inj vocab w w' k :
  vocab_index_of vocab !! w = Some k → vocab_index_of vocab !! w' = Some k →
  w = w'.
Proof.
  intros H1%vocab_index_of_lookup H2%vocab_index_of_lookup. congruence.
Qed.

Lemma turned_lists_sets : lists_sets turned.
Proof.
  intros X. unfold turned. rewrite Permutation_app_comm.
  by rewrite take_drop.
Qed.

Lemma pile_index_built set_to_list :
  build_tfidf log_table set_to_list (map document pile)
  = Ok ((pile_index set_to_list).1.1, (pile_index set_to_list).1.2,
        (pile_index set_to_list).2).
Proof. unfold pile_index. by rewrite build_tfidf_value. Qed.

Lemma built_vector_lookup log set_to_list books vectors vi idf j t i :
  lists_sets set_to_list →
  build_tfidf log set_to_list (map document books) = Ok (vectors, vi, idf) →
  j < length books → vi !! t = Some i →
  (vectors !!! j) !! i
  = Some (term_weight idf (tokens_of (document (books !!! j))) t).
Proof.
  intros Hset. rewrite build_tfidf_value. intros [= <- <- <-] Hj Ht.
  erewrite (list_lookup_total_correct _ j);
    [|rewrite !list_lookup_fmap, (list_lookup_lookup_total_lt books j) by done;
      reflexivity].
  apply weights_lookup; [apply vocab_index_of_inj|done|].
  by eapply vocab_index_of_ok.
Qed.

Lemma built_idf_lookup log set_to_list documents vectors vi idf t :
  lists_sets set_to_list →
  build_tfidf log set_to_list documents = Ok (vectors, vi, idf) →
  idf !! t
  = (if decide (t ∈ vocabulary documents)
     then Some (idf_weight log (length documents) (df documents t))
     else None) ∧
  (is_Some (vi !! t) ↔ t ∈ vocabulary documents).
Proof.
  intros Hset. rewrite build_tfidf_value. intros [= <- <- <-].
  assert (Hnd : NoDup (set_to_list (vocabulary documents))).
  { rewrite (Hset _). apply NoDup_elements. }
  assert (Hin : t ∈ set_to_list (vocabulary documents)
                ↔ t ∈ vocabulary documents).
  { rewrite (Hset _). apply elem_of_elements. }
  split.
  - rewrite idf_table_lookup.
    repeat case_decide; try done; exfalso; tauto.
  - by rewrite <- vocab_index_of_dom.
Qed.

End Layout.

(** C10 does not hold as stated.  The corpus [pile] indexed under two listings of
    its vocabulary, [elements] and [turned]: the recommendations for the
    first book come out in opposite orders.  The second and the third book
    are equally similar to the first in exact arithmetic; the norm of the
    first vector is a float sum taken in slot order, its last bit differs
    between the two layouts, and that settles the tie one way or the
    other. *)
Lemma recommend_depends_on_slots :
  lists_sets elements ∧ lists_sets turned ∧
  build_tfidf log_table elements (map document pile)
    = Ok (pile_index elements) ∧
  build_tfidf log_table turned (map document pile)
    = Ok (pile_index turned) ∧
  recommend_similar 0 pile (pile_index elements).1.1 4
    = Ok [pile !!! 2; pile !!! 1] ∧
  recommend_similar 0 pile (pile_index turned).1.1 4
    = Ok [pile !!! 1; pile !!! 2].
Proof.
  split; [exact elements_lists_sets|]. split; [exact turned_lists_sets|].
  split; [unfold pile_index; by rewrite build_tfidf_value|].
  split; [unfold pile_index; by rewrite build_tfidf_value|].
  split; vm_compute; reflexivity.
Qed.

(** C10, amended.  Two indexes built from one corpus under two listings of
    the vocabulary have the same idf table and the same terms, and in every
    document vector the slot of a term holds the same weight, the count of
    the term times its idf.  [search_with_ir] and [recommend_similar] give
    the same output under both whenever the cosine scores they compute are
    the same floats; the sums behind those scores run in slot order, so a
    re-layout can change their last bit and with it the ranking. *)
Theorem slot_layout_weights (log : float → float)
    (list1 list2 : gset string → list string) (books : list Book)
    (v1 v2 : list (list float)) (vi1 vi2 : gmap string nat)
    (idf1 idf2 : gmap string float) :
  lists_sets list1 → lists_sets list2 →
  build_tfidf log list1 (map document books) = Ok (v1, vi1, idf1) →
  build_tfidf log list2 (map document books) = Ok (v2, vi2, idf2) →
  idf1 = idf2 ∧
  (∀ t, is_Some (vi1 !! t) ↔ is_Some (vi2 !! t)) ∧
  (∀ j t i1 i2,
     j < length books → vi1 !! t = Some i1 → vi2 !! t = Some i2 →
     let w := term_weight idf1 (tokens_of (document (books !!! j))) t in
     (v1 !!! j) !! i1 = Some w ∧ (v2 !!! j) !! i2 = Some w) ∧
  (∀ query qv1 qv2,
     vectorize vi1 idf1 (size vi1) (tokens_of query) = Ok qv1 →
     vectorize vi2 idf2 (size vi2) (tokens_of query) = Ok qv2 →
     (∀ j, j < length books →
           cosine_similarity qv1 (v1 !!! j)
           = cosine_similarity qv2 (v2 !!! j)) →
     search_with_ir query books v1 vi1 idf1
     = search_with_ir query books v2 vi2 idf2) ∧
  (∀ book_idx top_n,
     (∀ j, j < length books →
           cosine_similarity (v1 !!! Z.to_nat book_idx) (v1 !!! j)
           = cosine_similarity (v2 !!! Z.to_nat book_idx) (v2 !!! j)) →
     recommend_similar book_idx books v1 top_n
     = recommend_similar book_idx books v2 top_n).
Proof.
  intros Hs1 Hs2 Hb1 Hb2.
  destruct (built_index_shape _ _ _ _ _ _ Hs1 Hb1) as [Hl1 Hok1].
  destruct (built_index_shape _ _ _ _ _ _ Hs2 Hb2) as [Hl2 Hok2].
  rewrite length_map in Hl1, Hl2.
  assert (Hidf : idf1 = idf2).
  { apply map_eq. intros t.
    rewrite (proj1 (built_idf_lookup _ _ _ _ _ _ t Hs1 Hb1)).
    by rewrite (proj1 (built_idf_lookup _ _ _ _ _ _ t Hs2 Hb2)). }
  split; [exact Hidf|]. split; [|split; [|split]].
  - intros t.
    rewrite (proj2 (built_idf_lookup _ _ _ _ _ _ t Hs1 Hb1)).
    by rewrite (proj2 (built_idf_lookup _ _ _ _ _ _ t Hs2 Hb2)).
  - intros j t i1 i2 Hj H1 H2. split.
    + exact (built_vector_lookup log list1 books v1 vi1 idf1 j t i1
               Hs1 Hb1 Hj H1).
    + rewrite Hidf.
      exact (built_vector_lookup log list2 books v2 vi2 idf2 j t i2
               Hs2 Hb2 Hj H2).
  - intros query qv1 qv2 Hq1 Hq2 Hcos.
    rewrite vectorize_weights in Hq1, Hq2 by done.
    injection Hq1 as <-. injection Hq2 as <-.
    rewrite !search_with_ir_value by (done || lia).
    rewrite Hl1, Hl2.
    assert (Hsc : ∀ j, j ∈ seq 0 (length books) →
      score_at (tokens_of query)
        (weights vi1 idf1 (size vi1) (tokens_of query)) books v1 j
      = score_at (tokens_of query)
          (weights vi2 idf2 (size vi2) (tokens_of query)) books v2 j).
    { intros j Hj. apply list_elem_of_In, in_seq in Hj.
      pose proof (Hcos j ltac:(lia)) as Hc.
      rewrite !cosine_similarity_value in Hc. injection Hc as Hc.
      unfold score_at. by rewrite Hc. }
    rewrite (sort_desc_ext _ _ _ Hsc). do 2 f_equal.
    apply filter_ext_in. intros j Hj. rewrite sort_desc_perm in Hj.
    by rewrite (Hsc j Hj).
  - intros book_idx top_n Hcos.
    destruct (decide (book_idx < 0 ∨ book_idx >= Z.of_nat (length books))%Z)
      as [Hout|Hin].
    { unfold recommend_similar. rewrite Hl1, Hl2.
      destruct (decide _) as [_|Hn]; [done|tauto]. }
    rewrite !recommend_similar_value by lia. rewrite Hl1, Hl2.
    do 3 f_equal. apply sort_desc_ext. intros j Hj.
    apply list_elem_of_filter in Hj as [_ Hj].
    apply list_elem_of_In, in_seq in Hj.
    pose proof (Hcos j ltac:(lia)) as Hc.
    rewrite !cosine_similarity_value in Hc. by injection Hc.
Qed.

Lemma slot_layout_weights_witness :
  (pile_index elements).2 = (pile_index turned).2 ∧
  (∀ t, is_Some ((pile_index elements).1.2 !! t)
        ↔ is_Some ((pile_index turned).1.2 !! t)) ∧
  (∀ j t i1 i2,
     j < length pile →
     (pile_index elements).1.2 !! t = Some i1 →
     (pile_index turned).1.2 !! t = Some i2 →
     let w := term_weight (pile_index elements).2
                (tokens_of (document (pile !!! j))) t in
     ((pile_index elements).1.1 !!! j) !! i1 = Some w ∧
     ((pile_index turned).1.1 !!! j) !! i2 = Some w) ∧
  (∀ query qv1 qv2,
     vectorize (pile_index elements).1.2 (pile_index elements).2
       (size (pile_index elements).1.2) (tokens_of query) = Ok qv1 →
     vectorize (pile_index turned).1.2 (pile_index turned).2
       (size (pile_index turned).1.2) (tokens_of query) = Ok qv2 →
     (∀ j, j < length pile →
           cosine_similarity qv1 ((pile_index elements).1.1 !!! j)
           = cosine_similarity qv2 ((pile_index turned).1.1 !!! j)) →
     search_with_ir query pile (pile_index elements).1.1
       (pile_index elements).1.2 (pile_index elements).2
     = search_with_ir query pile (pile_index turned).1.1
         (pile_index turned).1.2 (pile_index turned).2) ∧
  (∀ book_idx top_n,
     (∀ j, j < length pile →
           cosine_similarity
             ((pile_index elements).1.1 !!! Z.to_nat book_idx)
             ((pile_index elements).1.1 !!! j)
           = cosine_similarity
               ((pile_index turned).1.1 !!! Z.to_nat book_idx)
               ((pile_index turned).1.1 !!! j)) →
     recommend_similar book_idx pile (pile_index elements).1.1 top_n
     = recommend_similar book_idx pile (pile_index turned).1.1 top_n).
Proof.
  apply (slot_layout_weights log_table elements turned pile).
  - exact elements_lists_sets.
  - exact turned_lists_sets.
  - apply pile_index_built.
  - apply pile_index_built.
Defined.

(** ** The tokens of a document *)

Section DocumentTokens.
Import Str.

Lemma chars_app (a b : string) :
  list_ascii_of_string (a ++ b)
  = list_ascii_of_string a ++ list_ascii_of_string b.
Proof. induction a as [|c a IH]; simpl; [done|]. by rewrite IH. Qed.

Lemma tokens_chars (s : string) :
  tokens_of s
  = split_from []
      (map (fun c => replace_char "." " " (replace_char "," " " (lower_char c)))
         (list_ascii_of_string s)).
Proof.
  unfold tokens_of. rewrite tokenize_unfold.
  unfold split, replace, lower. rewrite !chars_of_list, !map_map. done.
Qed.

Lemma split_from_space (l1 l2 : list ascii) (c : ascii) : ∀ cur,
  isspace c = true →
  split_from cur (l1 ++ c :: l2) = split_from cur l1 ++ split_from [] l2.
Proof.
  induction l1 as [|x l1 IH]; intros cur Hc; simpl.
  - by rewrite Hc.
  - destruct (isspace x); [|by apply IH].
    rewrite IH by done. by rewrite app_assoc.
Qed.

Lemma tokens_app (a b : string) :
  tokens_of (a ++ " " ++ b) = tokens_of a ++ tokens_of b.
Proof.
  rewrite !tokens_chars, chars_app. simpl list_ascii_of_string.
  rewrite map_app. simpl map.
  change (replace_char "." " " (replace_char "," " " (lower_char " ")))
    with " "%char.
  by apply split_from_space.
Qed.

(** A run without white space is one token. *)
Lemma split_from_run (l : list ascii) : ∀ cur,
  Forall (fun c => isspace c = false) l →
  split_from cur l = flush (cur ++ l).
Proof.
  induction l as [|c l IH]; intros cur Hl; simpl.
  - by rewrite app_nil_r.
  - inversion Hl as [|? ? Hc Hl']; subst. rewrite Hc, IH by done.
    by rewrite <- app_assoc.
Qed.

Lemma normalise_idem (c0 : ascii) :
  let c := replace_char "." " " (replace_char "," " " (lower_char c0)) in
  replace_char "." " " (replace_char "," " " (lower_char c)) = c.
Proof.
  destruct c0 as [[] [] [] [] [] [] [] []]; vm_compute; reflexivity.
Qed.

Lemma string_of_chars (s : string) :
  string_of_list_ascii (list_ascii_of_string s) = s.
Proof. apply string_of_list_ascii_of_string. Qed.

Lemma tokens_of_document (b : Book) :
  tokens_of (document b)
  = tokens_of (title b) ++ tokens_of (author b) ++ tokens_of (category b)
    ++ tokens_of (description b).
Proof. unfold document. by rewrite !tokens_app. Qed.

End DocumentTokens.

(** X1.  Tokenizing two texts joined by a space gives the tokens of the
    first followed by the tokens of the second; so the tokens a book is
    indexed under are those of its title, then of its author, of its
    category and of its description. *)
Theorem document_tokens :
  (∀ a b : string, tokens_of (a ++ " " ++ b) = tokens_of a ++ tokens_of b) ∧
  (∀ b : Book,
     tokens_of (document b)
     = tokens_of (title b) ++ tokens_of (author b) ++ tokens_of (category b)
       ++ tokens_of (description b)).
Proof. split; [apply tokens_app|apply tokens_of_document]. Qed.

(** X2.  A token is a fixed point of the tokenizer: tokenizing a token of
    any text gives that token alone. *)
Theorem token_fixed_point (text : option string) (t : string) :
  t ∈ tokenize text → tokenize (Some t) = [t].
Proof.
  intros Ht. destruct text as [s|]; [|by apply elem_of_nil in Ht].
  rewrite tokenize_unfold in Ht. apply pipeline_chars in Ht as [Hne Hall].
  change (tokenize (Some t)) with (tokens_of t). rewrite tokens_chars.
  assert (map (fun c => Str.replace_char "." " "
                          (Str.replace_char "," " " (Str.lower_char c)))
            (list_ascii_of_string t) = list_ascii_of_string t) as ->.
  { rewrite <- (map_id (list_ascii_of_string t)) at 2.
    apply map_ext_in. intros c Hc.
    rewrite Forall_forall in Hall.
    destruct (Hall c) as [_ (c0 & _ & ->)]; [by apply list_elem_of_In|].
    apply normalise_idem. }
  rewrite split_from_run.
  - rewrite app_nil_l. destruct (list_ascii_of_string t) eqn:E; [done|].
    unfold Str.flush. by rewrite <- E, string_of_chars.
  - eapply Forall_impl; [exact Hall|]. by intros c [? _].
Qed.

Lemma token_fixed_point_witness :
  tokenize (Some "world"%string) = ["world"%string].
Proof.
  apply (token_fixed_point (Some "Hello, World."%string)).
  apply (bool_decide_unpack _). vm_compute. exact I.
Defined.

(** ** The shape of the index *)

Section IndexShape.

Lemma fold_weigh_slot_length vi idf items : ∀ v : list float,
  length (fold_left (weigh_slot vi idf) items v) = length v.
Proof.
  induction items as [|item items IH]; intros v; simpl; [done|].
  by rewrite IH, weigh_slot_length.
Qed.

Lemma weights_length vi idf n tokens : length (weights vi idf n tokens) = n.
Proof. unfold weights. by rewrite fold_weigh_slot_length, length_replicate. Qed.

Lemma lists_sets_NoDup set_to_list (X : gset string) :
  lists_sets set_to_list → NoDup (set_to_list X).
Proof. intros Hset. rewrite (Hset _). apply NoDup_elements. Qed.

Lemma lists_sets_elem set_to_list (X : gset string) w :
  lists_sets set_to_list → w ∈ set_to_list X ↔ w ∈ X.
Proof. intros Hset. rewrite (Hset _). apply elem_of_elements. Qed.

Lemma lists_sets_length set_to_list (X : gset string) :
  lists_sets set_to_list → length (set_to_list X) = size X.
Proof. intros Hset. by rewrite (Hset _). Qed.

(** *** The items of a [Counter] and the tokens that are left out *)

Lemma counter_add_filter (P : string → Prop) `{∀ w, Decision (P w)} w c :
  filter (fun item => P item.1) (Py.counter_add w c)
  = if decide (P w) then Py.counter_add w (filter (fun item => P item.1) c)
    else filter (fun item => P item.1) c.
Proof.
  induction c as [|[k n] c IH].
  - cbn [Py.counter_add]. rewrite filter_cons, filter_nil. simpl.
    by destruct (decide (P w)).
  - cbn [Py.counter_add]. destruct (decide (k = w)) as [->|Hne].
    + rewrite !filter_cons. simpl. destruct (decide (P w)); [|done].
      cbn [Py.counter_add]. by rewrite decide_True.
    + rewrite !filter_cons. simpl. rewrite IH.
      destruct (decide (P k)), (decide (P w)); try done.
      cbn [Py.counter_add]. by rewrite decide_False.
Qed.

Lemma Counter_filter (P : string → Prop) `{∀ w, Decision (P w)} tokens :
  Py.Counter (filter P tokens)
  = filter (fun item => P item.1) (Py.Counter tokens).
Proof.
  unfold Py.Counter. change (@nil (string * nat))
    with (filter (fun item : string * nat => P item.1) []) at 1.
  generalize (@nil (string * nat)).
  induction tokens as [|w tokens IH]; intros c; [done|].
  rewrite filter_cons. cbn [fold_left]. rewrite <- IH, counter_add_filter.
  by destruct (decide (P w)).
Qed.

Lemma for_each_filter {A S : Type} (body : S → A → result S)
    (P : A → Prop) `{∀ x, Decision (P x)} (l : list A) : ∀ s,
  (∀ s x, ¬ P x → body s x = Ok s) →
  Py.for_each body s (filter P l) = Py.for_each body s l.
Proof.
  induction l as [|x l IH]; intros s Hskip; [done|].
  rewrite filter_cons. destruct (decide (P x)) as [Hx|Hx]; simpl.
  - destruct (body s x); simpl; [by apply IH|done].
  - rewrite (Hskip s x Hx). simpl. by apply IH.
Qed.

Lemma vectorize_known vi idf n tokens :
  vectorize vi idf n tokens
  = vectorize vi idf n (filter (fun t => is_Some (vi !! t)) tokens).
Proof.
  unfold vectorize. rewrite Counter_filter. symmetry.
  apply (for_each_filter (weigh vi idf) (fun item => is_Some (vi !! item.1))).
  intros v [w c] Hw. simpl in *.
  destruct (vi !! w); [|done]. by destruct Hw.
Qed.

Lemma filter_none {A : Type} (P : A → Prop) `{∀ x, Decision (P x)}
    (l : list A) :
  (∀ x, x ∈ l → ¬ P x) → filter P l = [].
Proof.
  induction l as [|x l IH]; intros Hl; [done|].
  rewrite filter_cons, decide_False by (apply Hl; left).
  apply IH. intros y Hy. apply Hl. by right.
Qed.

Lemma vectorize_unknown vi idf n tokens :
  (∀ t, t ∈ tokens → vi !! t = None) →
  vectorize vi idf n tokens = Ok (replicate n 0%float).
Proof.
  intros Hun. rewrite vectorize_known, filter_none; [done|].
  intros t Ht [i Hi]. rewrite (Hun t Ht) in Hi. done.
Qed.

End IndexShape.

(** X3.  [build_tfidf] raises nothing.  It returns one vector for every
    document, each as long as the slot table; the keys of the slot table
    and of the idf table are the vocabulary. *)
Theorem build_tfidf_shape (log : float → float)
    (set_to_list : gset string → list string) (documents : list string) :
  lists_sets set_to_list →
  ∃ (vectors : list (list float)) (vi : gmap string nat)
    (idf : gmap string float),
    build_tfidf log set_to_list documents = Ok (vectors, vi, idf) ∧
    length vectors = length documents ∧
    Forall (fun v => length v = size vi) vectors ∧
    dom vi = vocabulary documents ∧ dom idf = vocabulary documents.
Proof.
  intros Hset. rewrite build_tfidf_value. eexists _, _, _.
  split; [reflexivity|].
  pose proof (lists_sets_NoDup _ (vocabulary documents) Hset) as Hnd.
  split; [by rewrite length_map|]. split; [|split].
  - apply Forall_fmap, Forall_forall. intros doc _. simpl.
    by rewrite weights_length, vocab_index_of_size.
  - apply set_eq. intros w. rewrite elem_of_dom, <- vocab_index_of_dom by done.
    by apply lists_sets_elem.
  - apply set_eq. intros w. rewrite elem_of_dom, idf_table_lookup.
    rewrite <- (lists_sets_elem set_to_list) by done.
    case_decide; split; intros; try done; by destruct H1.
Qed.

Lemma build_tfidf_shape_witness :
  ∃ (vectors : list (list float)) (vi : gmap string nat)
    (idf : gmap string float),
    build_tfidf log_table elements (map document shelf)
      = Ok (vectors, vi, idf) ∧
    length vectors = length (map document shelf) ∧
    Forall (fun v => length v = size vi) vectors ∧
    dom vi = vocabulary (map document shelf) ∧
    dom idf = vocabulary (map document shelf).
Proof.
  apply (build_tfidf_shape log_table elements (map document shelf)).
  exact elements_lists_sets.
Defined.

(** X4.  The slot table numbers the vocabulary: it has as many entries as
    the vocabulary has terms, every slot is below that number, every
    number below it is the slot of a term, and no two terms share a
    slot. *)
Theorem slots_one_to_one (log : float → float)
    (set_to_list : gset string → list string) (documents : list string)
    (vectors : list (list float)) (vi : gmap string nat)
    (idf : gmap string float) :
  lists_sets set_to_list →
  build_tfidf log set_to_list documents = Ok (vectors, vi, idf) →
  size vi = size (vocabulary documents) ∧
  (∀ t i, vi !! t = Some i → i < size vi) ∧
  (∀ i, i < size vi → ∃ t, vi !! t = Some i) ∧
  (∀ t t' i, vi !! t = Some i → vi !! t' = Some i → t = t').
Proof.
  intros Hset. rewrite build_tfidf_value. intros [= <- <- <-].
  pose proof (lists_sets_NoDup _ (vocabulary documents) Hset) as Hnd.
  rewrite vocab_index_of_size by done. split; [|split; [|split]].
  - by apply lists_sets_length.
  - intros t i. apply vocab_index_of_ok.
  - intros i Hi. apply lookup_lt_is_Some_2 in Hi as [t Ht].
    exists t. by apply vocab_index_of_slot.
  - intros t t' i. apply vocab_index_of_inj.
Qed.

Lemma slots_one_to_one_witness :
  size shelf_index.1.2 = size (vocabulary (map document shelf)) ∧
  (∀ t i, shelf_index.1.2 !! t = Some i → i < size shelf_index.1.2) ∧
  (∀ i, i < size shelf_index.1.2 → ∃ t, shelf_index.1.2 !! t = Some i) ∧
  (∀ t t' i, shelf_index.1.2 !! t = Some i →
             shelf_index.1.2 !! t' = Some i → t = t').
Proof.
  apply (slots_one_to_one log_table elements (map document shelf)
           shelf_index.1.1 shelf_index.1.2 shelf_index.2).
  - exact elements_lists_sets.
  - exact shelf_index_built.
Defined.

(** X5.  Tokens without a slot are ignored: [vectorize] does to a token
    sequence what it does to its tokens that have a slot, and if none has
    one it returns the zero vector. *)
Theorem vectorize_ignores_unknown (vi : gmap string nat)
    (idf : gmap string float) (n : nat) (tokens : list string) :
  vectorize vi idf n tokens
  = vectorize vi idf n (filter (fun t => is_Some (vi !! t)) tokens) ∧
  ((∀ t, t ∈ tokens → vi !! t = None) →
   vectorize vi idf n tokens = Ok (replicate n 0%float)).
Proof. split; [apply vectorize_known|apply vectorize_unknown]. Qed.

(** ** Sums of floats that are not below zero *)

Section Binary64Sums.
Import B64.
Local Open Scope Z_scope.
Local Open Scope float_scope.

Lemma SFadd_finite_positive mx ex my ey :
  (-1074 <= ex)%Z -> (-1074 <= ey)%Z ->
  match SFadd prec emax (S754_finite false mx ex) (S754_finite false my ey) with
  | S754_finite false _ _ | S754_infinity false => True
  | _ => False
  end.
Proof.
  intros Hx Hy. unfold SFadd. cbn [cond_Zopp]. set (ez := Z.min ex ey).
  set (a := fst (shl_align mx ex ez)).
  set (b := fst (shl_align my ey ez)).
  change (Zpos a + Zpos b)%Z with (Zpos (a + b)).
  unfold binary_normalize, binary_round.
  pose proof (shl_align_exponent (a + b) ez
                (fexp prec emax (Zpos (digits2_pos (a + b)) + ez))) as Hz.
  rewrite fexp64 in Hz.
  destruct (shl_align (a + b) ez _) as [mz ez']. cbn [snd] in Hz.
  pose proof (round_aux_lower (-1073) false (Zpos mz) ez' loc_Exact
                ltac:(lia) ltac:(lia)) as Hr.
  pose proof (round_aux_sign false (Zpos mz) ez' loc_Exact) as Hs.
  pose proof (Z.log2_nonneg (Zpos mz)).
  destruct (binary_round_aux prec emax false (Zpos mz) ez' loc_Exact)
    as [?|[]| |[] ? ?]; simpl in Hs; try discriminate; try exact I;
    apply Hr; subst ez; lia.
Qed.

Lemma leb_zero_sf x :
  (0 <=? x) = true <->
  match Prim2SF x with
  | S754_zero _ | S754_finite false _ _ | S754_infinity false => True
  | _ => False
  end.
Proof.
  rewrite leb_spec. change (Prim2SF 0) with (S754_zero false).
  destruct (Prim2SF x) as [s|[]| |[] m e]; cbv; split; congruence || tauto.
Qed.

Lemma ltb_zero_sf x :
  (0 <? x) = true <->
  match Prim2SF x with
  | S754_finite false _ _ | S754_infinity false => True
  | _ => False
  end.
Proof.
  rewrite ltb_spec. change (Prim2SF 0) with (S754_zero false).
  destruct (Prim2SF x) as [s|[]| |[] m e]; cbv; split; congruence || tauto.
Qed.

Lemma add_positive_r x y :
  (0 <=? x) = true -> (0 <? y) = true -> (0 <? x + y) = true.
Proof.
  rewrite leb_zero_sf, !ltb_zero_sf, add_spec. unfold SF64add.
  pose proof (Prim2SF_valid x) as Hx. pose proof (Prim2SF_valid y) as Hy.
  destruct (Prim2SF x) as [sx|[]| |[] mx ex]; try contradiction;
    destruct (Prim2SF y) as [sy|[]| |[] my ey]; try contradiction;
    intros _ _; try exact I.
  apply SFadd_finite_positive; by eapply valid_exponent.
Qed.

Lemma add_positive_l x y :
  (0 <? x) = true -> (0 <=? y) = true -> (0 <? x + y) = true.
Proof.
  rewrite leb_zero_sf, !ltb_zero_sf, add_spec. unfold SF64add.
  pose proof (Prim2SF_valid x) as Hx. pose proof (Prim2SF_valid y) as Hy.
  destruct (Prim2SF x) as [sx|[]| |[] mx ex]; try contradiction;
    destruct (Prim2SF y) as [sy|[]| |[] my ey]; try contradiction;
    intros _ _; try exact I.
  apply SFadd_finite_positive; by eapply valid_exponent.
Qed.

Lemma ltb_leb_zero x : (0 <? x) = true -> (0 <=? x) = true.
Proof.
  rewrite leb_zero_sf, ltb_zero_sf. by destruct (Prim2SF x) as [?|[]| |[] ? ?].
Qed.

Lemma add_not_below_zero x y :
  (0 <=? x) = true -> (0 <=? y) = true -> (0 <=? x + y) = true.
Proof.
  intros Hx Hy. destruct (0 <? y) eqn:E.
  - by apply ltb_leb_zero, add_positive_r.
  - revert Hx Hy E. rewrite !leb_zero_sf, <- not_true_iff_false, ltb_zero_sf.
    rewrite add_spec. unfold SF64add.
    destruct (Prim2SF x) as [sx|[]| |[] mx ex]; try contradiction;
    destruct (Prim2SF y) as [sy|[]| |[] my ey]; try contradiction;
      intros _ _ E; try exact I; try (by destruct E).
    by destruct sx, sy.
Qed.

Lemma leb_zero_of_not_negative x :
  not_negative x -> comparable x -> (0 <=? x) = true.
Proof.
  rewrite not_negative_sf, comparable_sf, leb_zero_sf.
  by destruct (Prim2SF x) as [?|[]| |[] ? ?].
Qed.

Lemma mul_four_not_below_zero x : (0 <=? x) = true -> (0 <=? x * 4) = true.
Proof.
  intros Hx. apply leb_zero_of_not_negative.
  - apply mul_not_negative; [|reflexivity].
    by apply not_negative_of_leb.
  - revert Hx. rewrite leb_zero_sf, comparable_sf, mul_spec. unfold SF64mul.
    change (Prim2SF 4) with (S754_finite false 4503599627370496 (-50)).
    destruct (Prim2SF x) as [?|[]| |[] m e] eqn:E; try contradiction;
      intros _; try reflexivity.
    unfold SFmul. cbn [xorb].
    pose proof (Prim2SF_valid x) as Hv. rewrite E in Hv.
    apply valid_exponent in Hv.
    pose proof (round_aux_lower (-1073) false (Zpos (m * 4503599627370496))
                  (e + -50) loc_Exact ltac:(lia) ltac:(lia)) as Hr.
    assert (Hl : (52 <= Z.log2 (Zpos (m * 4503599627370496)))%Z).
    { change 52%Z with (Z.log2 (2 ^ 52)). apply Z.log2_le_mono.
      rewrite Pos2Z.inj_mul. change (Zpos 4503599627370496) with (2 ^ 52)%Z.
      nia. }
    destruct (binary_round_aux _ _ _ _ _ _); try reflexivity.
    exfalso. apply Hr. lia.
Qed.

Lemma float_of_nat_positive (a : nat) :
  (0 < a)%nat -> (Z.of_nat a < 2 ^ 53)%Z -> (0 <? Py.float_of_nat a) = true.
Proof.
  intros Ha Hb. destruct (float_of_nat_sf a Ha Hb) as (m & Hm & _).
  rewrite ltb_zero_sf. by rewrite Hm.
Qed.

End Binary64Sums.

(** ** Queries and what they find *)

Section QueryFacts.
Import B64.

Lemma float_of_nat_not_negative (a : nat) : not_negative (Py.float_of_nat a).
Proof.
  rewrite not_negative_sf. unfold Py.float_of_nat. rewrite of_uint63_spec.
  pose proof (Uint63.to_Z_bounded (Uint63.of_Z (Z.of_nat a))) as Hb.
  destruct (Uint63.to_Z _) as [|p|p]; [reflexivity| |lia].
  unfold binary_normalize, binary_round.
  destruct (shl_align _ _ _). apply round_aux_nn.
Qed.

Lemma float_of_nat_not_below_zero (a : nat) :
  (Z.of_nat a < 2 ^ 53)%Z → (0 <=? Py.float_of_nat a)%float = true.
Proof.
  intros Ha. destruct a as [|a]; [reflexivity|].
  apply ltb_leb_zero, float_of_nat_positive; [lia|done].
Qed.

Lemma fold_weigh_slot_not_negative vi idf items : ∀ v : list float,
  (∀ w x, idf !! w = Some x → not_negative x) →
  Forall not_negative v →
  Forall not_negative (fold_left (weigh_slot vi idf) items v).
Proof.
  induction items as [|[w c] items IH]; intros v Hidf Hv; simpl; [done|].
  apply IH; [done|]. unfold weigh_slot. simpl.
  destruct (vi !! w); [|done]. apply Forall_insert; [done|].
  apply mul_not_negative; [apply float_of_nat_not_negative|].
  destruct (idf !! w) eqn:E; simpl; [by eapply Hidf|reflexivity].
Qed.

Lemma weights_not_negative vi idf n tokens :
  (∀ w x, idf !! w = Some x → not_negative x) →
  Forall not_negative (weights vi idf n tokens).
Proof.
  intros Hidf. apply fold_weigh_slot_not_negative; [done|].
  apply Forall_replicate. reflexivity.
Qed.

Lemma built_idf_not_negative log set_to_list documents vectors vi idf :
  lists_sets set_to_list →
  (∀ x, (1 <=? x)%float = true → (0 <=? log x)%float = true) →
  (Z.of_nat (length documents) + 1 < 2 ^ 53)%Z →
  build_tfidf log set_to_list documents = Ok (vectors, vi, idf) →
  ∀ w x, idf !! w = Some x → not_negative x.
Proof.
  intros Hset Hlog HN Hb w x.
  destruct (built_idf_lookup _ _ _ _ _ _ w Hset Hb) as [-> _].
  case_decide; [|done]. intros [= <-].
  apply not_negative_of_leb, ltb_leb_zero, add_one_positive, Hlog.
  apply float_of_nat_quotient; [|done].
  rewrite df_count. apply length_filter.
Qed.

Lemma built_vectors_not_negative log set_to_list documents vectors vi idf :
  lists_sets set_to_list →
  (∀ x, (1 <=? x)%float = true → (0 <=? log x)%float = true) →
  (Z.of_nat (length documents) + 1 < 2 ^ 53)%Z →
  build_tfidf log set_to_list documents = Ok (vectors, vi, idf) →
  Forall (Forall not_negative) vectors.
Proof.
  intros Hset Hlog HN Hb.
  pose proof (built_idf_not_negative _ _ _ _ _ _ Hset Hlog HN Hb) as Hidf.
  revert Hb Hidf. rewrite build_tfidf_value. intros [= <- <- <-] Hidf.
  apply Forall_fmap, Forall_forall. intros doc _.
  by apply weights_not_negative.
Qed.

(** *** The zero vector *)

Lemma fold_add_zeros (n : nat) :
  fold_left PrimFloat.add (replicate n (0 * 0)%float) 0%float = 0%float.
Proof. induction n as [|n IH]; [done|]. simpl. exact IH. Qed.

Lemma norm_zeros (n : nat) : norm (replicate n 0%float) = 0%float.
Proof.
  unfold norm, Py.fsum.
  change (map (fun x => x * x)%float (replicate n 0%float))
    with ((fun x => x * x)%float <$> replicate n 0%float).
  rewrite fmap_replicate, fold_add_zeros. reflexivity.
Qed.

Lemma cosine_value_zeros (n : nat) (v : list float) :
  cosine_value (replicate n 0%float) v = 0%float.
Proof.
  unfold cosine_value. rewrite norm_zeros.
  destruct (replicate n 0%float); [done|]. by destruct v.
Qed.

Lemma field_match_none (w : nat) (query_tokens field_tokens : list string) :
  (∀ t, t ∈ query_tokens → t ∉ field_tokens) →
  field_match w query_tokens field_tokens = 0.
Proof.
  intros Hno. unfold field_match. by rewrite filter_none.
Qed.

Lemma field_match_count (w : nat) (query_tokens field_tokens : list string) :
  field_match w query_tokens field_tokens
  = w * length (filter (fun token => token ∈ field_tokens) query_tokens).
Proof. apply isum_const. Qed.

Lemma field_match_bounds (w : nat) (query_tokens field_tokens : list string) t :
  t ∈ query_tokens → t ∈ field_tokens →
  w ≤ field_match w query_tokens field_tokens.
Proof.
  intros Hq Hf. rewrite field_match_count.
  assert (t ∈ filter (fun token => token ∈ field_tokens) query_tokens) as Hin
    by by apply list_elem_of_filter.
  destruct (filter _ query_tokens); [by apply elem_of_nil in Hin|].
  simpl. lia.
Qed.

Lemma field_match_le (w : nat) (query_tokens field_tokens : list string) :
  field_match w query_tokens field_tokens ≤ w * length query_tokens.
Proof.
  rewrite field_match_count. apply Nat.mul_le_mono_l, length_filter.
Qed.

(** *** A loop that raises *)

Lemma collect_from_raise {A B : Type} (f : nat → A → result (list B))
    (e : exn) (l : list A) : ∀ i n x,
  (∀ k y, k < n → l !! k = Some y → ∃ ys, f (i + k) y = Ok ys) →
  l !! n = Some x → f (i + n) x = Raise e →
  Py.collect_from f i l = Raise e.
Proof.
  induction l as [|y l IH]; intros i n x Hok Hn Hx; [done|].
  destruct n as [|n]; simpl.
  - injection Hn as ->. rewrite Nat.add_0_r in Hx. by rewrite Hx.
  - destruct (Hok 0 y) as [ys Hys]; [lia|done|].
    rewrite Nat.add_0_r in Hys. rewrite Hys. cbn [mbind result_bind].
    rewrite (IH (S i) n x); [done| |done|].
    + intros k z Hk Hz. replace (S i + k) with (i + S k) by lia.
      apply Hok; [lia|done].
    + by replace (S i + n) with (i + S n) by lia.
Qed.

End QueryFacts.

Section BagOfWords.

Lemma occurrences_perm (t : string) (l1 l2 : list string) :
  l1 ≡ₚ l2 → occurrences t l1 = occurrences t l2.
Proof. intros H. unfold occurrences. by rewrite H. Qed.

Lemma term_weight_perm (idf : gmap string float) (l1 l2 : list string) t :
  l1 ≡ₚ l2 → term_weight idf l1 t = term_weight idf l2 t.
Proof.
  intros H. unfold term_weight. rewrite (occurrences_perm t l1 l2 H).
  destruct (decide (t ∈ l1)) as [H1|H1], (decide (t ∈ l2)) as [H2|H2];
    try done; exfalso; rewrite H in H1; done.
Qed.

Lemma weights_perm vi idf n (l1 l2 : list string) :
  (∀ w w' k, vi !! w = Some k → vi !! w' = Some k → w = w') →
  (∀ i, i < n → ∃ t, vi !! t = Some i) →
  l1 ≡ₚ l2 → weights vi idf n l1 = weights vi idf n l2.
Proof.
  intros Hinj Hsur Hp. apply list_eq. intros i.
  destruct (decide (i < n)) as [Hi|Hi].
  - destruct (Hsur i Hi) as [t Ht].
    rewrite !(weights_lookup vi idf n _ t i) by done.
    by rewrite (term_weight_perm idf l1 l2 t Hp).
  - rewrite !lookup_ge_None_2; [done| |]; rewrite weights_length; lia.
Qed.

Lemma field_match_perm (w : nat) (l1 l2 field_tokens : list string) :
  l1 ≡ₚ l2 → field_match w l1 field_tokens = field_match w l2 field_tokens.
Proof. intros H. rewrite !field_match_count. by rewrite H. Qed.

End BagOfWords.

(** X6.  With a logarithm that is not negative from 1 on, and fewer than
    [2 ^ 53] documents, no entry of a document vector of the index is
    negative, no entry of a query vector is, and so no cosine between a
    query and a document is. *)
Theorem built_weights_not_negative (log : float → float)
    (set_to_list : gset string → list string) (documents : list string)
    (vectors : list (list float)) (vi : gmap string nat)
    (idf : gmap string float) :
  lists_sets set_to_list →
  (∀ x, (1 <=? x)%float = true → (0 <=? log x)%float = true) →
  (Z.of_nat (length documents) + 1 < 2 ^ 53)%Z →
  build_tfidf log set_to_list documents = Ok (vectors, vi, idf) →
  Forall (Forall B64.not_negative) vectors ∧
  ∀ (query : string) (query_vector : list float),
    vectorize vi idf (size vi) (tokens_of query) = Ok query_vector →
    Forall B64.not_negative query_vector ∧
    Forall (fun v => B64.not_negative (cosine_value query_vector v)) vectors.
Proof.
  intros Hset Hlog HN Hb.
  pose proof (built_vectors_not_negative _ _ _ _ _ _ Hset Hlog HN Hb) as Hv.
  split; [done|]. intros query qv Hq.
  destruct (built_index_shape _ _ _ _ _ _ Hset Hb) as [_ Hok].
  rewrite vectorize_weights in Hq by done. injection Hq as <-.
  assert (Hqv : Forall B64.not_negative
                  (weights vi idf (size vi) (tokens_of query))).
  { apply weights_not_negative.
    by eapply built_idf_not_negative. }
  split; [done|].
  eapply Forall_impl; [exact Hv|]. intros v Hvv. simpl.
  by apply cosine_value_not_negative.
Qed.

Lemma built_weights_not_negative_witness :
  Forall (Forall B64.not_negative) shelf_index.1.1 ∧
  ∀ (query : string) (query_vector : list float),
    vectorize shelf_index.1.2 shelf_index.2 (size shelf_index.1.2)
      (tokens_of query) = Ok query_vector →
    Forall B64.not_negative query_vector ∧
    Forall (fun v => B64.not_negative (cosine_value query_vector v))
      shelf_index.1.1.
Proof.
  apply (built_weights_not_negative log_table elements (map document shelf)).
  - exact elements_lists_sets.
  - exact log_table_not_negative.
  - vm_compute. reflexivity.
  - exact shelf_index_built.
Defined.

(** X7.  A query none of whose words occurs in the title, the author, the
    category or the description of any book finds nothing: on the index
    built from the books, [search_with_ir] returns the empty list. *)
Theorem unknown_words_find_nothing (log : float → float)
    (set_to_list : gset string → list string) (query : string)
    (books : list Book) (vectors : list (list float))
    (vi : gmap string nat) (idf : gmap string float) :
  lists_sets set_to_list →
  build_tfidf log set_to_list (map document books) = Ok (vectors, vi, idf) →
  (∀ t b, t ∈ tokens_of query → b ∈ books → t ∉ tokens_of (document b)) →
  search_with_ir query books vectors vi idf = Ok [].
Proof.
  intros Hset Hb Hno.
  destruct (built_index_shape _ _ _ _ _ _ Hset Hb) as [Hlen Hok].
  rewrite length_map in Hlen.
  rewrite search_with_ir_value by (done || lia).
  assert (Hqv : weights vi idf (size vi) (tokens_of query)
                = replicate (size vi) 0%float).
  { assert (Ok (weights vi idf (size vi) (tokens_of query))
            = Ok (replicate (size vi) 0%float)) as [= ->]; [|done].
    rewrite <- vectorize_weights by done. apply vectorize_unknown.
    intros t Ht. apply eq_None_not_Some.
    destruct (built_idf_lookup _ _ _ _ _ _ t Hset Hb) as [_ ->].
    rewrite vocabulary_elem. intros (doc & Hdoc & Hin).
    apply list_elem_of_fmap in Hdoc as (b & -> & Hbk).
    by apply (Hno t b). }
  rewrite Hqv. rewrite filter_none; [done|].
  intros j Hj. rewrite sort_desc_perm, elem_of_seq in Hj.
  assert (Hbj : books !!! j ∈ books).
  { apply list_elem_of_lookup_total_2. lia. }
  unfold score_at, final_score. rewrite cosine_value_zeros.
  rewrite !field_match_none; [by vm_compute| |].
  - intros t Ht Hin. apply (Hno t _ Ht Hbj). rewrite tokens_of_document.
    rewrite !elem_of_app. tauto.
  - intros t Ht Hin. apply (Hno t _ Ht Hbj). rewrite tokens_of_document.
    rewrite !elem_of_app. tauto.
Qed.

Lemma unknown_words_find_nothing_witness :
  search_with_ir "Rust" shelf shelf_index.1.1 shelf_index.1.2 shelf_index.2
  = Ok [].
Proof.
  apply (unknown_words_find_nothing log_table elements "Rust" shelf).
  - exact elements_lists_sets.
  - exact shelf_index_built.
  - intros t b Ht Hb.
    assert (Hq : tokens_of "Rust" = ["rust"%string])
      by (vm_compute; reflexivity).
    rewrite Hq in Ht. apply list_elem_of_singleton in Ht as ->.
    unfold shelf in Hb.
    repeat (apply elem_of_cons in Hb as [->|Hb]);
      [..|by apply elem_of_nil in Hb];
      apply (bool_decide_unpack _); vm_compute; exact I.
Defined.

(** X8.  A book whose title or author has a word of the query is found:
    on the index built from the books, with a logarithm that is not
    negative from 1 on, and a cosine that is not a NaN, the book at a
    position [j] whose tokenized title or author contains a token of the
    query is in the list [search_with_ir] returns. *)
Theorem matching_title_is_found (log : float → float)
    (set_to_list : gset string → list string) (query : string)
    (books : list Book) (vectors : list (list float))
    (vi : gmap string nat) (idf : gmap string float)
    (query_vector : list float) (j : nat) (t : string) :
  lists_sets set_to_list →
  (∀ x, (1 <=? x)%float = true → (0 <=? log x)%float = true) →
  (Z.of_nat (length books) + 1 < 2 ^ 53)%Z →
  (3 * Z.of_nat (length (tokens_of query)) < 2 ^ 53)%Z →
  build_tfidf log set_to_list (map document books) = Ok (vectors, vi, idf) →
  vectorize vi idf (size vi) (tokens_of query) = Ok query_vector →
  j < length books →
  t ∈ tokens_of query →
  t ∈ tokens_of (title (books !!! j)) ∨ t ∈ tokens_of (author (books !!! j)) →
  B64.comparable (cosine_value query_vector (vectors !!! j)) →
  ∃ found : list Book,
    search_with_ir query books vectors vi idf = Ok found ∧
    books !!! j ∈ found.
Proof.
  intros Hset Hlog HN Hq Hb Hqv Hj Ht Hhit Hcmp.
  destruct (built_index_shape _ _ _ _ _ _ Hset Hb) as [Hlen Hok].
  rewrite length_map in Hlen.
  rewrite vectorize_weights in Hqv by done. injection Hqv as <-.
  rewrite search_with_ir_value by (done || lia).
  eexists. split; [reflexivity|].
  apply (list_elem_of_fmap_2 (fun j => books !!! j)).
  apply list_elem_of_filter. split.
  2:{ rewrite sort_desc_perm, elem_of_seq. lia. }
  assert (Hidf : ∀ w x, idf !! w = Some x → B64.not_negative x).
  { eapply built_idf_not_negative; [done|done| |done].
    by rewrite length_map. }
  assert (Hv : Forall B64.not_negative (vectors !!! j)).
  { assert (Hall : Forall (Forall B64.not_negative) vectors).
    { eapply built_vectors_not_negative; [done|done| |done].
      by rewrite length_map. }
    rewrite Forall_forall in Hall. apply Hall.
    apply list_elem_of_lookup_total_2. lia. }
  set (cos := cosine_value _ _) in *.
  assert (Hcos : (0 <=? cos * 4)%float = true).
  { apply mul_four_not_below_zero, leb_zero_of_not_negative; [|done].
    apply cosine_value_not_negative; [|done].
    by apply weights_not_negative. }
  unfold score_at, final_score. fold cos.
  set (tm := field_match 3 _ _). set (am := field_match 2 _ _).
  assert (Htm : (Z.of_nat tm < 2 ^ 53)%Z).
  { pose proof (field_match_le 3 (tokens_of query)
                  (tokens_of (title (books !!! j)))). fold tm in H. lia. }
  assert (Ham : (Z.of_nat am < 2 ^ 53)%Z).
  { pose proof (field_match_le 2 (tokens_of query)
                  (tokens_of (author (books !!! j)))). fold am in H. lia. }
  destruct Hhit as [Hin|Hin].
  - apply add_positive_l; [|by apply float_of_nat_not_below_zero].
    apply add_positive_r; [done|].
    apply float_of_nat_positive; [|done].
    pose proof (field_match_bounds 3 _ _ t Ht Hin). fold tm in H. lia.
  - apply add_positive_r.
    + apply add_not_below_zero; [done|].
      by apply float_of_nat_not_below_zero.
    + apply float_of_nat_positive; [|done].
      pose proof (field_match_bounds 2 _ _ t Ht Hin). fold am in H. lia.
Qed.

Lemma matching_title_is_found_witness :
  ∃ found : list Book,
    search_with_ir "Python" shelf shelf_index.1.1 shelf_index.1.2
      shelf_index.2 = Ok found ∧
    shelf !!! 0 ∈ found.
Proof.
  apply (matching_title_is_found log_table elements "Python" shelf
           shelf_index.1.1 shelf_index.1.2 shelf_index.2
           (weights shelf_index.1.2 shelf_index.2 (size shelf_index.1.2)
              (tokens_of "Python"))
           0 "python").
  - exact elements_lists_sets.
  - exact log_table_not_negative.
  - vm_compute. reflexivity.
  - vm_compute. reflexivity.
  - exact shelf_index_built.
  - apply vectorize_weights.
    exact (proj2 (built_index_shape _ _ _ _ _ _ elements_lists_sets
                    shelf_index_built)).
  - simpl. lia.
  - apply (bool_decide_unpack _). vm_compute. exact I.
  - left. apply (bool_decide_unpack _). vm_compute. exact I.
  - unfold B64.comparable. vm_compute. reflexivity.
Defined.

(** X9.  The order of the words of a query plays no part: on the index
    built from the books, two queries with the same tokens in a different
    order have the same query vector and find the same books in the same
    order. *)
Theorem word_order_is_ignored (log : float → float)
    (set_to_list : gset string → list string) (query1 query2 : string)
    (books : list Book) (vectors : list (list float))
    (vi : gmap string nat) (idf : gmap string float) :
  lists_sets set_to_list →
  build_tfidf log set_to_list (map document books) = Ok (vectors, vi, idf) →
  tokens_of query1 ≡ₚ tokens_of query2 →
  vectorize vi idf (size vi) (tokens_of query1)
  = vectorize vi idf (size vi) (tokens_of query2) ∧
  search_with_ir query1 books vectors vi idf
  = search_with_ir query2 books vectors vi idf.
Proof.
  intros Hset Hb Hp.
  destruct (built_index_shape _ _ _ _ _ _ Hset Hb) as [Hlen Hok].
  rewrite length_map in Hlen.
  assert (Hw : weights vi idf (size vi) (tokens_of query1)
               = weights vi idf (size vi) (tokens_of query2)).
  { revert Hb. rewrite build_tfidf_value. intros [= <- <- <-].
    pose proof (lists_sets_NoDup _ (vocabulary (map document books)) Hset)
      as Hnd.
    apply weights_perm; [apply vocab_index_of_inj| |done].
    intros i Hi. rewrite vocab_index_of_size in Hi by done.
    apply lookup_lt_is_Some_2 in Hi as [t Ht].
    exists t. by apply vocab_index_of_slot. }
  split; [by rewrite !vectorize_weights, Hw by done|].
  rewrite !search_with_ir_value by (done || lia). rewrite Hw.
  assert (Hs : ∀ j,
    score_at (tokens_of query1)
      (weights vi idf (size vi) (tokens_of query2)) books vectors j
    = score_at (tokens_of query2)
        (weights vi idf (size vi) (tokens_of query2)) books vectors j).
  { intros j. unfold score_at, final_score.
    by rewrite !(field_match_perm _ _ _ _ Hp). }
  f_equal. f_equal.
  rewrite (sort_desc_ext _ _ _ (fun j _ => Hs j)).
  apply filter_ext_in. intros j _. by rewrite Hs.
Qed.

Lemma word_order_is_ignored_witness :
  vectorize shelf_index.1.2 shelf_index.2 (size shelf_index.1.2)
    (tokens_of "python guide")
  = vectorize shelf_index.1.2 shelf_index.2 (size shelf_index.1.2)
      (tokens_of "Guide, Python") ∧
  search_with_ir "python guide" shelf shelf_index.1.1 shelf_index.1.2
    shelf_index.2
  = search_with_ir "Guide, Python" shelf shelf_index.1.1 shelf_index.1.2
      shelf_index.2.
Proof.
  apply (word_order_is_ignored log_table elements "python guide"
           "Guide, Python" shelf).
  - exact elements_lists_sets.
  - exact shelf_index_built.
  - assert (H1 : tokens_of "python guide" = ["python"; "guide"]%string)
      by (vm_compute; reflexivity).
    assert (H2 : tokens_of "Guide, Python" = ["guide"; "python"]%string)
      by (vm_compute; reflexivity).
    rewrite H1, H2. apply Permutation_swap.
Defined.

(** X10.  With fewer books than document vectors [search_with_ir] raises
    [IndexError]: the loop over the vectors reads [books[i]] at the first
    position that has a vector and no book. *)
Theorem short_library_raises (query : string) (books : list Book)
    (doc_vectors : list (list float)) (vocab_index : gmap string nat)
    (idf : gmap string float) :
  index_ok vocab_index (size vocab_index) →
  length books < length doc_vectors →
  search_with_ir query books doc_vectors vocab_index idf = Raise IndexError.
Proof.
  intros Hok Hlen. unfold search_with_ir.
  rewrite vectorize_weights by done. cbn [mbind result_bind].
  unfold search_scores.
  destruct (lookup_lt_is_Some_2 doc_vectors (length books) Hlen) as [v Hv].
  rewrite (collect_from_raise _ IndexError doc_vectors 0 (length books) v);
    [done| |done|].
  - intros k y Hk Hy. simpl. rewrite cosine_similarity_value.
    cbn [mbind result_bind]. rewrite getitem_lookup_total by done.
    cbn [mbind result_bind]. by eexists.
  - simpl. rewrite cosine_similarity_value. cbn [mbind result_bind].
    unfold Py.getitem. by rewrite lookup_ge_None_2.
Qed.

Lemma short_library_raises_witness :
  search_with_ir "Python" (take 2 shelf) shelf_index.1.1 shelf_index.1.2
    shelf_index.2 = Raise IndexError.
Proof.
  apply short_library_raises.
  - exact (proj2 (built_index_shape _ _ _ _ _ _ elements_lists_sets
                    shelf_index_built)).
  - vm_compute. lia.
Defined.

(** ** The page *)

(** The novels of the category [Fiction] by rating: the two books rated
    4.0 stay in the order they were found in. *)
Example refine_novels :
  map id (refine (Category "Fiction") ByRating novels)
  = ["b2"; "b1"; "b4"]%string ∧
  map id (refine AllCategories ByYear novels)
  = ["b3"; "b2"; "b4"; "b1"]%string.
Proof. split; vm_compute; reflexivity. Qed.

Example grid_of_twelve :
  grid 12 = [[0; 1; 2; 3; 4]; [5; 6; 7; 8; 9]; [10; 11]].
Proof. vm_compute. reflexivity. Qed.

Example hearts :
  toggle_all ["b1"; "b2"; "b1"; "b3"]%string [] = Ok ["b2"; "b3"]%string.
Proof. vm_compute. reflexivity. Qed.

Section PageFacts.

(** *** Favourites *)

Lemma list_remove_spec (x : string) (l : list string) :
  x ∈ l → NoDup l →
  ∃ l', list_remove x l = Ok l' ∧ NoDup l' ∧ ∀ y, y ∈ l' ↔ y ∈ l ∧ y ≠ x.
Proof.
  induction l as [|z l IH]; intros Hx Hnd; [by apply elem_of_nil in Hx|].
  apply NoDup_cons in Hnd as [Hz Hnd]. simpl.
  destruct (decide (z = x)) as [->|Hne].
  - exists l. split; [done|]. split; [done|].
    intros y. rewrite elem_of_cons. split; [|tauto].
    intros Hy. split; [tauto|]. by intros ->.
  - apply elem_of_cons in Hx as [->|Hx]; [done|].
    destruct (IH Hx Hnd) as (l' & -> & Hnd' & Hl').
    exists (z :: l'). split; [done|]. split.
    + apply NoDup_cons. split; [|done]. rewrite Hl'. tauto.
    + intros y. rewrite !elem_of_cons, Hl'. split; [|tauto].
      intros [->|?]; tauto.
Qed.

Lemma toggle_favorite_spec (book_id : string) (favorites : list string) :
  NoDup favorites →
  ∃ favorites', toggle_favorite book_id favorites = Ok favorites' ∧
    NoDup favorites' ∧
    ∀ x, x ∈ favorites'
         ↔ (if decide (x = book_id) then x ∉ favorites else x ∈ favorites).
Proof.
  intros Hnd. unfold toggle_favorite.
  destruct (decide (book_id ∈ favorites)) as [Hin|Hin].
  - destruct (list_remove_spec _ _ Hin Hnd) as (l' & -> & Hnd' & Hl').
    exists l'. split; [done|]. split; [done|].
    intros x. rewrite Hl'. destruct (decide (x = book_id)) as [->|]; tauto.
  - exists (favorites ++ [book_id]). split; [done|]. split.
    + apply NoDup_app. split; [done|]. split; [|apply NoDup_singleton].
      intros x Hx ->%list_elem_of_singleton. done.
    + intros x. rewrite elem_of_app, list_elem_of_singleton.
      destruct (decide (x = book_id)) as [->|]; tauto.
Qed.

Lemma toggle_all_spec (clicks : list string) : ∀ favorites,
  NoDup favorites →
  ∃ favorites', toggle_all clicks favorites = Ok favorites' ∧
    NoDup favorites' ∧
    ∀ x, x ∈ favorites'
         ↔ xorb (bool_decide (x ∈ favorites))
             (Nat.odd (occurrences x clicks)) = true.
Proof.
  induction clicks as [|c clicks IH]; intros favorites Hnd.
  - exists favorites. split; [done|]. split; [done|].
    intros x. unfold occurrences. simpl. rewrite xorb_false_r.
    by rewrite bool_decide_eq_true.
  - destruct (toggle_favorite_spec c favorites Hnd) as (f1 & H1 & Hnd1 & Hf1).
    destruct (IH f1 Hnd1) as (f2 & H2 & Hnd2 & Hf2).
    exists f2. unfold toggle_all in *. simpl. rewrite H1. simpl.
    split; [done|]. split; [done|].
    intros x. rewrite Hf2, occurrences_cons.
    assert (bool_decide (x ∈ f1)
            = xorb (bool_decide (x ∈ favorites)) (bool_decide (c = x))) as ->.
    { apply eq_true_iff_eq. rewrite bool_decide_eq_true, Hf1.
      destruct (decide (x = c)) as [->|Hne].
      - rewrite (bool_decide_eq_true_2 (c = c)) by done.
        rewrite xorb_true_r, negb_true_iff, bool_decide_eq_false. done.
      - rewrite (bool_decide_eq_false_2 (c = x)) by done.
        by rewrite xorb_false_r, bool_decide_eq_true. }
    destruct (decide (c = x)) as [->|Hne].
    + rewrite (bool_decide_eq_true_2 (x = x)) by done.
      change (1 + occurrences x clicks) with (S (occurrences x clicks)).
      rewrite Nat.odd_succ, <- Nat.negb_odd.
      by destruct (bool_decide _), (Nat.odd _).
    + rewrite (bool_decide_eq_false_2 (c = x)) by done.
      by rewrite xorb_false_r.
Qed.

(** *** The position of a book *)

Lemma next_index_from_spec (book_id : string) (books : list Book) : ∀ i,
  (next_index_from i book_id books = (-1)%Z ∧
   ∀ b, b ∈ books → id b ≠ book_id)
  ∨ ∃ k b, next_index_from i book_id books = Z.of_nat (i + k) ∧
           books !! k = Some b ∧ id b = book_id ∧
           ∀ k' b', k' < k → books !! k' = Some b' → id b' ≠ book_id.
Proof.
  induction books as [|b books IH]; intros i; simpl.
  - left. split; [done|]. intros b Hb. by apply elem_of_nil in Hb.
  - destruct (decide (id b = book_id)) as [Hb|Hb].
    + right. exists 0, b. rewrite Nat.add_0_r. repeat split; try done.
      intros k' b' Hk. lia.
    + destruct (IH (S i)) as [[-> Hno]|(k & b0 & -> & Hk & Hid & Hfirst)].
      * left. split; [done|]. intros b' [->|Hb']%elem_of_cons; auto.
      * right. exists (S k), b0. split; [f_equal; lia|].
        split; [done|]. split; [done|].
        intros [|k'] b' Hk' Hb'; simpl in Hb'.
        -- by injection Hb' as <-.
        -- apply (Hfirst k' b'); [lia|done].
Qed.

Lemma book_index_unique (books : list Book) (i : nat) (b : Book) :
  NoDup (map id books) → books !! i = Some b →
  book_index (id b) books = Z.of_nat i.
Proof.
  intros Hnd Hi. unfold book_index.
  destruct (next_index_from_spec (id b) books 0)
    as [[_ Hno]|(k & b0 & -> & Hk & Hid & _)].
  - exfalso. apply (Hno b); [|done]. by eapply list_elem_of_lookup_2.
  - f_equal. simpl.
    eapply (NoDup_lookup (map id books) k i (id b)); [done| |].
    + change (map id books) with (id <$> books).
      by rewrite list_lookup_fmap, Hk, <- Hid.
    + change (map id books) with (id <$> books).
      by rewrite list_lookup_fmap, Hi.
Qed.

(** *** Sorting by an integer key *)

Section SortIntFacts.
Context {A : Type} (key : A → Z).

Lemma insert_desc_int_perm (x : A) (l : list A) :
  insert_desc_int key x l ≡ₚ x :: l.
Proof.
  induction l as [|y l IH]; simpl; [done|].
  destruct (key x <? key y)%Z; [|done].
  rewrite IH. apply Permutation_swap.
Qed.

Lemma sort_desc_int_perm (l : list A) : sort_desc_int key l ≡ₚ l.
Proof.
  induction l as [|x l IH]; simpl; [done|].
  by rewrite insert_desc_int_perm, IH.
Qed.

Lemma insert_desc_int_sorted (x : A) (l : list A) :
  StronglySorted (fun a b => (key b <= key a)%Z) l →
  StronglySorted (fun a b => (key b <= key a)%Z) (insert_desc_int key x l).
Proof.
  induction l as [|y l IH]; intros Hs; simpl.
  - repeat constructor.
  - apply StronglySorted_inv in Hs as [Hs Hy].
    destruct (key x <? key y)%Z eqn:E.
    + constructor; [by apply IH|].
      rewrite insert_desc_int_perm. constructor; [lia|done].
    + constructor; [by constructor|].
      constructor; [lia|].
      eapply Forall_impl; [exact Hy|]. simpl. intros z Hz. lia.
Qed.

Lemma sort_desc_int_sorted (l : list A) :
  StronglySorted (fun a b => (key b <= key a)%Z) (sort_desc_int key l).
Proof.
  induction l as [|x l IH]; simpl; [constructor|].
  by apply insert_desc_int_sorted.
Qed.

Lemma insert_desc_int_stable (k : Z) (x : A) (l : list A) :
  filter (fun a => key a = k) (insert_desc_int key x l)
  = filter (fun a => key a = k) (x :: l).
Proof.
  induction l as [|y l IH]; simpl; [done|].
  destruct (key x <? key y)%Z eqn:E; [|done].
  rewrite filter_cons, IH, !filter_cons.
  destruct (decide (key y = k)), (decide (key x = k)); try done. lia.
Qed.

Lemma sort_desc_int_stable (k : Z) (l : list A) :
  filter (fun a => key a = k) (sort_desc_int key l)
  = filter (fun a => key a = k) l.
Proof.
  induction l as [|x l IH]; simpl; [done|].
  by rewrite insert_desc_int_stable, !filter_cons, IH.
Qed.
End SortIntFacts.

(** *** Sorting by a float key *)

Section SortFloatFacts.
Import B64.
Context {A : Type} (key : A → float).

Lemma not_below_trans (a b c : A) :
  not_below key a b → not_below key b c → not_below key a c.
Proof.
  unfold not_below. intros H1 H2.
  destruct (leb_true_comparable _ _ H1) as [Hb Ha].
  destruct (leb_true_comparable _ _ H2) as [Hc _].
  rewrite leb_ord in * by done. lia.
Qed.

Lemma insert_desc_sorted (x : A) (l : list A) :
  comparable (key x) → Forall (fun y => comparable (key y)) l →
  StronglySorted (not_below key) l →
  StronglySorted (not_below key) (Py.insert_desc key x l).
Proof.
  induction l as [|y l IH]; intros Hx Hl Hs; simpl.
  - repeat constructor.
  - apply StronglySorted_inv in Hs as [Hs Hy].
    apply Forall_cons in Hl as [Hcy Hl].
    destruct (key x <? key y)%float eqn:E.
    + constructor; [by apply IH|].
      rewrite insert_desc_perm. constructor; [|done].
      unfold not_below. rewrite ltb_ord in E by done.
      rewrite leb_ord by done. lia.
    + assert (Hyx : not_below key x y).
      { unfold not_below. rewrite ltb_ord in E by done.
        rewrite leb_ord by done. lia. }
      constructor; [by constructor|].
      constructor; [done|].
      eapply Forall_impl; [exact Hy|]. simpl. intros z Hz.
      by eapply not_below_trans.
Qed.

Lemma sort_desc_sorted (l : list A) :
  Forall (fun y => comparable (key y)) l →
  StronglySorted (not_below key) (Py.sort_desc key l).
Proof.
  induction l as [|x l IH]; intros Hl; simpl; [constructor|].
  apply Forall_cons in Hl as [Hx Hl].
  apply insert_desc_sorted; [done| |by apply IH].
  by rewrite sort_desc_perm.
Qed.

Lemma insert_desc_stable (k : float) (x : A) (l : list A) :
  filter (fun a => (key a =? k)%float = true) (Py.insert_desc key x l)
  = filter (fun a => (key a =? k)%float = true) (x :: l).
Proof.
  induction l as [|y l IH]; simpl; [done|].
  destruct (key x <? key y)%float eqn:E; [|done].
  rewrite filter_cons, IH, !filter_cons.
  destruct (decide ((key y =? k)%float = true)) as [Hy|];
    destruct (decide ((key x =? k)%float = true)) as [Hx|]; try done.
  exfalso. destruct (ltb_true_comparable _ _ E) as [Hcx Hcy].
  assert (Hck : comparable k).
  { unfold comparable. revert Hx. rewrite !FloatAxioms.eqb_spec.
    unfold SFeqb. pose proof (Prim2SF_valid k) as Hv.
    destruct (sf_is_nan (Prim2SF k)) eqn:En.
    - destruct (Prim2SF k); try discriminate.
      destruct (Prim2SF (key x)) as [?|?| |? ? ?]; simpl; discriminate.
    - intros _. rewrite SFcompare_ord by done.
      by rewrite Z.compare_refl. }
  rewrite ltb_ord in E by done. rewrite eqb_ord in Hx, Hy by done. lia.
Qed.

Lemma sort_desc_stable (k : float) (l : list A) :
  filter (fun a => (key a =? k)%float = true) (Py.sort_desc key l)
  = filter (fun a => (key a =? k)%float = true) l.
Proof.
  induction l as [|x l IH]; simpl; [done|].
  by rewrite insert_desc_stable, !filter_cons, IH.
Qed.
End SortFloatFacts.

(** *** The grid *)

Lemma filter_lt_seq (n m : nat) : ∀ i,
  filter (fun p => p < n) (seq i m) = seq i (min m (n - i)).
Proof.
  induction m as [|m IH]; intros i; [done|].
  simpl seq. rewrite filter_cons, IH.
  destruct (decide (i < n)).
  - replace (n - i) with (S (n - S i)) by lia. done.
  - replace (n - i) with 0 by lia. replace (n - S i) with 0 by lia.
    by rewrite !Nat.min_0_r.
Qed.

Lemma grid_row_seq (n i : nat) :
  grid_row n i = seq i (min cols_per_row (n - i)).
Proof.
  unfold grid_row.
  change (map (fun j => i + j) (seq 0 cols_per_row))
    with (Nat.add i <$> seq 0 cols_per_row).
  rewrite fmap_add_seq, Nat.add_0_r. apply filter_lt_seq.
Qed.

Lemma concat_rows (c n : nat) : ∀ q,
  concat (map (fun k => seq (k * c) (min c (n - k * c))) (seq 0 q))
  = seq 0 (min n (q * c)).
Proof.
  induction q as [|q IH]; [by rewrite Nat.min_0_r|].
  rewrite seq_S, map_app, concat_app, IH. simpl. rewrite app_nil_r.
  destruct (decide (q * c ≤ n)).
  - replace (min n (q * c)) with (q * c) by lia.
    replace (min n (c + q * c)) with (q * c + min c (n - q * c)) by lia.
    by rewrite seq_app.
  - replace (n - q * c) with 0 by lia. rewrite Nat.min_0_r. simpl.
    rewrite app_nil_r. f_equal. lia.
Qed.

End PageFacts.

Section Columns.

Lemma columns_collect (l : list Book) : ∀ i,
  i + length l ≤ 4 →
  Py.collect_from
    (fun idx similar => col ← Py.getitem (seq 0 4) idx; Ok [(col, similar)])
    i l
  = Ok (imap (fun idx b => (i + idx, b)) l).
Proof.
  induction l as [|x l IH]; intros i Hi; [done|].
  simpl in Hi. cbn [Py.collect_from].
  assert (Hg : Py.getitem (seq 0 4) i = Ok i).
  { unfold Py.getitem. by rewrite lookup_seq_lt by lia. }
  rewrite Hg.
  cbn [mbind result_bind]. rewrite IH by lia. cbn [mbind result_bind].
  simpl. rewrite Nat.add_0_r. do 2 f_equal.
  apply imap_ext. intros k b _. simpl. f_equal. lia.
Qed.

End Columns.

Lemma refine_kept (chosen : category_choice) (filtered : list Book) b :
  b ∈ refine chosen ByScore filtered
  ↔ b ∈ filtered ∧ match chosen with
                   | AllCategories => True
                   | Category name => category b = name
                   end.
Proof.
  unfold refine. destruct chosen as [|name]; [tauto|].
  rewrite list_elem_of_filter. tauto.
Qed.

(** X11.  The similar books fit the four columns: with no more vectors
    than books, the detail view raises nothing, shows at most four books,
    all of them books of the library, the book of rank [idx] in column
    [idx]; for a position that is negative or has no vector it shows
    none. *)
Theorem similar_view_fits (selected_idx : Z) (books : list Book)
    (doc_vectors : list (list float)) :
  length doc_vectors ≤ length books →
  ∃ similar : list Book,
    similar_view selected_idx books doc_vectors
      = Ok (imap (fun idx b => (idx, b)) similar) ∧
    length similar ≤ 4 ∧
    Forall (fun b => b ∈ books) similar ∧
    ((selected_idx < 0 ∨ Z.of_nat (length doc_vectors) <= selected_idx)%Z →
     similar = []).
Proof.
  intros Hlen. unfold similar_view, recommend_similar_default.
  destruct (decide (0 <= selected_idx)%Z) as [H0|H0].
  2:{ exists []. repeat split; try done. simpl. lia. }
  destruct (decide (selected_idx < Z.of_nat (length doc_vectors))%Z)
    as [H1|H1].
  - rewrite recommend_similar_value by (done || lia).
    cbn [mbind result_bind].
    set (js := Py.slice_to 4 _).
    assert (Hjs : length js ≤ 4).
    { unfold js, Py.slice_to. simpl. rewrite length_take. lia. }
    assert (Hin : Forall (fun j => j < length doc_vectors) js).
    { unfold js, Py.slice_to. simpl. apply Forall_take, Forall_forall.
      intros j. rewrite sort_desc_perm, list_elem_of_filter, elem_of_seq.
      intros [_ ?]. lia. }
    exists (map (fun j => books !!! j) js).
    rewrite columns_collect by (rewrite length_map; lia).
    split; [done|]. split; [by rewrite length_map|]. split; [|lia].
    apply Forall_fmap. eapply Forall_impl; [exact Hin|].
    intros j Hj. simpl in *. apply list_elem_of_lookup_total_2. lia.
  - unfold recommend_similar. rewrite decide_True by lia.
    exists []. split; [done|]. split; [simpl; lia|]. split; [constructor|done].
Qed.

Lemma similar_view_fits_witness :
  ∃ similar : list Book,
    similar_view 0 shelf shelf_index.1.1
      = Ok (imap (fun idx b => (idx, b)) similar) ∧
    length similar ≤ 4 ∧
    Forall (fun b => b ∈ shelf) similar ∧
    ((0 < 0 ∨ Z.of_nat (length shelf_index.1.1) <= 0)%Z → similar = []).
Proof.
  apply (similar_view_fits 0 shelf shelf_index.1.1).
  vm_compute. lia.
Defined.

(** X12.  In a library whose ids are distinct, looking up the id of the
    book at a position gives that position, and looking up an id that no
    book has gives -1. *)
Theorem book_index_position (books : list Book) :
  NoDup (map id books) →
  (∀ i b, books !! i = Some b → book_index (id b) books = Z.of_nat i) ∧
  (∀ book_id, book_id ∉ map id books → book_index book_id books = (-1)%Z).
Proof.
  intros Hnd. split.
  - intros i b. by apply book_index_unique.
  - intros book_id Hno. unfold book_index.
    destruct (next_index_from_spec book_id books 0)
      as [[-> _]|(k & b & _ & Hk & Hid & _)]; [done|].
    exfalso. apply Hno. rewrite <- Hid.
    apply (list_elem_of_fmap_2 id). by eapply list_elem_of_lookup_2.
Qed.

Lemma book_index_position_witness :
  (∀ i b, shelf !! i = Some b → book_index (id b) shelf = Z.of_nat i) ∧
  (∀ book_id, book_id ∉ map id shelf → book_index book_id shelf = (-1)%Z).
Proof.
  apply (book_index_position shelf).
  apply (bool_decide_unpack _). vm_compute. exact I.
Defined.

(** X13.  The heart buttons, pressed in any sequence from an empty list
    of favourites, raise nothing and leave a list without repetitions in
    which a book id occurs exactly if its button was pressed an odd
    number of times; the favourites page shows the books of the library
    with such an id. *)
Theorem favorites_parity (clicks : list string) :
  ∃ favorites : list string,
    toggle_all clicks [] = Ok favorites ∧
    NoDup favorites ∧
    (∀ book_id, book_id ∈ favorites
                ↔ Nat.odd (occurrences book_id clicks) = true) ∧
    (∀ books b, b ∈ favorite_books books favorites
                ↔ b ∈ books ∧ Nat.odd (occurrences (id b) clicks) = true).
Proof.
  destruct (toggle_all_spec clicks [] (NoDup_nil_2)) as (f & Hf & Hnd & Hin).
  assert (Hodd : ∀ x, x ∈ f ↔ Nat.odd (occurrences x clicks) = true).
  { intros x. rewrite Hin. rewrite bool_decide_eq_false_2; [done|].
    apply not_elem_of_nil. }
  exists f. split; [done|]. split; [done|]. split; [done|].
  intros books b. unfold favorite_books.
  rewrite list_elem_of_filter, Hodd. tauto.
Qed.

(** X14.  Sorting by year shows the books found that are in the chosen
    category, each as often as it was found, with the years descending,
    and books of the same year in the order the search gave them. *)
Theorem refine_by_year (chosen : category_choice) (filtered : list Book) :
  let kept := refine chosen ByScore filtered in
  let shown := refine chosen ByYear filtered in
  shown ≡ₚ kept ∧
  (∀ b, b ∈ shown ↔ b ∈ filtered ∧ match chosen with
                                   | AllCategories => True
                                   | Category name => category b = name
                                   end) ∧
  StronglySorted (fun a b => (year b <= year a)%Z) shown ∧
  (∀ y, filter (fun b => year b = y) shown
        = filter (fun b => year b = y) kept).
Proof.
  intros kept shown.
  assert (Hs : shown = sort_desc_int year kept) by done.
  rewrite Hs. split; [apply sort_desc_int_perm|]. split; [|split].
  - intros b. rewrite sort_desc_int_perm. apply refine_kept.
  - apply sort_desc_int_sorted.
  - intros y. apply sort_desc_int_stable.
Qed.

(** X15.  Sorting by rating, when no rating is a NaN, shows the books
    found that are in the chosen category, each as often as it was found,
    with the ratings descending, and books of equal rating in the order
    the search gave them. *)
Theorem refine_by_rating (chosen : category_choice) (filtered : list Book) :
  Forall (fun b => B64.comparable (rating b)) filtered →
  let kept := refine chosen ByScore filtered in
  let shown := refine chosen ByRating filtered in
  shown ≡ₚ kept ∧
  (∀ b, b ∈ shown ↔ b ∈ filtered ∧ match chosen with
                                   | AllCategories => True
                                   | Category name => category b = name
                                   end) ∧
  StronglySorted (fun a b => (rating b <=? rating a)%float = true) shown ∧
  (∀ r, filter (fun b => (rating b =? r)%float = true) shown
        = filter (fun b => (rating b =? r)%float = true) kept).
Proof.
  intros Hcmp kept shown.
  assert (Hs : shown = Py.sort_desc rating kept) by done.
  rewrite Hs. split; [apply sort_desc_perm|]. split; [|split].
  - intros b. rewrite sort_desc_perm. apply refine_kept.
  - apply (sort_desc_sorted rating). apply Forall_forall.
    intros b Hb%refine_kept. rewrite Forall_forall in Hcmp.
    apply Hcmp. tauto.
  - intros r. apply sort_desc_stable.
Qed.

Lemma refine_by_rating_witness :
  let kept := refine (Category "Fiction") ByScore novels in
  let shown := refine (Category "Fiction") ByRating novels in
  shown ≡ₚ kept ∧
  (∀ b, b ∈ shown ↔ b ∈ novels ∧ category b = "Fiction"%string) ∧
  StronglySorted (fun a b => (rating b <=? rating a)%float = true) shown ∧
  (∀ r, filter (fun b => (rating b =? r)%float = true) shown
        = filter (fun b => (rating b =? r)%float = true) kept).
Proof.
  apply (refine_by_rating (Category "Fiction") novels).
  repeat constructor.
Defined.

(** X16.  The grid shows every book once, in order: the positions of its
    rows, one row after the other, are [0], [1], ... up to the last; no
    row is empty and none has more than five books. *)
Theorem grid_shows_each_once (n : nat) :
  concat (grid n) = seq 0 n ∧
  Forall (fun row => 0 < length row ≤ cols_per_row) (grid n).
Proof.
  unfold grid, range_step.
  set (q := (n + cols_per_row - 1) / cols_per_row).
  assert (Hq : n ≤ q * cols_per_row ∧ q * cols_per_row < n + cols_per_row).
  { unfold q, cols_per_row.
    pose proof (Nat.div_mod_eq (n + 5 - 1) 5).
    pose proof (Nat.mod_upper_bound (n + 5 - 1) 5). lia. }
  rewrite map_map. split.
  - erewrite map_ext; [|intros k; apply grid_row_seq].
    rewrite (concat_rows cols_per_row n q). f_equal. lia.
  - apply Forall_forall. intros row Hrow.
    apply (list_elem_of_fmap_1 (fun k => grid_row n (k * cols_per_row)))
      in Hrow as (k & -> & Hk).
    apply elem_of_seq in Hk. rewrite grid_row_seq, length_seq.
    unfold cols_per_row in *. nia.
Qed.

(** ** The library *)

(** The replies of [sample_web]: the third item of the first reply has a
    date that is no number, which ends the work on that reply; the second
    request fails and the third is refused. *)
Example fetch_sample :
  map (fun b => (id b, title b, year b, cover b))
    (fetch_books_from_google sample_int (fun x => x) sample_web
       ["a"; "b"; "c"; "d"]%string)
  = [("b1", "Dune", 1965%Z, "https://books/dune");
     ("b2", "Emma", 2020%Z, "https://books/emma")]%string.
Proof. vm_compute. reflexivity. Qed.

Section FetchFacts.
Variable int_of_str : string → result Z.
Variable round1 : float → float.
Variable requests_get : nat → string → reply.

Lemma string_length_app (s t : string) :
  String.length (s ++ t) = String.length s + String.length t.
Proof. induction s as [|c s IH]; simpl; [done|]. by rewrite IH. Qed.

Lemma substring_length_le (n : nat) (s : string) :
  String.length (substring 0 n s) ≤ n.
Proof.
  revert s. induction n as [|n IH]; intros [|c s]; simpl; try lia.
  specialize (IH s). lia.
Qed.

Lemma truthy_Some (s : option string) (t : string) :
  truthy s = Some t → t ≠ ""%string.
Proof. destruct s as [[|c s]|]; simpl; intros [= <-] || intros [=]; done. Qed.

Lemma str_replace_not_empty (old new s : string) :
  new ≠ ""%string → s ≠ ""%string → str_replace old new s ≠ ""%string.
Proof.
  intros Hnew Hs. destruct s as [|c s]; [done|].
  unfold str_replace. cbn [replace_from]. destruct (String.prefix old (String c s)); [|done].
  destruct new; [done|]. done.
Qed.

Lemma make_book_spec (book_id : nat) (info : Volume.t) (thumbnail : string)
    (b : Book) :
  thumbnail ≠ ""%string →
  make_book int_of_str round1 book_id info thumbnail = Ok b →
  id b = ("b" ++ pretty book_id)%string ∧ displayable b.
Proof.
  intros Hth. unfold make_book.
  destruct (match truthy (Volume.publishedDate info) with
            | Some date => int_of_str (substring 0 4 date)
            | None => Ok 2020%Z
            end) as [y|]; [|done].
  cbn [mbind result_bind]. intros [= <-]. split; [done|].
  unfold displayable. cbn [cover description]. split; [|split].
  - by apply str_replace_not_empty.
  - destruct (truthy (Volume.description info)) eqn:E; [|done].
    apply truthy_Some in E. by destruct (substring 0 300 s).
  - destruct (truthy (Volume.description info)); [|simpl; lia].
    rewrite string_length_app. pose proof (substring_length_le 300 s).
    simpl. lia.
Qed.

Lemma numbered_S (n : nat) :
  numbered (S n) = numbered n ++ [("b" ++ pretty (S n))%string].
Proof. unfold numbered. by rewrite seq_S, map_app. Qed.

Lemma numbered_NoDup (n : nat) : NoDup (numbered n).
Proof.
  unfold numbered. apply (NoDup_fmap_2_strong _).
  - intros j k _ _ H. simpl in H. injection H as H. exact (pretty_nat_inj _ _ H).
  - apply NoDup_seq.
Qed.

Lemma add_item_spec (all_books : list Book) (book_id : nat) (item : Volume.t) :
  length all_books < 100 → book_id = S (length all_books) →
  map id all_books = numbered (length all_books) →
  Forall displayable all_books →
  match add_item int_of_str round1 all_books book_id item with
  | Next a k | Except a k =>
      length a < 100 ∧ k = S (length a) ∧ map id a = numbered (length a)
      ∧ Forall displayable a
  | Return a =>
      length a ≤ 100 ∧ map id a = numbered (length a) ∧ Forall displayable a
  end.
Proof.
  intros Hlen Hid Hids Hall. unfold add_item.
  destruct (truthy (Volume.thumbnail item)) as [thumbnail|] eqn:Et.
  - apply truthy_Some in Et.
    destruct (make_book _ _ _ _ _) as [b|] eqn:Eb; [|done].
    destruct (make_book_spec _ _ _ _ Et Eb) as [Hb Hd].
    assert (Hids' : map id (all_books ++ [b])
                    = numbered (length (all_books ++ [b]))).
    { rewrite map_app, length_app, Hids. simpl.
      rewrite Nat.add_1_r, numbered_S, Hb. by subst. }
    assert (Hall' : Forall displayable (all_books ++ [b])).
    { apply Forall_app. split; [done|]. by constructor. }
    cbn zeta. destruct (decide (100 ≤ length (all_books ++ [b]))).
    + split; [|done]. rewrite length_app. simpl. lia.
    + split; [lia|]. split; [|done].
      rewrite length_app. simpl. lia.
  - destruct (decide (100 ≤ length all_books)); [lia|done].
Qed.

Lemma add_items_spec (items : list Volume.t) : ∀ all_books book_id,
  length all_books < 100 → book_id = S (length all_books) →
  map id all_books = numbered (length all_books) →
  Forall displayable all_books →
  match add_items int_of_str round1 all_books book_id items with
  | Next a k | Except a k =>
      length a < 100 ∧ k = S (length a) ∧ map id a = numbered (length a)
      ∧ Forall displayable a
  | Return a =>
      length a ≤ 100 ∧ map id a = numbered (length a) ∧ Forall displayable a
  end.
Proof.
  induction items as [|item items IH]; intros all_books book_id H1 H2 H3 H4.
  - done.
  - simpl. pose proof (add_item_spec all_books book_id item H1 H2 H3 H4) as H.
    destruct (add_item _ _ _ _ _) as [a k|a|a k]; [|done|done].
    destruct H as (? & ? & ? & ?). by apply IH.
Qed.

Lemma fetch_from_spec (search_queries : list string) : ∀ k all_books book_id,
  length all_books < 100 → book_id = S (length all_books) →
  map id all_books = numbered (length all_books) →
  Forall displayable all_books →
  let library :=
    fetch_from int_of_str round1 requests_get k all_books book_id
      search_queries in
  length library ≤ 100 ∧ map id library = numbered (length library)
  ∧ Forall displayable library.
Proof.
  induction search_queries as [|query rest IH];
    intros k all_books book_id H1 H2 H3 H4; simpl.
  - split; [lia|done].
  - destruct (requests_get k (url query)) as [|status_code items];
      [by apply IH|].
    destruct (decide (status_code = 200%Z)); [|by apply IH].
    destruct items as [items|]; [|by apply IH].
    pose proof (add_items_spec items all_books book_id H1 H2 H3 H4) as H.
    destruct (add_items _ _ _ _ _) as [a j|a|a j].
    + destruct H as (? & ? & ? & ?). by apply IH.
    + done.
    + destruct H as (? & ? & ? & ?). by apply IH.
Qed.

End FetchFacts.

(** X17.  [fetch_books_from_google] returns at most 100 books, whatever
    the replies are. *)
Theorem fetch_at_most_100 (int_of_str : string → result Z)
    (round1 : float → float) (requests_get : nat → string → reply)
    (search_queries : list string) :
  length (fetch_books_from_google int_of_str round1 requests_get
            search_queries) ≤ 100.
Proof.
  apply (fetch_from_spec int_of_str round1 requests_get search_queries 0 [] 1);
    simpl; (lia || done).
Qed.

(** X18.  The ids of the books fetched are [b1], [b2], ... in the order of
    the list, without a gap; so no two books have the same id. *)
Theorem fetch_ids_numbered (int_of_str : string → result Z)
    (round1 : float → float) (requests_get : nat → string → reply)
    (search_queries : list string) :
  let library :=
    fetch_books_from_google int_of_str round1 requests_get search_queries in
  map id library = numbered (length library) ∧ NoDup (map id library).
Proof.
  intros library.
  assert (H : map id library = numbered (length library)).
  { apply (fetch_from_spec int_of_str round1 requests_get search_queries
             0 [] 1); simpl; (lia || done). }
  split; [done|]. rewrite H. apply numbered_NoDup.
Qed.

(** X19.  Every book fetched has a cover address and a description that
    are not empty, and a description of at most 303 characters. *)
Theorem fetched_books_displayable (int_of_str : string → result Z)
    (round1 : float → float) (requests_get : nat → string → reply)
    (search_queries : list string) :
  Forall displayable
    (fetch_books_from_google int_of_str round1 requests_get search_queries).
Proof.
  apply (fetch_from_spec int_of_str round1 requests_get search_queries 0 [] 1);
    simpl; (lia || done).
Qed.

(** X20.  In the library fetched, the position the page looks up for the
    id of a book is the position of that book: the books, each replaced by
    the position found for its id, are [0], [1], ... *)
Theorem fetched_book_is_found (int_of_str : string → result Z)
    (round1 : float → float) (requests_get : nat → string → reply)
    (search_queries : list string) :
  let library :=
    fetch_books_from_google int_of_str round1 requests_get search_queries in
  map (fun b => book_index (id b) library) library
  = map Z.of_nat (seq 0 (length library)).
Proof.
  intros library.
  assert (Hnd : NoDup (map id library)).
  { assert (H : map id library = numbered (length library)).
    { apply (fetch_from_spec int_of_str round1 requests_get search_queries
               0 [] 1); simpl; (lia || done). }
    rewrite H. apply numbered_NoDup. }
  apply list_eq. intros i.
  change (map ?f ?l) with (f <$> l). rewrite !list_lookup_fmap.
  destruct (library !! i) as [b|] eqn:E; simpl.
  - rewrite lookup_seq_lt by (by eapply lookup_lt_Some). simpl.
    f_equal. by apply book_index_unique.
  - rewrite lookup_seq_ge; [done|]. by apply lookup_ge_None.
Qed.

(** ** The recommender on a short library *)

(** X21.  With fewer books than document vectors [recommend_similar]
    raises [IndexError] for the position of any book: the loop over the
    vectors reads [books[i]] at the first position that has a vector and
    no book. *)
Theorem recommend_short_library_raises (book_idx top_n : Z)
    (books : list Book) (doc_vectors : list (list float)) :
  (0 <= book_idx < Z.of_nat (length books))%Z →
  length books < length doc_vectors →
  recommend_similar book_idx books doc_vectors top_n = Raise IndexError.
Proof.
  intros Hidx Hlen. unfold recommend_similar.
  rewrite decide_False by lia.
  rewrite getitem_lookup_total by lia. cbn [mbind result_bind].
  unfold recommend_scores.
  destruct (lookup_lt_is_Some_2 doc_vectors (length books) Hlen) as [v Hv].
  rewrite (collect_from_raise _ IndexError doc_vectors 0 (length books) v);
    [done| |done|].
  - intros k y Hk Hy. simpl. destruct (decide (k ≠ Z.to_nat book_idx));
      [|by eexists].
    rewrite cosine_similarity_value.
    cbn [mbind result_bind]. rewrite getitem_lookup_total by done.
    cbn [mbind result_bind]. by eexists.
  - simpl. rewrite decide_True by lia.
    rewrite cosine_similarity_value. cbn [mbind result_bind].
    unfold Py.getitem. by rewrite lookup_ge_None_2.
Qed.

Lemma recommend_short_library_raises_witness :
  recommend_similar 0 (take 2 shelf) shelf_index.1.1 4 = Raise IndexError.
Proof.
  apply recommend_short_library_raises.
  - vm_compute. split; [discriminate|reflexivity].
  - vm_compute. lia.
Defined.

(** ** From the library to the page *)

Lemma sample_index_built :
  build_tfidf log_table elements (map document sample_library)
  = Ok (sample_index.1.1, sample_index.1.2, sample_index.2).
Proof. unfold sample_index. by rewrite build_tfidf_value. Qed.

(** X22.  On the library fetched and the index built from it, a search
    raises nothing, and every book it finds can be viewed: the position
    looked up for its id is the position of the book, and the detail view
    for that position raises nothing and shows at most four similar
    books, all from the library and none of them the book itself. *)
Theorem found_book_can_be_viewed (int_of_str : string → result Z)
    (round1 : float → float) (requests_get : nat → string → reply)
    (search_queries : list string) (log : float → float)
    (set_to_list : gset string → list string)
    (vectors : list (list float)) (vi : gmap string nat)
    (idf : gmap string float) (query : string) :
  let library :=
    fetch_books_from_google int_of_str round1 requests_get search_queries in
  lists_sets set_to_list →
  build_tfidf log set_to_list (map document library) = Ok (vectors, vi, idf) →
  ∃ found : list Book,
    search_with_ir query library vectors vi idf = Ok found ∧
    Forall
      (fun b =>
         ∃ (i : nat) (similar : list Book),
           library !! i = Some b ∧
           book_index (id b) library = Z.of_nat i ∧
           similar_view (Z.of_nat i) library vectors
             = Ok (imap (fun idx s => (idx, s)) similar) ∧
           length similar ≤ 4 ∧ (b ∉ similar) ∧
           Forall (fun s => s ∈ library) similar)
      found.
Proof.
  intros library Hset Hb.
  destruct (built_index_shape _ _ _ _ _ _ Hset Hb) as [Hlen Hok].
  rewrite length_map in Hlen.
  assert (Hids : NoDup (map id library)).
  { assert (H : map id library = numbered (length library)).
    { apply (fetch_from_spec int_of_str round1 requests_get search_queries
               0 [] 1); simpl; (lia || done). }
    rewrite H. apply numbered_NoDup. }
  assert (Hnd : NoDup library) by (by apply (NoDup_fmap_1 id)).
  rewrite search_with_ir_value by (done || lia).
  eexists. split; [reflexivity|].
  apply Forall_fmap, Forall_forall. intros j Hj. simpl.
  apply list_elem_of_filter in Hj as [_ Hj].
  rewrite sort_desc_perm, elem_of_seq in Hj.
  assert (Hi : library !! j = Some (library !!! j)).
  { apply list_lookup_lookup_total_lt. lia. }
  pose (ks := Py.slice_to 4
                (Py.sort_desc (similarity_to vectors j)
                   (filter (fun k => k ≠ j) (seq 0 (length vectors))))).
  assert (Hks : Forall (fun k => k ≠ j ∧ k < length library) ks).
  { unfold ks, Py.slice_to. simpl. apply Forall_take, Forall_forall.
    intros k. rewrite sort_desc_perm, list_elem_of_filter, elem_of_seq.
    intros [? ?]. split; [done|lia]. }
  assert (Hl : length ks ≤ 4).
  { unfold ks, Py.slice_to. simpl. rewrite length_take. lia. }
  exists j, (map (fun k => library !!! k) ks).
  split; [done|]. split; [by apply book_index_unique|]. split.
  { unfold similar_view, recommend_similar_default.
    rewrite decide_True by lia.
    rewrite recommend_similar_value by lia. cbn [mbind result_bind].
    rewrite Nat2Z.id. fold ks.
    by rewrite columns_collect by (rewrite length_map; lia). }
  split; [by rewrite length_map|]. split.
  - intros Hin. apply (list_elem_of_fmap_1 (fun k => library !!! k))
      in Hin as (k & Hk & Hkin).
    rewrite Forall_forall in Hks. destruct (Hks k Hkin) as [Hne Hlt].
    apply Hne. eapply (NoDup_lookup library k j); [done| |exact Hi].
    rewrite Hk. by apply list_lookup_lookup_total_lt.
  - apply Forall_fmap. eapply Forall_impl; [exact Hks|].
    intros k [_ Hk]. simpl. by apply list_elem_of_lookup_total_2.
Qed.

Lemma found_book_can_be_viewed_witness :
  ∃ found : list Book,
    search_with_ir "Emma" sample_library sample_index.1.1 sample_index.1.2
      sample_index.2 = Ok found ∧
    Forall
      (fun b =>
         ∃ (i : nat) (similar : list Book),
           sample_library !! i = Some b ∧
           book_index (id b) sample_library = Z.of_nat i ∧
           similar_view (Z.of_nat i) sample_library sample_index.1.1
             = Ok (imap (fun idx s => (idx, s)) similar) ∧
           length similar ≤ 4 ∧ (b ∉ similar) ∧
           Forall (fun s => s ∈ sample_library) similar)
      found.
Proof.
  apply (found_book_can_be_viewed sample_int (fun x => x) sample_web
           ["a"; "b"; "c"; "d"; "e"]%string log_table elements
           sample_index.1.1 sample_index.1.2 sample_index.2 "Emma").
  - exact elements_lists_sets.
  - exact sample_index_built.
Defined.
